(** * A JavaScript-to-VTL transpiler: target AST, serializer and tree walker

    Shallow embedding of the repository's [vtl-ast] module (the target AST
    with its [toString]/[serialize] methods and the [SerializationContext])
    and of the revision of [js-walker] that resolves identifiers through a
    scope table ([walkers], [declVarRef], [nonDeclVarRef],
    [registerEnvGlobals], [reportError], [enterScope], [exitScope],
    [transpile]).  The [symbol-table] module that this walker requires is
    not among the sources and is modelled from the specification.  The
    parser and the walking library are external: [transpile] starts from the
    parsed program, and [visit(n, state, n.type)] is the dispatch on the
    constructor of [n].

    JavaScript objects are modelled as trees.  The two fields that the
    source mutates after construction ([isReferenceRoot], [isElseIf]) are
    written by the constructor of the *referring* node on an object that the
    walker has just created and has stored nowhere else, so the constructor
    functions below rebuild the child with the flag changed. *)

From stdpp Require Import base strings gmap list pretty.

Set Default Proof Using "Type".
Set Warnings "-register-all".

(** ** Outcomes of JavaScript evaluation *)

(** The exceptions the modelled code can raise: [Error] is the object built
    by [new Error(msg)] in [reportError]; [TypeError] and [RangeError] are
    raised by the engine itself (dereferencing [null]/[undefined],
    [String.prototype.repeat] with a negative count). *)
Inductive exn :=
| Error (message : string)
| TypeError (message : string)
| RangeError (message : string).

Inductive outcome (A : Type) :=
| Ok (a : A)
| Throw (e : exn).
Arguments Ok {A} a.
Arguments Throw {A} e.

Definition obind {A B} (m : outcome A) (k : A → outcome B) : outcome B :=
  match m with
  | Ok a => k a
  | Throw e => Throw e
  end.

Global Instance outcome_ret : MRet outcome := @Ok.
Global Instance outcome_bind : MBind outcome := λ A B k m, obind m k.

Section mapM.
Context {A B : Type} (f : A → outcome B).

(** [Array.prototype.map] with a callback that may throw: elements are
    processed left to right and the first exception aborts the call. *)
Fixpoint mapM (l : list A) : outcome (list B) :=
  match l with
  | [] => Ok []
  | x :: l' =>
      y ← f x;
      ys ← mapM l';
      Ok (y :: ys)
  end.
End mapM.

Definition cannot_read (what prop : string) : exn :=
  TypeError ("Cannot read properties of " +:+ what +:+
             " (reading '" +:+ prop +:+ "')").

Definition cannot_set (what prop : string) : exn :=
  TypeError ("Cannot set properties of " +:+ what +:+
             " (setting '" +:+ prop +:+ "')").

(** [Array.prototype.join] on strings. *)
Fixpoint join (sep : string) (l : list string) : string :=
  match l with
  | [] => ""
  | [x] => x
  | x :: l' => x +:+ sep +:+ join sep l'
  end.

(** [String.prototype.repeat] for a non-negative count. *)
Fixpoint repeat_string (s : string) (n : nat) : string :=
  match n with
  | O => ""
  | S n' => s +:+ repeat_string s n'
  end.

(** ** The target AST ([vtl-ast]) *)

Module Vtl.

(** The values a [LiteralNode] wraps ([node.value] of an ESTree literal).
    [LNumber n] stands for the integer [n] up to [2^53], which is a value
    of the language and which [String(value)] prints as its decimal
    numeral.  Fractions, numbers from [1e21] on (printed with an exponent),
    regular expressions and big integers have no constructor here. *)
Inductive literal :=
| LString (s : string)
| LNumber (n : N)
| LBoolean (b : bool)
| LNull.

(** One constructor per exported node class, plus the two JavaScript values
    [null] and [undefined] that can stand in a child position (the walker
    passes [null] as the alternate of the IfDirectives of a [switch],
    [state.lastChild] starts as [null], and [statements[0]] of an empty
    array is [undefined]).

    [MethodReferenceNode] takes its parameters as a rest argument and both
    walkers call it with one array, so [parameters] is a list of arrays.

    [VariableReferenceNode] carries the symbol that the scope-aware walker
    passes as second constructor argument ([None] when the constructor is
    called with the identifier only).  [ArrayListNode] and [MapNode] are
    imported by the scope-aware walker from a revision of [vtl-ast] that is
    not part of the sources; only their constructor calls are. *)
Inductive node :=
| Null
| Undefined
| BinaryExpressionNode (operator : string) (left right : node)
| BreakDirectiveNode (scope : option string)
| ForEachDirectiveNode (iterator iterable body : node)
| IdentifierNode (name : string)
| IfDirectiveNode (test consequent alternate : node) (isElseIf : bool)
| IncludeDirectiveNode (files : list string)
| LiteralNode (value : literal)
| MethodReferenceNode (property : node) (parameters : list (list node))
| ParseDirectiveNode (file : string)
| PropertyReferenceNode (receiver property : node) (isReferenceRoot : bool)
| SetDirectiveNode (reference expression : node)
| StatementListNode (statements : list node)
| StopDirectiveNode (message : option string)
| UnaryExpressionNode (operator : string) (argument : node) (prefix : bool)
| VariableReferenceNode (identifier : node) (symbol : option string)
| ArrayListNode (elements : list node)
| MapNode (entries : list (node * node)).

(** [const operatorPrecedence = new Map([['+', 1], ['-', 1], ['*', 2], ['/', 2]])] *)
Definition operatorPrecedence : gmap string nat :=
  list_to_map [("+", 1); ("-", 1); ("*", 2); ("/", 2)].

(** The [precedence] field: set by the [BinaryExpressionNode] constructor to
    [operatorPrecedence.get(operator)], absent ([undefined]) on every other
    class. *)
Definition precedence (n : node) : option nat :=
  match n with
  | BinaryExpressionNode operator _ _ => operatorPrecedence !! operator
  | _ => None
  end.

(** Truthiness of a [precedence] value: [undefined] and [0] are falsy. *)
Definition truthy_number (p : option nat) : bool :=
  match p with
  | Some (S _) => true
  | _ => false
  end.

(** JavaScript's [a < b] on precedence values: [undefined] converts to
    [NaN] and every comparison with [NaN] is false. *)
Definition js_lt (a b : option nat) : bool :=
  match a, b with
  | Some x, Some y => bool_decide (x < y)
  | _, _ => false
  end.

Definition parenthesize (s : string) : string := "(" +:+ s +:+ ")".

(** ** Constructors that write to their arguments *)

(** [new IfDirectiveNode(test, consequent, alternate)]: an alternate that is
    itself an [IfDirectiveNode] gets [isElseIf = true]. *)
Definition new_IfDirectiveNode (test consequent alternate : node) : node :=
  let alternate' :=
    match alternate with
    | IfDirectiveNode t c a _ => IfDirectiveNode t c a true
    | _ => alternate
    end in
  IfDirectiveNode test consequent alternate' false.

(** [new PropertyReferenceNode(receiver, property)]: the new node is the
    reference root; a [PropertyReferenceNode] receiver loses the flag, and
    for a [MethodReferenceNode] receiver the flag is written on
    [receiver.property] (which throws when that is [null] or [undefined],
    and adds an unread field to an object of any other class). *)
Definition new_PropertyReferenceNode (receiver property : node) : outcome node :=
  match receiver with
  | PropertyReferenceNode r p _ =>
      Ok (PropertyReferenceNode (PropertyReferenceNode r p false) property true)
  | MethodReferenceNode mp params =>
      match mp with
      | Null => Throw (cannot_set "null" "isReferenceRoot")
      | Undefined => Throw (cannot_set "undefined" "isReferenceRoot")
      | PropertyReferenceNode r p _ =>
          Ok (PropertyReferenceNode
                (MethodReferenceNode (PropertyReferenceNode r p false) params)
                property true)
      | _ => Ok (PropertyReferenceNode receiver property true)
      end
  | _ => Ok (PropertyReferenceNode receiver property true)
  end.

(** [new MethodReferenceNode(property, ...parameters)] stores its arguments
    and writes nothing. *)
Definition new_MethodReferenceNode (property : node) (parameters : list (list node)) : node :=
  MethodReferenceNode property parameters.

(** ** [toString] *)

(** String conversion of a child inside a template literal: [null] and
    [undefined] print their names, an object is converted by its
    [toString] method. *)
Definition template (toString : node → outcome string) (v : node) : outcome string :=
  match v with
  | Null => Ok "null"
  | Undefined => Ok "undefined"
  | _ => toString v
  end.

(** String conversion of an array element by [join]: [null] and [undefined]
    become the empty string. *)
Definition element (toString : node → outcome string) (v : node) : outcome string :=
  match v with
  | Null | Undefined => Ok ""
  | _ => toString v
  end.

Definition literal_toString (v : literal) : string :=
  match v with
  | LString s => "'" +:+ s +:+ "'"
  | LNumber n => pretty n
  | LBoolean true => "true"
  | LBoolean false => "false"
  | LNull => "null"
  end.

Definition option_template (o : option string) : string :=
  default "" o.

(** Modelled from the spec: the [VariableReferenceNode] constructor that
    takes the symbol is missing from the sources.  "VariableReference - a
    name bound in the flat namespace; rendered with a sigil prefix": the
    name is the target name assigned by the scope table. *)
Definition symbol_reference (target : string) : string := "$" +:+ target.

(** Modelled from the spec: the [ArrayListNode] class is missing from the
    sources.  "An array literal [[1, x]] where [x] is a declared variable
    renders [[1, $x]]": the elements between brackets, separated by a comma
    and a space. *)
Definition array_text (elements : list string) : string :=
  "[" +:+ join ", " elements +:+ "]".

(** Modelled from the spec: the [MapNode] class is missing from the sources.
    "Map(ordered sequence of (key, value) pairs)", printed between braces
    as in the repository's test of object expressions. *)
Definition map_text (entries : list string) : string :=
  "{" +:+ join ", " entries +:+ "}".

(** Modelled from the spec: the [MapNode] class is missing from the sources.
    "keys always render as quoted literals regardless of source key
    syntax": an identifier key prints its name between single quotes, a
    literal key the text of its value. *)
Definition map_key (k : node) : string :=
  match k with
  | IdentifierNode name => "'" +:+ name +:+ "'"
  | LiteralNode (LString s) => "'" +:+ s +:+ "'"
  | LiteralNode v => "'" +:+ literal_toString v +:+ "'"
  | _ => "''"
  end.

(** The [toString] method of each class; the classes that define none
    ([ForEachDirectiveNode], [IfDirectiveNode], [StatementListNode]) inherit
    [Object.prototype.toString].  Calling the method on [null] or
    [undefined] raises a [TypeError]. *)
Fixpoint toString (n : node) : outcome string :=
  match n with
  | Null => Throw (cannot_read "null" "toString")
  | Undefined => Throw (cannot_read "undefined" "toString")
  | BinaryExpressionNode operator l r =>
      lhs ← toString l;
      rhs ← toString r;
      let lhs :=
        if truthy_number (precedence l) && js_lt (precedence l) (precedence n)
        then parenthesize lhs else lhs in
      let rhs :=
        if truthy_number (precedence r) && js_lt (precedence r) (precedence n)
        then parenthesize rhs else rhs in
      Ok (lhs +:+ " " +:+ operator +:+ " " +:+ rhs)
  | BreakDirectiveNode scope =>
      match scope with
      | Some s => if bool_decide (s = "") then Ok "#break" else Ok ("#break( " +:+ s +:+ " )")
      | None => Ok "#break"
      end
  | ForEachDirectiveNode _ _ _ => Ok "[object Object]"
  | IdentifierNode name => Ok name
  | IfDirectiveNode _ _ _ _ => Ok "[object Object]"
  | IncludeDirectiveNode files => Ok ("#include( " +:+ join ", " files +:+ " )")
  | LiteralNode value => Ok (literal_toString value)
  | MethodReferenceNode property parameters =>
      strs ← mapM (λ arr, es ← mapM (element toString) arr; Ok (join "," es))
                   parameters;
      let args := join ", " strs in
      p ← template toString property;
      Ok (p +:+ "(" +:+ args +:+ ")")
  | ParseDirectiveNode file => Ok ("#parse( " +:+ file +:+ " )")
  | PropertyReferenceNode receiver property isReferenceRoot =>
      let prefix := if isReferenceRoot then "$" else "" in
      r ← template toString receiver;
      p ← template toString property;
      Ok (prefix +:+ r +:+ "." +:+ p)
  | SetDirectiveNode reference expression =>
      r ← template toString reference;
      e ← template toString expression;
      Ok ("#set( " +:+ r +:+ " = " +:+ e +:+ " )")
  | StatementListNode _ => Ok "[object Object]"
  | StopDirectiveNode message =>
      match message with
      | Some s => if bool_decide (s = "") then Ok "#stop" else Ok ("#stop( " +:+ s +:+ " )")
      | None => Ok "#stop"
      end
  | UnaryExpressionNode operator argument _ =>
      let separator :=
        if bool_decide (operator = "!") || bool_decide (operator = "-") then "" else " " in
      a ← template toString argument;
      Ok (operator +:+ separator +:+ a)
  | VariableReferenceNode identifier symbol =>
      match symbol with
      | Some target => Ok (symbol_reference target)
      | None =>
          i ← template toString identifier;
          Ok ("$" +:+ i)
      end
  | ArrayListNode elements =>
      es ← mapM (template toString) elements;
      Ok (array_text es)
  | MapNode entries =>
      es ← mapM (λ kv, v ← template toString kv.2;
                       Ok (map_key kv.1 +:+ ": " +:+ v)) entries;
      Ok (map_text es)
  end.

(** ** The serialization context *)

(** [class SerializationContext]: [eol] is the host's [os.EOL], a parameter
    of the model. *)
Record SerializationContext := {
  eol : string;
  indentString : string;
  indentLevel : Z
}.

Definition new_SerializationContext (EOL : string) : SerializationContext :=
  {| eol := EOL; indentString := "  "; indentLevel := 0 |}.

(** [indentation()]: [this.indentString.repeat(this.indentLevel)], a
    [RangeError] for a negative level. *)
Definition indentation (context : SerializationContext) : outcome string :=
  if bool_decide (indentLevel context < 0)%Z
  then Throw (RangeError ("Invalid count value: " +:+ pretty (indentLevel context)))
  else Ok (repeat_string (indentString context) (Z.to_nat (indentLevel context))).

(** [indent(increaseBy = 1)] and [dedent(decreaseBy = 1)]. *)
Definition indent (increaseBy : Z) (context : SerializationContext) : SerializationContext :=
  {| eol := eol context;
     indentString := indentString context;
     indentLevel := indentLevel context + increaseBy |}.

Definition dedent (decreaseBy : Z) (context : SerializationContext) : SerializationContext :=
  {| eol := eol context;
     indentString := indentString context;
     indentLevel := indentLevel context - decreaseBy |}.

(** A method that reads and writes the context object and may throw: the
    context is returned on both exits, as the caller of a JavaScript method
    that threw still sees the writes made before the exception. *)
Definition Ser (A : Type) : Type :=
  SerializationContext → outcome A * SerializationContext.

Global Instance Ser_ret : MRet Ser := λ A a context, (Ok a, context).
Global Instance Ser_bind : MBind Ser := λ A B k m context,
  match m context with
  | (Ok a, context') => k a context'
  | (Throw e, context') => (Throw e, context')
  end.

Definition lift {A} (o : outcome A) : Ser A := λ context, (o, context).
Definition ask : Ser SerializationContext := λ context, (Ok context, context).
Definition modify (f : SerializationContext → SerializationContext) : Ser unit :=
  λ context, (Ok (), f context).

(** Is the value truthy ([if (this.alternate)])? *)
Definition truthy (v : node) : bool :=
  match v with
  | Null | Undefined => false
  | _ => true
  end.

(** Reading [v.isElseIf] as a condition: the flag of an [IfDirectiveNode],
    [undefined] on any other object. *)
Definition read_isElseIf (v : node) : bool :=
  match v with
  | IfDirectiveNode _ _ _ isElseIf => isElseIf
  | _ => false
  end.

Section statements.
Context (serialize : node → Ser string).

(** The loop of [StatementListNode.serialize]: [str] accumulates the
    output of the statements already serialized. *)
Fixpoint serialize_statements (statements : list node) (str : string) : Ser string :=
  match statements with
  | [] => mret str
  | statement :: rest =>
      s ← serialize statement;
      serialize_statements rest (str +:+ s)
  end.
End statements.

(** The line of a leaf directive:
    [`${context.indentation()}${this.toString()}${context.eol}`]. *)
Definition serialize_line (n : node) : Ser string :=
  context ← ask;
  i ← lift (indentation context);
  s ← lift (toString n);
  mret (i +:+ s +:+ eol context).

(** The [serialize(context)] method of each class.  [ArrayListNode] and
    [MapNode] are expressions and, like the expression classes of the
    sources, return [this.toString()]. *)
Fixpoint serialize (n : node) : Ser string :=
  match n with
  | Null => lift (Throw (cannot_read "null" "serialize"))
  | Undefined => lift (Throw (cannot_read "undefined" "serialize"))
  | BreakDirectiveNode _ | IncludeDirectiveNode _ | ParseDirectiveNode _
  | SetDirectiveNode _ _ | StopDirectiveNode _ =>
      serialize_line n
  | ForEachDirectiveNode iterator iterable body =>
      context ← ask;
      it ← lift (template toString iterator);
      itb ← lift (template toString iterable);
      let str := "#foreach( " +:+ it +:+ " in " +:+ itb +:+ " )" +:+ eol context in
      _ ← modify (indent 1);
      b ← serialize body;
      _ ← modify (dedent 1);
      mret (str +:+ b +:+ "#end")
  | IfDirectiveNode test consequent alternate isElseIf =>
      context ← ask;
      let directive := if isElseIf then "elseif" else "if" in
      t ← serialize test;
      let str := "#" +:+ directive +:+ "( " +:+ t +:+ " )" +:+ eol context in
      _ ← modify (indent 1);
      c ← serialize consequent;
      _ ← modify (dedent 1);
      let str := str +:+ c in
      if truthy alternate then
        if read_isElseIf alternate then
          a ← serialize alternate;
          mret (str +:+ a)
        else
          let str := str +:+ "#else" +:+ eol context in
          _ ← modify (indent 1);
          a ← serialize alternate;
          _ ← modify (dedent 1);
          mret (str +:+ a +:+ "#end" +:+ eol context)
      else
        mret (str +:+ "#end" +:+ eol context)
  | StatementListNode statements =>
      serialize_statements serialize statements ""
  | BinaryExpressionNode _ _ _ | IdentifierNode _ | LiteralNode _
  | MethodReferenceNode _ _ | PropertyReferenceNode _ _ _
  | UnaryExpressionNode _ _ _ | VariableReferenceNode _ _
  | ArrayListNode _ | MapNode _ =>
      lift (toString n)
  end.

End Vtl.

(** ** The scope table ([symbol-table]) *)

Module SymbolTable.

(** Modelled from the spec: the [symbol-table] module required by the walker
    is missing from the sources; the walker only shows its interface
    ([new SymbolTable()], [symbol], [lookup], [createNestedScope],
    [parent]).  The spec describes "a chain of scope frames, each a mapping
    from source identifier name to an assigned target name", frames that
    "form a parent-linked stack", and "a mapping from base name to
    next-suffix-integer, owned by the scope table root, consulted on every
    declare".  A table value is the current frame with the frames of its
    ancestors, innermost first, together with the root's counters; a symbol
    is its assigned target name. *)
Record t := {
  frame : gmap string string;
  ancestors : list (gmap string string);
  counters : gmap string nat
}.

(** Modelled from the spec: "first collision → suffix [_1], next → [_2],
    etc., per base name"; "the first declaration of a name never carries a
    suffix". *)
Definition target_name (name : string) (n : nat) : string :=
  match n with
  | O => name
  | S _ => name +:+ "_" +:+ pretty n
  end.

(** Modelled from the spec: [new SymbolTable()], an empty outermost frame. *)
Definition new : t :=
  {| frame := ∅; ancestors := []; counters := ∅ |}.

(** Modelled from the spec: [declare(name) -> targetName], "registers [name]
    in the current frame per the uniqueness rule" and "returns the assigned
    target name". *)
Definition symbol (name : string) (tbl : t) : string * t :=
  let n := default 0 (counters tbl !! name) in
  let target := target_name name n in
  (target,
   {| frame := <[name := target]> (frame tbl);
      ancestors := ancestors tbl;
      counters := <[name := S n]> (counters tbl) |}).

Fixpoint lookup_frames (name : string) (frames : list (gmap string string)) : option string :=
  match frames with
  | [] => None
  | f :: frames' =>
      match f !! name with
      | Some target => Some target
      | None => lookup_frames name frames'
      end
  end.

(** Modelled from the spec: "Looking up a name searches the current frame,
    then each ancestor frame in order, outward; the first match's assigned
    target name is used"; no match is [undefined]. *)
Definition lookup (name : string) (tbl : t) : option string :=
  lookup_frames name (frame tbl :: ancestors tbl).

(** Modelled from the spec: [pushScope()], entering a nested frame. *)
Definition createNestedScope (tbl : t) : t :=
  {| frame := ∅;
     ancestors := frame tbl :: ancestors tbl;
     counters := counters tbl |}.

(** Modelled from the spec: [popScope()], the [parent] link ([None] at the
    outermost frame).  The counters belong to the root and survive the
    frame. *)
Definition parent (tbl : t) : option t :=
  match ancestors tbl with
  | [] => None
  | f :: fs => Some {| frame := f; ancestors := fs; counters := counters tbl |}
  end.

End SymbolTable.

(** ** The source AST (ESTree, as produced by the parser)

    The types below hold the node kinds for which [walkers] has an entry.
    A node of any other kind (an empty statement, a template literal, a
    conditional or a logical expression, a pattern, ...) is walked by the
    base visitor of [acorn-walk], which is not part of these sources; such
    nodes have no constructor here, and every statement about a program is
    a statement about the programs made of the kinds below. *)

Module Js.

Record Position := { line : N; column : N }.

(** [node.loc]: absent when the parser runs without [locations]; [start]
    is tested by [reportError] as well. *)
Record SourceLocation := { start : option Position }.

Abbreviation location := (option SourceLocation).

(** [property.kind]: ['init'], ['get'] or ['set']. *)
Inductive property_kind := KindInit | KindGet | KindSet.

(** Expressions for which [walkers] has an entry. *)
Inductive expression :=
| ArrayExpression (loc : location) (elements : list (option expression))
| AssignmentExpression (loc : location) (operator : string) (left right : expression)
| BinaryExpression (loc : location) (operator : string) (left right : expression)
| CallExpression (loc : location) (callee : expression) (arguments : list expression)
| FunctionExpression (loc : location)
| Identifier (loc : location) (name : string)
| Literal (loc : location) (value : Vtl.literal)
| MemberExpression (loc : location) (object property : expression)
| ObjectExpression (loc : location) (properties : list property)
| ThisExpression (loc : location)
| UnaryExpression (loc : location) (operator : string) (prefix : bool) (argument : expression)
with property :=
| Property (loc : location) (computed : bool) (key : expression)
           (method : bool) (kind : property_kind) (value : expression).

Definition expression_loc (e : expression) : location :=
  match e with
  | ArrayExpression loc _ | AssignmentExpression loc _ _ _
  | BinaryExpression loc _ _ _ | CallExpression loc _ _
  | FunctionExpression loc | Identifier loc _ | Literal loc _
  | MemberExpression loc _ _ | ObjectExpression loc _
  | ThisExpression loc | UnaryExpression loc _ _ _ => loc
  end.

Inductive declarator :=
| VariableDeclarator (loc : location) (id : expression) (init : option expression).

(** The statement kinds that [walkers] maps to [unsupported(message)]. *)
Inductive unsupported_kind :=
| BreakStatement
| ContinueStatement
| DebuggerStatement
| DoWhileStatement
| ForInStatement
| ForStatement
| FunctionDeclaration
| LabeledStatement
| ReturnStatement
| ThrowStatement
| TryStatement
| WhileStatement
| WithStatement.

(** Statements for which [walkers] has an entry.  The [left] of a
    [ForOfStatement] is its declaration. *)
Inductive statement :=
| BlockStatement (loc : location) (body : list statement)
| ExpressionStatement (loc : location) (expression : expression)
| ForOfStatement (loc : location) (left : statement) (right : expression) (body : statement)
| IfStatement (loc : location) (test : expression) (consequent : statement)
              (alternate : option statement)
| SwitchStatement (loc : location) (discriminant : expression) (cases : list switch_case)
| VariableDeclaration (loc : location) (declarations : list declarator)
| Unsupported (loc : location) (kind : unsupported_kind)
with switch_case :=
| SwitchCase (loc : location) (test : option expression) (consequent : list statement).

Definition statement_loc (s : statement) : location :=
  match s with
  | BlockStatement loc _ | ExpressionStatement loc _
  | ForOfStatement loc _ _ _ | IfStatement loc _ _ _ | SwitchStatement loc _ _
  | VariableDeclaration loc _ | Unsupported loc _ => loc
  end.

Record program := Program { program_loc : location; program_body : list statement }.

End Js.

(** ** The tree walker ([js-walker]) *)

Module Walker.
Import Vtl Js.

Definition kDiscardName : string := "discard".

(** [env]: the optional second argument of [transpile]. *)
Record Env := { globals : option (list string) }.

(** The [state] object threaded through the walk. *)
Record state := {
  lastChild : node;
  scope : option SymbolTable.t;
  env : option Env
}.

Definition set_lastChild (v : node) (st : state) : state :=
  {| lastChild := v; scope := scope st; env := env st |}.

Definition set_scope (s : option SymbolTable.t) (st : state) : state :=
  {| lastChild := lastChild st; scope := s; env := env st |}.

(** The text that [reportError] puts in front of the message when
    [loc?.start] is present. *)
Definition location_prefix (loc : location) : string :=
  match loc with
  | Some {| start := Some p |} =>
      "Line " +:+ pretty (line p) +:+ ", column " +:+ pretty (column p + 1)%N +:+ ": "
  | _ => ""
  end.

Definition reportError {A} (message : string) (loc : location) : outcome A :=
  Throw (Error (location_prefix loc +:+ message)).

Definition unsupported_message (kind : unsupported_kind) : string :=
  match kind with
  | BreakStatement => "'break' statements are not supported"
  | ContinueStatement => "'continue' statements are not supported"
  | DebuggerStatement => "'debugger' statements are not supported"
  | DoWhileStatement => "'do...while' loops are not supported"
  | ForInStatement => "'for...in' loops are not supported"
  | ForStatement => "'for' loops are not supported"
  | FunctionDeclaration => "function declarations are not supported"
  | LabeledStatement => "labeled statements are not supported"
  | ReturnStatement => "'return' statements are not supported"
  | ThrowStatement => "'throw' statements are not supported"
  | TryStatement => "'try...catch' statements are not supported"
  | WhileStatement => "'while' loops are not supported"
  | WithStatement => "'with' statements are not supported"
  end.

(** [unsupported(message)] applied to a node. *)
Definition unsupported {A} (message : string) (loc : location) : outcome A :=
  reportError message loc.

(** [declVarRef(node, state)]: returns the reference and the state with the
    scope table updated by [state.scope.symbol]. *)
Definition declVarRef (n : node) (st : state) : outcome (node * state) :=
  match n with
  | IdentifierNode name =>
      match scope st with
      | None => Throw (cannot_read "null" "symbol")
      | Some tbl =>
          let '(symbol, tbl') := SymbolTable.symbol name tbl in
          Ok (VariableReferenceNode n (Some symbol), set_scope (Some tbl') st)
      end
  | _ => Ok (n, st)
  end.

(** [nonDeclVarRef(node, state, jsNode)], with [jsNode.loc] for [jsNode]. *)
Definition nonDeclVarRef (n : node) (st : state) (loc : location) : outcome node :=
  match n with
  | IdentifierNode name =>
      match scope st with
      | None => Throw (cannot_read "null" "lookup")
      | Some tbl =>
          match SymbolTable.lookup name tbl with
          | None => reportError ("variable '" +:+ name +:+ "' was not declared") loc
          | Some symbol => Ok (VariableReferenceNode n (Some symbol))
          end
      end
  | _ => Ok n
  end.

Definition enterScope (st : state) : state :=
  match scope st with
  | None => set_scope (Some SymbolTable.new) st
  | Some tbl => set_scope (Some (SymbolTable.createNestedScope tbl)) st
  end.

Definition exitScope (st : state) : state :=
  match scope st with
  | None => st
  | Some tbl => set_scope (SymbolTable.parent tbl) st
  end.

(** [state.scope.symbol(name)] with the result dropped. *)
Definition register (name : string) (st : state) : outcome state :=
  match scope st with
  | None => Throw (cannot_read "null" "symbol")
  | Some tbl => Ok (set_scope (Some (SymbolTable.symbol name tbl).2) st)
  end.

Fixpoint register_all (names : list string) (st : state) : outcome state :=
  match names with
  | [] => Ok st
  | globalVariable :: names' =>
      st' ← register globalVariable st;
      register_all names' st'
  end.

Definition registerEnvGlobals (st : state) : outcome state :=
  let globals := default [] (e ← env st; globals e) in
  st' ← register_all globals st;
  register kDiscardName st'.

(** Reading [v.left], [v.right] of the node built for an assignment. *)
Definition get_left (v : node) : node :=
  match v with
  | BinaryExpressionNode _ l _ => l
  | _ => Undefined
  end.

Definition get_right (v : node) : node :=
  match v with
  | BinaryExpressionNode _ _ r => r
  | _ => Undefined
  end.

(** [callee?.name ?? null] inside a template literal. *)
Definition callee_name (callee : expression) : option string :=
  match callee with
  | Identifier _ name => Some name
  | _ => None
  end.

Definition is_MemberExpression (e : expression) : bool :=
  match e with
  | MemberExpression _ _ _ => true
  | _ => false
  end.

Definition is_AssignmentExpression (e : expression) : bool :=
  match e with
  | AssignmentExpression _ _ _ _ => true
  | _ => false
  end.

Section expression_loops.
Context (visit : expression → state → outcome state).

(** The loop of [ArrayExpression]; [array] holds the values pushed so
    far, [loc] is [node.loc] of the array. *)
Fixpoint visit_elements (loc : location) (elements : list (option expression))
    (array : list node) (st : state) : outcome (list node * state) :=
  match elements with
  | [] => Ok (array, st)
  | None :: _ => reportError "array holes are not supported" loc
  | Some element :: rest =>
      st' ← visit element st;
      value ← nonDeclVarRef (lastChild st') st' (expression_loc element);
      visit_elements loc rest (array ++ [value]) st'
  end.

(** [node.arguments.map((a) => { visit(a, ...); return nonDeclVarRef(...) })] *)
Fixpoint visit_arguments (arguments : list expression) (st : state)
    : outcome (list node * state) :=
  match arguments with
  | [] => Ok ([], st)
  | a :: rest =>
      st' ← visit a st;
      value ← nonDeclVarRef (lastChild st') st' (expression_loc a);
      '(values, st'') ← visit_arguments rest st';
      Ok (value :: values, st'')
  end.
End expression_loops.

Section property_loop.
Context (visitProperty : property → list (node * node) → state →
                         outcome (list (node * node) * state)).

(** The loop of [ObjectExpression]; [map] holds the entries set so far
    (the keys are distinct objects, so no entry replaces another). *)
Fixpoint visit_properties (properties : list property) (map : list (node * node))
    (st : state) : outcome (list (node * node) * state) :=
  match properties with
  | [] => Ok (map, st)
  | p :: rest =>
      '(map', st') ← visitProperty p map st;
      visit_properties rest map' st'
  end.
End property_loop.

(** Reading [key.name] of the visited key inside a template literal. *)
Definition key_name (key : node) : string :=
  match key with
  | IdentifierNode name => name
  | _ => "undefined"
  end.

(** The expression entries of [walkers]; [visit(n, state, n.type)]
    dispatches on the constructor. *)
Fixpoint visitExpression (e : expression) (st : state) {struct e} : outcome state :=
  match e with
  | ArrayExpression loc elements =>
      '(array, st') ← visit_elements visitExpression loc elements [] st;
      Ok (set_lastChild (ArrayListNode array) st')
  | AssignmentExpression _ operator l r =>
      st1 ← visitExpression l st;
      let left := lastChild st1 in
      st2 ← visitExpression r st1;
      let right := lastChild st2 in
      Ok (set_lastChild (BinaryExpressionNode operator left right) st2)
  | BinaryExpression _ operator l r =>
      st1 ← visitExpression l st;
      left ← nonDeclVarRef (lastChild st1) st1 (expression_loc l);
      st2 ← visitExpression r st1;
      right ← nonDeclVarRef (lastChild st2) st2 (expression_loc r);
      Ok (set_lastChild (BinaryExpressionNode operator left right) st2)
  | CallExpression loc callee arguments =>
      st1 ← visitExpression callee st;
      if is_MemberExpression callee then
        let propertyRef := lastChild st1 in
        '(args, st2) ← visit_arguments visitExpression arguments st1;
        Ok (set_lastChild (new_MethodReferenceNode propertyRef [args]) st2)
      else
        let name := callee_name callee in
        if bool_decide (name = Some "Symbol")
        then reportError "symbol data types are not supported" loc
        else reportError ("non-method functions are not supported: " +:+
                          default "null" name) loc
  | FunctionExpression loc => unsupported "function expressions are not supported" loc
  | Identifier _ name => Ok (set_lastChild (IdentifierNode name) st)
  | Literal _ value => Ok (set_lastChild (LiteralNode value) st)
  | MemberExpression _ object property =>
      st1 ← visitExpression object st;
      let receiver := lastChild st1 in
      st2 ← visitExpression property st1;
      let property := lastChild st2 in
      ref ← new_PropertyReferenceNode receiver property;
      Ok (set_lastChild ref st2)
  | ObjectExpression _ properties =>
      '(map, st') ← visit_properties visitProperty properties [] st;
      Ok (set_lastChild (MapNode map) st')
  | ThisExpression loc => unsupported "'this' expressions are not supported" loc
  | UnaryExpression _ operator prefix argument =>
      st1 ← visitExpression argument st;
      let arg := lastChild st1 in
      Ok (set_lastChild (UnaryExpressionNode operator arg prefix) st1)
  end
with visitProperty (p : property) (map : list (node * node)) (st : state) {struct p}
    : outcome (list (node * node) * state) :=
  match p with
  | Property loc computed key method kind value =>
      if computed then reportError "computed properties are not supported" loc else
      st1 ← visitExpression key st;
      let key := lastChild st1 in
      let name := key_name key in
      if method then reportError ("methods ('" +:+ name +:+ "') are not supported") loc else
      match kind with
      | KindGet => reportError ("getters ('" +:+ name +:+ "') are not supported") loc
      | KindSet => reportError ("setters ('" +:+ name +:+ "') are not supported") loc
      | KindInit =>
          st2 ← visitExpression value st1;
          v ← nonDeclVarRef (lastChild st2) st2 (expression_loc value);
          Ok (map ++ [(key, v)], st2)
      end
  end.

(** [VariableDeclarator]: without an initializer [state.lastChild] keeps the
    [IdentifierNode] left by the visit of [node.id]. *)
Definition visitDeclarator (d : declarator) (st : state) : outcome state :=
  match d with
  | VariableDeclarator _ id init =>
      st1 ← visitExpression id st;
      let identifier := lastChild st1 in
      '(reference, st2) ← declVarRef identifier st1;
      match init with
      | Some e =>
          st3 ← visitExpression e st2;
          let expression := lastChild st3 in
          Ok (set_lastChild (SetDirectiveNode reference expression) st3)
      | None => Ok st2
      end
  end.

Section statement_loops.
Context {A : Type} (visit : A → state → outcome state).

(** [for (const stmt of body) { visit(stmt, ...); statements.push(state.lastChild); }] *)
Fixpoint visit_each (body : list A) (statements : list node) (st : state)
    : outcome (list node * state) :=
  match body with
  | [] => Ok (statements, st)
  | stmt :: rest =>
      st' ← visit stmt st;
      visit_each rest (statements ++ [lastChild st']) st'
  end.
End statement_loops.

Definition is_BreakStatement (s : statement) : bool :=
  match s with
  | Unsupported _ BreakStatement => true
  | _ => false
  end.

(** The three temporaries of a lowered [switch]. *)
Record switch_refs := {
  matched : node;
  fallthrough : node;
  discriminant : node
}.

Section switch_loops.
Context (visit : statement → state → outcome state).

(** The inner loop of [SwitchStatement] over [switchCase.consequent]:
    stops at the first [BreakStatement], clearing [canFallthrough]. *)
Fixpoint visit_consequent (consequent : list statement) (consequentStmts : list node)
    (st : state) : outcome (list node * bool * state) :=
  match consequent with
  | [] => Ok (consequentStmts, true, st)
  | stmt :: rest =>
      if is_BreakStatement stmt then Ok (consequentStmts, false, st)
      else
        st' ← visit stmt st;
        visit_consequent rest (consequentStmts ++ [lastChild st']) st'
  end.

(** One iteration of the outer loop of [SwitchStatement]: the
    [IfDirectiveNode] pushed for [switchCase]. *)
Definition visit_case (refs : switch_refs) (switchCase : switch_case) (st : state)
    : outcome (node * state) :=
  match switchCase with
  | SwitchCase _ test consequent =>
      '(caseTest, isDefault, st1) ←
        match test with
        | None => Ok (Null, true, st)
        | Some t =>
            st' ← visitExpression t st;
            Ok (BinaryExpressionNode "==" (discriminant refs) (lastChild st'), false, st')
        end;
      '(consequentStmts, canFallthrough, st2) ← visit_consequent consequent [] st1;
      let consequentStmts :=
        consequentStmts ++ [SetDirectiveNode (matched refs) (LiteralNode (LBoolean true))] in
      let consequentStmts :=
        consequentStmts ++ [SetDirectiveNode (fallthrough refs)
                                             (LiteralNode (LBoolean canFallthrough))] in
      let consequent := StatementListNode consequentStmts in
      if isDefault : bool then
        let test := BinaryExpressionNode "||" (fallthrough refs)
                      (UnaryExpressionNode "!" (matched refs) true) in
        Ok (new_IfDirectiveNode test consequent Null, st2)
      else
        let test := BinaryExpressionNode "||" (fallthrough refs) caseTest in
        Ok (new_IfDirectiveNode test consequent Null, st2)
  end.

(** The outer loop of [SwitchStatement] over [node.cases]. *)
Fixpoint visit_cases (refs : switch_refs) (cases : list switch_case)
    (statements : list node) (st : state) : outcome (list node * state) :=
  match cases with
  | [] => Ok (statements, st)
  | switchCase :: rest =>
      '(directive, st') ← visit_case refs switchCase st;
      visit_cases refs rest (statements ++ [directive]) st'
  end.
End switch_loops.

(** [state.lastChild.statements[0]] in [ForOfStatement]. *)
Definition first_statement (v : node) : outcome node :=
  match v with
  | StatementListNode (s :: _) => Ok s
  | StatementListNode [] => Ok Undefined
  | Null => Throw (cannot_read "null" "statements")
  | Undefined => Throw (cannot_read "undefined" "statements")
  | _ => Throw (cannot_read "undefined" "0")
  end.

(** The statement entries of [walkers]. *)
Fixpoint visitStatement (s : statement) (st : state) {struct s} : outcome state :=
  match s with
  | BlockStatement _ body =>
      let st0 := enterScope st in
      '(statements, st1) ← visit_each visitStatement body [] st0;
      let st2 := exitScope st1 in
      Ok (set_lastChild (StatementListNode statements) st2)
  | ExpressionStatement _ expression =>
      st1 ← visitExpression expression st;
      let expr := lastChild st1 in
      if is_AssignmentExpression expression then
        reference ← nonDeclVarRef (get_left expr) st1 (expression_loc expression);
        Ok (set_lastChild (SetDirectiveNode reference (get_right expr)) st1)
      else
        reference ← nonDeclVarRef (IdentifierNode kDiscardName) st1
                                  (expression_loc expression);
        Ok (set_lastChild (SetDirectiveNode reference expr) st1)
  | ForOfStatement _ l r body =>
      st1 ← visitStatement l st;
      iterator ← first_statement (lastChild st1);
      iteratorRef ← nonDeclVarRef iterator st1 (statement_loc l);
      st2 ← visitExpression r st1;
      let iterable := lastChild st2 in
      iterableRef ← nonDeclVarRef iterable st2 (expression_loc r);
      st3 ← visitStatement body st2;
      let body := lastChild st3 in
      Ok (set_lastChild (ForEachDirectiveNode iteratorRef iterableRef body) st3)
  | IfStatement _ test consequent alternate =>
      st1 ← visitExpression test st;
      let test := lastChild st1 in
      st2 ← visitStatement consequent st1;
      let consequent := lastChild st2 in
      match alternate with
      | None => Throw (cannot_read "null" "type")
      | Some a =>
          st3 ← visitStatement a st2;
          let alternate := lastChild st3 in
          Ok (set_lastChild (new_IfDirectiveNode test consequent alternate) st3)
      end
  | SwitchStatement _ d cases =>
      st1 ← visitExpression d st;
      '(matched, st2) ← declVarRef (IdentifierNode "matched") st1;
      '(fallthrough, st3) ← declVarRef (IdentifierNode "fallthrough") st2;
      '(discriminant, st4) ← declVarRef (IdentifierNode "discriminant") st3;
      let refs := {| matched := matched; fallthrough := fallthrough;
                     discriminant := discriminant |} in
      let statements :=
        [SetDirectiveNode matched (LiteralNode (LBoolean false));
         SetDirectiveNode fallthrough (LiteralNode (LBoolean false));
         SetDirectiveNode discriminant (lastChild st4)] in
      '(statements, st5) ← visit_cases visitStatement refs cases statements st4;
      Ok (set_lastChild (StatementListNode statements) st5)
  | VariableDeclaration _ declarations =>
      '(statements, st1) ← visit_each visitDeclarator declarations [] st;
      Ok (set_lastChild (StatementListNode statements) st1)
  | Unsupported loc kind => unsupported (unsupported_message kind) loc
  end.

(** [walkers.Program]. *)
Definition visitProgram (p : program) (st : state) : outcome state :=
  let st0 := enterScope st in
  st1 ← registerEnvGlobals st0;
  '(statements, st2) ← visit_each visitStatement (program_body p) [] st1;
  let st3 := exitScope st2 in
  Ok (set_lastChild (StatementListNode statements) st3).

(** [transpile(source, env)] after parsing: [ast] is the parser's result for
    [source] and [EOL] the host's line ending. *)
Definition transpile (EOL : string) (ast : program) (env : option Env) : outcome string :=
  let st := {| lastChild := Null; scope := None; env := env |} in
  let serializationContext := new_SerializationContext EOL in
  st' ← visitProgram ast st;
  (serialize (lastChild st') serializationContext).1.

End Walker.

(** * Specification vocabulary

    The predicates below say in the spec's words what the theorems compare
    the code with. *)

Section specification.
Import Vtl Js Walker.

(** The spec's precedence table: additive operators 1, multiplicative
    operators 2, nothing else. *)
Inductive in_table : string → nat → Prop :=
| table_plus : in_table "+" 1
| table_minus : in_table "-" 1
| table_times : in_table "*" 2
| table_divide : in_table "/" 2.

(** The spec's condition on an operand: it is itself a BinaryExpression
    whose precedence is strictly lower than its parent's. *)
Definition strictly_lower (parent : string) (operand : node) : Prop :=
  ∃ op l r p q,
    operand = BinaryExpressionNode op l r ∧ in_table op p ∧ in_table parent q ∧ p < q.

(** What the spec says of one rendered operand: [s'] is [s] between
    parentheses when the condition holds and [s] itself otherwise. *)
Definition rendered_operand (parent : string) (operand : node) (s s' : string) : Prop :=
  (strictly_lower parent operand ∧ s' = "(" +:+ s +:+ ")") ∨
  (¬ strictly_lower parent operand ∧ s' = s).

(** The failure contract's message: [Line <L>, column <C>: <reason>] with
    the 1-based line and the 0-based column plus one when the location is
    available, [<reason>] alone otherwise. *)
Definition error_message (loc : location) (reason : string) : string :=
  match loc with
  | Some {| start := Some p |} =>
      "Line " +:+ pretty (line p) +:+ ", column " +:+ pretty (column p + 1)%N +:+
      ": " +:+ reason
  | _ => reason
  end.

(** The line feed, the host line ending used in the examples. *)
Definition LF : string := "
".
(** The state of the walk apart from [lastChild]. *)
Definition same_scope (st st' : state) : Prop :=
  scope st' = scope st ∧ env st' = env st.

(** The number of links that print the sigil on the reference chain headed
    by a node; the chain runs through the receiver of a PropertyReference
    and the property chain of a MethodReference and stops at any other
    node. *)
Fixpoint sigils (n : node) : nat :=
  match n with
  | PropertyReferenceNode receiver _ isReferenceRoot =>
      (if isReferenceRoot then 1 else 0) + sigils receiver
  | MethodReferenceNode property _ => sigils property
  | _ => 0
  end.

(** The source expressions that become a property-access or method-call
    chain. *)
Definition is_chain (e : expression) : bool :=
  match e with
  | MemberExpression _ _ _ | CallExpression _ _ _ => true
  | _ => false
  end.

(** A chain whose reference root is its outermost PropertyReference: the
    node itself, or the property chain of the outermost MethodReference;
    no link below it carries the flag. *)
Definition rooted (v : node) : Prop :=
  (∃ r p, v = PropertyReferenceNode r p true ∧ sigils r = 0) ∨
  (∃ r p params,
      v = MethodReferenceNode (PropertyReferenceNode r p true) params ∧ sigils r = 0).

(** The counter of a base name in the table of a state. *)
Definition declared (name : string) (st : state) : nat :=
  match scope st with
  | Some tbl => default 0 (SymbolTable.counters tbl !! name)
  | None => 0
  end.



(** The reason reported for an unresolved identifier. *)
Definition not_declared (name : string) : string :=
  "variable '" +:+ name +:+ "' was not declared".

(** [reference := b] as a statement of the target. *)
Definition set_flag (reference : node) (b : bool) : node :=
  SetDirectiveNode reference (LiteralNode (LBoolean b)).

(** The statements of a case up to, but not including, its terminating
    break. *)
Fixpoint before_break (consequent : list statement) : list statement :=
  match consequent with
  | [] => []
  | s :: rest => if is_BreakStatement s then [] else s :: before_break rest
  end.

(** Does the case have a break statement? *)
Definition has_break (consequent : list statement) : bool :=
  existsb is_BreakStatement consequent.

(** The statements are visited in order, each in the state left by the one
    before, and produce the nodes in the list. *)
Inductive visited : list statement → state → list node → state → Prop :=
| visited_nil st : visited [] st [] st
| visited_cons s rest st st1 nodes st2 :
    visitStatement s st = Ok st1 →
    visited rest st1 nodes st2 →
    visited (s :: rest) st (lastChild st1 :: nodes) st2.

(** The body the spec prescribes for a case: its statements before the
    break, then [matched := true], then [fallthrough := true] if the case
    has no break and [false] if it has one. *)
Definition case_body (refs : switch_refs) (consequent : list statement) (body : list node)
    : node :=
  StatementListNode
    (body ++ [set_flag (matched refs) true;
              set_flag (fallthrough refs) (negb (has_break consequent))]).

(** The IfDirective the spec prescribes for one case: the test is
    [fallthrough || !matched] for the default case and
    [fallthrough || discriminant == value] for a case with a test, [value]
    being the visited test. *)
Inductive lowered_case (refs : switch_refs) : switch_case → state → node → state → Prop :=
| lowered_default loc consequent st body st' :
    visited (before_break consequent) st body st' →
    lowered_case refs (SwitchCase loc None consequent) st
      (IfDirectiveNode
         (BinaryExpressionNode "||" (fallthrough refs)
            (UnaryExpressionNode "!" (matched refs) true))
         (case_body refs consequent body) Null false)
      st'
| lowered_tested loc t consequent st st1 body st' :
    visitExpression t st = Ok st1 →
    visited (before_break consequent) st1 body st' →
    lowered_case refs (SwitchCase loc (Some t) consequent) st
      (IfDirectiveNode
         (BinaryExpressionNode "||" (fallthrough refs)
            (BinaryExpressionNode "==" (discriminant refs) (lastChild st1)))
         (case_body refs consequent body) Null false)
      st'.

(** One IfDirective per case, in source order. *)
Inductive lowered_cases (refs : switch_refs)
    : list switch_case → state → list node → state → Prop :=
| lowered_nil st : lowered_cases refs [] st [] st
| lowered_cons c rest st directive st1 directives st2 :
    lowered_case refs c st directive st1 →
    lowered_cases refs rest st1 directives st2 →
    lowered_cases refs (c :: rest) st (directive :: directives) st2.

(** The statement list the spec prescribes for a [switch]: the three
    temporaries are declared after the discriminant is visited, then
    [matched := false], [fallthrough := false],
    [discriminant := visited discriminant], then the IfDirectives. *)
Definition lowered_switch (d : expression) (cases : list switch_case) (st st' : state)
    : Prop :=
  ∃ st1 m st2 f st3 dd st4 directives st5,
    visitExpression d st = Ok st1 ∧
    declVarRef (IdentifierNode "matched") st1 = Ok (m, st2) ∧
    declVarRef (IdentifierNode "fallthrough") st2 = Ok (f, st3) ∧
    declVarRef (IdentifierNode "discriminant") st3 = Ok (dd, st4) ∧
    lowered_cases {| matched := m; fallthrough := f; discriminant := dd |}
                  cases st4 directives st5 ∧
    length directives = length cases ∧
    st' = set_lastChild
            (StatementListNode
               (set_flag m false :: set_flag f false ::
                SetDirectiveNode dd (lastChild st1) :: directives))
            st5.

(** The comparison of a case with a test uses the operator [op]. *)
Definition compares_with (op : string) (c : switch_case) (directive : node) : Prop :=
  match c with
  | SwitchCase _ (Some _) _ =>
      ∃ f dd value body,
        directive = IfDirectiveNode
                      (BinaryExpressionNode "||" f (BinaryExpressionNode op dd value))
                      body Null false
  | SwitchCase _ None _ => True
  end.

End specification.

(** * The earlier revision of the walker

    [js-walker] before the scope table was introduced: identifiers are
    wrapped in references without lookup, blocks open no scope, unsupported
    nodes are rejected by their type name, call arguments are not visited,
    and array expressions build nothing.

    Nodes are values here.  The entry of an array expression leaves
    [state.lastChild] as it found it, so the code can put one object in two
    places (receiver and property of [foo.bar[[]]], or a statement of the
    list and the receiver of the next one), and a flag that a constructor
    clears through one of them ([isReferenceRoot], [isElseIf]) is then
    cleared in the other as well.  This model clears it in the copy that
    the new node holds only, so the printed sigils and [#elseif] of such
    programs are outside it; the diagnostics and the shape of a lowered
    [switch], which are what is stated of this walker, read neither flag. *)

Module WalkerV1.
Import Vtl Js.

(** [const state = { lastChild: null }] *)
Record state := { lastChild : node }.

(** [node.type] of the kinds mapped to [unsupported]. *)
Definition kind_type (kind : unsupported_kind) : string :=
  match kind with
  | BreakStatement => "BreakStatement"
  | ContinueStatement => "ContinueStatement"
  | DebuggerStatement => "DebuggerStatement"
  | DoWhileStatement => "DoWhileStatement"
  | ForInStatement => "ForInStatement"
  | ForStatement => "ForStatement"
  | FunctionDeclaration => "FunctionDeclaration"
  | LabeledStatement => "LabeledStatement"
  | ReturnStatement => "ReturnStatement"
  | ThrowStatement => "ThrowStatement"
  | TryStatement => "TryStatement"
  | WhileStatement => "WhileStatement"
  | WithStatement => "WithStatement"
  end.

(** [function unsupported(node)], with [node.type] for [node]. *)
Definition unsupported {A} (type : string) : outcome A :=
  Throw (Error ("Node type '" +:+ type +:+ "' is not supported.")).

(** [new VariableReferenceNode(identifier)] *)
Definition new_VariableReferenceNode (identifier : node) : node :=
  VariableReferenceNode identifier None.

(** Reading [assignment.left], [assignment.right]. *)
Definition get_left (v : node) : node :=
  match v with
  | BinaryExpressionNode _ l _ => l
  | _ => Undefined
  end.

Definition get_right (v : node) : node :=
  match v with
  | BinaryExpressionNode _ _ r => r
  | _ => Undefined
  end.

(** The expression entries of [walkers]. *)
Fixpoint visitExpression (e : expression) (st : state) {struct e} : outcome state :=
  match e with
  | ArrayExpression _ _ => Ok st
  | AssignmentExpression _ operator l r =>
      st1 ← visitExpression l st;
      let left := lastChild st1 in
      st2 ← visitExpression r st1;
      let right := lastChild st2 in
      Ok {| lastChild := BinaryExpressionNode operator left right |}
  | BinaryExpression _ operator l r =>
      st1 ← visitExpression l st;
      let left := lastChild st1 in
      st2 ← visitExpression r st1;
      let right := lastChild st2 in
      Ok {| lastChild := BinaryExpressionNode operator left right |}
  | CallExpression _ callee _ =>
      st1 ← visitExpression callee st;
      if Walker.is_MemberExpression callee then
        let propertyRef := lastChild st1 in
        Ok {| lastChild := new_MethodReferenceNode propertyRef [[]] |}
      else Throw (Error "non-method functions are not supported")
  | FunctionExpression _ => unsupported "FunctionExpression"
  | Identifier _ name => Ok {| lastChild := IdentifierNode name |}
  | Literal _ value => Ok {| lastChild := LiteralNode value |}
  | MemberExpression _ object property =>
      st1 ← visitExpression object st;
      let receiver := lastChild st1 in
      st2 ← visitExpression property st1;
      let property := lastChild st2 in
      ref ← new_PropertyReferenceNode receiver property;
      Ok {| lastChild := ref |}
  | ObjectExpression _ _ => unsupported "ObjectExpression"
  | ThisExpression _ => unsupported "ThisExpression"
  | UnaryExpression _ operator prefix argument =>
      st1 ← visitExpression argument st;
      let arg := lastChild st1 in
      Ok {| lastChild := UnaryExpressionNode operator arg prefix |}
  end.

Definition visitDeclarator (d : declarator) (st : state) : outcome state :=
  match d with
  | VariableDeclarator _ id init =>
      st1 ← visitExpression id st;
      let identifier := lastChild st1 in
      let reference := new_VariableReferenceNode identifier in
      match init with
      | Some e =>
          st2 ← visitExpression e st1;
          let expression := lastChild st2 in
          Ok {| lastChild := SetDirectiveNode reference expression |}
      | None => Ok st1
      end
  end.

Section loops.
Context {A : Type} (visit : A → state → outcome state).

Fixpoint visit_each (body : list A) (statements : list node) (st : state)
    : outcome (list node * state) :=
  match body with
  | [] => Ok (statements, st)
  | stmt :: rest =>
      st' ← visit stmt st;
      visit_each rest (statements ++ [lastChild st']) st'
  end.
End loops.

Section switch_loops.
Context (visit : statement → state → outcome state).

Fixpoint visit_consequent (consequent : list statement) (consequentStmts : list node)
    (st : state) : outcome (list node * bool * state) :=
  match consequent with
  | [] => Ok (consequentStmts, true, st)
  | stmt :: rest =>
      if Walker.is_BreakStatement stmt then Ok (consequentStmts, false, st)
      else
        st' ← visit stmt st;
        visit_consequent rest (consequentStmts ++ [lastChild st']) st'
  end.

Definition visit_case (matched fallthrough discriminant : node) (switchCase : switch_case)
    (st : state) : outcome (node * state) :=
  match switchCase with
  | SwitchCase _ test consequent =>
      '(caseTest, isDefault, st1) ←
        match test with
        | None => Ok (Null, true, st)
        | Some t =>
            st' ← visitExpression t st;
            Ok (BinaryExpressionNode "===" discriminant (lastChild st'), false, st')
        end;
      '(consequentStmts, canFallthrough, st2) ← visit_consequent consequent [] st1;
      let consequentStmts :=
        consequentStmts ++ [SetDirectiveNode matched (LiteralNode (LBoolean true))] in
      let consequentStmts :=
        consequentStmts ++ [SetDirectiveNode fallthrough
                                             (LiteralNode (LBoolean canFallthrough))] in
      let consequent := StatementListNode consequentStmts in
      if isDefault : bool then
        let test := BinaryExpressionNode "||" fallthrough
                      (UnaryExpressionNode "!" matched true) in
        Ok (new_IfDirectiveNode test consequent Null, st2)
      else
        let test := BinaryExpressionNode "||" fallthrough caseTest in
        Ok (new_IfDirectiveNode test consequent Null, st2)
  end.

Fixpoint visit_cases (matched fallthrough discriminant : node) (cases : list switch_case)
    (statements : list node) (st : state) : outcome (list node * state) :=
  match cases with
  | [] => Ok (statements, st)
  | switchCase :: rest =>
      '(directive, st') ← visit_case matched fallthrough discriminant switchCase st;
      visit_cases matched fallthrough discriminant rest (statements ++ [directive]) st'
  end.
End switch_loops.

(** The statement entries of [walkers]. *)
Fixpoint visitStatement (s : statement) (st : state) {struct s} : outcome state :=
  match s with
  | BlockStatement _ body =>
      '(statements, st1) ← visit_each visitStatement body [] st;
      Ok {| lastChild := StatementListNode statements |}
  | ExpressionStatement _ expression =>
      st1 ← visitExpression expression st;
      if Walker.is_AssignmentExpression expression then
        let assignment := lastChild st1 in
        let reference := new_VariableReferenceNode (get_left assignment) in
        Ok {| lastChild := SetDirectiveNode reference (get_right assignment) |}
      else Ok st1
  | ForOfStatement _ l r body =>
      st1 ← visitStatement l st;
      iterator ← Walker.first_statement (lastChild st1);
      let iteratorRef := new_VariableReferenceNode iterator in
      st2 ← visitExpression r st1;
      let iterable := lastChild st2 in
      let iterableRef := new_VariableReferenceNode iterable in
      st3 ← visitStatement body st2;
      let body := lastChild st3 in
      Ok {| lastChild := ForEachDirectiveNode iteratorRef iterableRef body |}
  | IfStatement _ test consequent alternate =>
      st1 ← visitExpression test st;
      let test := lastChild st1 in
      st2 ← visitStatement consequent st1;
      let consequent := lastChild st2 in
      match alternate with
      | None => Throw (cannot_read "null" "type")
      | Some a =>
          st3 ← visitStatement a st2;
          let alternate := lastChild st3 in
          Ok {| lastChild := new_IfDirectiveNode test consequent alternate |}
      end
  | SwitchStatement _ d cases =>
      st1 ← visitExpression d st;
      let matched := new_VariableReferenceNode (IdentifierNode "matched") in
      let fallthrough := new_VariableReferenceNode (IdentifierNode "fallthrough") in
      let discriminant := new_VariableReferenceNode (IdentifierNode "discriminant") in
      let statements :=
        [SetDirectiveNode matched (LiteralNode (LBoolean false));
         SetDirectiveNode fallthrough (LiteralNode (LBoolean false));
         SetDirectiveNode discriminant (lastChild st1)] in
      '(statements, st2) ←
        visit_cases visitStatement matched fallthrough discriminant cases statements st1;
      Ok {| lastChild := StatementListNode statements |}
  | VariableDeclaration _ declarations =>
      '(statements, st1) ← visit_each visitDeclarator declarations [] st;
      Ok {| lastChild := StatementListNode statements |}
  | Unsupported _ kind => unsupported (kind_type kind)
  end.

(** [walkers.Program] *)
Definition visitProgram (p : program) (st : state) : outcome state :=
  '(statements, st1) ← visit_each visitStatement (program_body p) [] st;
  Ok {| lastChild := StatementListNode statements |}.

(** [transpile(source)] after parsing. *)
Definition transpile (EOL : string) (ast : program) : outcome string :=
  let st := {| lastChild := Null |} in
  let serializationContext := new_SerializationContext EOL in
  st' ← visitProgram ast st;
  (serialize (lastChild st') serializationContext).1.

End WalkerV1.

(** * Vocabulary of the further properties *)

Section further_vocabulary.
Import Vtl Js Walker.

Section all_nodes.
Context (P : node → Prop).

Fixpoint all_nodes (l : list node) : Prop :=
  match l with
  | [] => True
  | x :: l' => P x ∧ all_nodes l'
  end.

Fixpoint all_arrays (l : list (list node)) : Prop :=
  match l with
  | [] => True
  | x :: l' => all_nodes x ∧ all_arrays l'
  end.

Fixpoint all_values (l : list (node * node)) : Prop :=
  match l with
  | [] => True
  | kv :: l' => P kv.2 ∧ all_values l'
  end.
End all_nodes.

(** A child that is converted inside a template literal or by [join] may be
    [null] or [undefined]. *)
Definition or_absent (P : node → Prop) (v : node) : Prop :=
  match v with
  | Null | Undefined => True
  | _ => P v
  end.

(** The trees on which no method is called on [null] or [undefined]:
    operands of a binary expression, the body of a loop, the test and the
    consequent of a conditional and the members of a statement list are
    objects, and so on below them. *)
Fixpoint renderable (n : node) : Prop :=
  match n with
  | Null | Undefined => False
  | BinaryExpressionNode _ l r => renderable l ∧ renderable r
  | ForEachDirectiveNode iterator iterable body =>
      or_absent renderable iterator ∧ or_absent renderable iterable ∧ renderable body
  | IfDirectiveNode test consequent alternate _ =>
      renderable test ∧ renderable consequent ∧ or_absent renderable alternate
  | MethodReferenceNode property parameters =>
      or_absent renderable property ∧ all_arrays (or_absent renderable) parameters
  | PropertyReferenceNode receiver property _ =>
      or_absent renderable receiver ∧ or_absent renderable property
  | SetDirectiveNode reference expression =>
      or_absent renderable reference ∧ or_absent renderable expression
  | StatementListNode statements => all_nodes renderable statements
  | UnaryExpressionNode _ argument _ => or_absent renderable argument
  | VariableReferenceNode identifier _ => or_absent renderable identifier
  | ArrayListNode elements => all_nodes (or_absent renderable) elements
  | MapNode entries => all_values (or_absent renderable) entries
  | BreakDirectiveNode _ | IdentifierNode _ | IncludeDirectiveNode _ | LiteralNode _
  | ParseDirectiveNode _ | StopDirectiveNode _ => True
  end.

(** The statements of a case up to and including its first break. *)
Fixpoint through_break (consequent : list statement) : list statement :=
  match consequent with
  | [] => []
  | s :: rest => if is_BreakStatement s then [s] else s :: through_break rest
  end.

Definition without_dead_statements (c : switch_case) : switch_case :=
  match c with
  | SwitchCase loc test consequent => SwitchCase loc test (through_break consequent)
  end.

(** [x.p1.p2...pn] as the parser builds it. *)
Definition member_chain (loc : location) (x : string) (ps : list string) : expression :=
  fold_left (λ e p, MemberExpression loc e (Identifier loc p)) ps (Identifier loc x).

(** [.p1.p2...pn] *)
Definition dotted (ps : list string) : string :=
  fold_right (λ p s, "." +:+ p +:+ s) "" ps.

(** The names that [registerEnvGlobals] registers. *)
Definition registered (st : state) : list string :=
  default [] (e ← env st; globals e) ++ [kDiscardName].

(** What an exception of [serialize] leaves behind, for a subtree. *)
Definition throws_safely (n : node) : Prop :=
  ∀ context e context',
    (0 ≤ indentLevel context)%Z →
    serialize n context = (Throw e, context') →
    (∃ m, e = TypeError m) ∧
    (indentLevel context ≤ indentLevel context')%Z ∧
    eol context' = eol context ∧ indentString context' = indentString context.

(** From one state of the walk to a later one in the same block: the frames
    of the enclosing blocks are the same and the current frame has kept
    every name it had. *)
Definition scope_grows (st st' : state) : Prop :=
  env st' = env st ∧
  ∀ tbl, scope st = Some tbl →
    ∃ tbl', scope st' = Some tbl' ∧
      SymbolTable.ancestors tbl' = SymbolTable.ancestors tbl ∧
      ∀ name, is_Some (SymbolTable.frame tbl !! name) →
              is_Some (SymbolTable.frame tbl' !! name).

(** The two messages of the earlier walker. *)
Definition earlier_message (m : string) : Prop :=
  m = "non-method functions are not supported" ∨
  ∃ type, m = "Node type '" +:+ type +:+ "' is not supported.".

Definition only_earlier_messages {A} (o : outcome A) : Prop :=
  ∀ m, o = Throw (Error m) → earlier_message m.

End further_vocabulary.

(** * The walk as the spec describes it

    "One call walks the input AST exactly once, depth-first, left-to-right
    among sibling statements and among sub-expressions in their natural
    evaluation order."  The relations below say which node is visited
    inside which, in which state, and which names have been declared on the
    way; the theorems compare the walker with them. *)

Section walk_vocabulary.
Import Vtl Js Walker.

(** What a visit is applied to. *)
Inductive subject :=
| AProgram (p : program)
| AStatement (s : statement)
| ADeclarator (d : declarator)
| AnExpression (e : expression).

(** [visit(node, state, type)] on each kind of subject. *)
Definition walk (subj : subject) (st : state) : outcome state :=
  match subj with
  | AProgram p => visitProgram p st
  | AStatement s => visitStatement s st
  | ADeclarator d => visitDeclarator d st
  | AnExpression e => visitExpression e st
  end.

(** The state from which [transpile] starts the walk. *)
Definition initial (env : option Env) : state :=
  {| lastChild := Null; scope := None; env := env |}.

(** The number of times a base name occurs in a list of declared names. *)
Definition occurrences (name : string) (names : list string) : nat :=
  length (filter (λ x, x = name) names).


(** The base name that a declarator declares: the bound name. *)
Definition declarator_names (d : declarator) : list string :=
  match d with
  | VariableDeclarator _ (Identifier _ name) _ => [name]
  | _ => []
  end.

(** The three temporaries of a lowered [switch], "declared once at the
    top". *)
Definition temporaries : list string := ["matched"; "fallthrough"; "discriminant"].

Section declares_loops.
Context (declares : statement → list string).

Fixpoint declares_each (body : list statement) : list string :=
  match body with
  | [] => []
  | s :: rest => declares s ++ declares_each rest
  end.

Fixpoint declares_consequent (consequent : list statement) : list string :=
  match consequent with
  | [] => []
  | s :: rest =>
      if is_BreakStatement s then [] else declares s ++ declares_consequent rest
  end.

Definition declares_case (c : switch_case) : list string :=
  match c with
  | SwitchCase _ _ consequent => declares_consequent consequent
  end.

Fixpoint declares_cases (cases : list switch_case) : list string :=
  match cases with
  | [] => []
  | c :: rest => declares_case c ++ declares_cases rest
  end.
End declares_loops.

(** The base names that the walk of a statement declares, in the order of
    the declarations: the bound names of its declarators, the temporaries
    of its [switch] statements, and nothing for the statements that follow
    the break of a case. *)
Fixpoint declares (s : statement) : list string :=
  match s with
  | BlockStatement _ body => declares_each declares body
  | ExpressionStatement _ _ => []
  | ForOfStatement _ l _ body => declares l ++ declares body
  | IfStatement _ _ consequent alternate =>
      declares consequent ++
      match alternate with
      | Some a => declares a
      | None => []
      end
  | SwitchStatement _ _ cases => temporaries ++ declares_cases declares cases
  | VariableDeclaration _ declarations => declarations ≫= declarator_names
  | Unsupported _ _ => []
  end.

(** The siblings before a node have been visited, and resolved where the
    walker resolves them, without failure: the walk went from [st] to
    [st1]. *)
Definition statements_visited (pre : list statement) (st st1 : state) : Prop :=
  ∃ acc nodes, visit_each visitStatement pre acc st = Ok (nodes, st1).

Definition declarators_visited (pre : list declarator) (st st1 : state) : Prop :=
  ∃ acc nodes, visit_each visitDeclarator pre acc st = Ok (nodes, st1).

Definition elements_visited (pre : list (option expression)) (st st1 : state) : Prop :=
  ∃ loc acc values, visit_elements visitExpression loc pre acc st = Ok (values, st1).

Definition arguments_visited (pre : list expression) (st st1 : state) : Prop :=
  ∃ values, visit_arguments visitExpression pre st = Ok (values, st1).

Definition properties_visited (pre : list property) (st st1 : state) : Prop :=
  ∃ map entries, visit_properties visitProperty pre map st = Ok (entries, st1).

Definition cases_visited (pre : list switch_case) (st st1 : state) : Prop :=
  ∃ refs acc nodes, visit_cases visitStatement refs pre acc st = Ok (nodes, st1).

(** The statements of a case visited so far, none of them a break. *)
Definition consequent_visited (pre : list statement) (st st1 : state) : Prop :=
  ∃ acc nodes, visit_consequent visitStatement pre acc st = Ok (nodes, true, st1).

(** The test of a case has been visited (a default case has none). *)
Definition test_visited (test : option expression) (st st1 : state) : Prop :=
  match test with
  | Some t => visitExpression t st = Ok st1
  | None => st1 = st
  end.

(** The discriminant of a [switch] has been visited and its three
    temporaries declared. *)
Definition switch_entered (d : expression) (st st4 : state) : Prop :=
  ∃ st1 m st2 f st3 dd,
    visitExpression d st = Ok st1 ∧
    declVarRef (IdentifierNode "matched") st1 = Ok (m, st2) ∧
    declVarRef (IdentifierNode "fallthrough") st2 = Ok (f, st3) ∧
    declVarRef (IdentifierNode "discriminant") st3 = Ok (dd, st4).

(** [subvisit parent st names child st1]: the walk of [parent] from the
    state [st] visits [child], one of its children, from the state [st1],
    after the children before it; [names] are the base names declared in
    between. *)
Inductive subvisit : subject → state → list string → subject → state → Prop :=
| in_program loc pre s post st st0 st1 :
    registerEnvGlobals (enterScope st) = Ok st0 →
    statements_visited pre st0 st1 →
    subvisit (AProgram (Program loc (pre ++ s :: post))) st
             (registered st ++ declares_each declares pre) (AStatement s) st1
| in_block loc pre s post st st1 :
    statements_visited pre (enterScope st) st1 →
    subvisit (AStatement (BlockStatement loc (pre ++ s :: post))) st
             (declares_each declares pre) (AStatement s) st1
| in_expression_statement loc e st :
    subvisit (AStatement (ExpressionStatement loc e)) st [] (AnExpression e) st
| in_for_of_left loc l r body st :
    subvisit (AStatement (ForOfStatement loc l r body)) st [] (AStatement l) st
| in_for_of_right loc l r body st st1 iterator iteratorRef :
    visitStatement l st = Ok st1 →
    first_statement (lastChild st1) = Ok iterator →
    nonDeclVarRef iterator st1 (statement_loc l) = Ok iteratorRef →
    subvisit (AStatement (ForOfStatement loc l r body)) st (declares l)
             (AnExpression r) st1
| in_for_of_body loc l r body st st1 iterator iteratorRef st2 iterableRef :
    visitStatement l st = Ok st1 →
    first_statement (lastChild st1) = Ok iterator →
    nonDeclVarRef iterator st1 (statement_loc l) = Ok iteratorRef →
    visitExpression r st1 = Ok st2 →
    nonDeclVarRef (lastChild st2) st2 (expression_loc r) = Ok iterableRef →
    subvisit (AStatement (ForOfStatement loc l r body)) st (declares l)
             (AStatement body) st2
| in_if_test loc test consequent alternate st :
    subvisit (AStatement (IfStatement loc test consequent alternate)) st []
             (AnExpression test) st
| in_if_consequent loc test consequent alternate st st1 :
    visitExpression test st = Ok st1 →
    subvisit (AStatement (IfStatement loc test consequent alternate)) st []
             (AStatement consequent) st1
| in_if_alternate loc test consequent a st st1 st2 :
    visitExpression test st = Ok st1 →
    visitStatement consequent st1 = Ok st2 →
    subvisit (AStatement (IfStatement loc test consequent (Some a))) st
             (declares consequent) (AStatement a) st2
| in_switch_discriminant loc d cases st :
    subvisit (AStatement (SwitchStatement loc d cases)) st [] (AnExpression d) st
| in_case_test loc d pre cloc t consequent post st st4 st5 :
    switch_entered d st st4 →
    cases_visited pre st4 st5 →
    subvisit (AStatement (SwitchStatement loc d
                            (pre ++ SwitchCase cloc (Some t) consequent :: post))) st
             (temporaries ++ declares_cases declares pre) (AnExpression t) st5
| in_case_consequent loc d pre cloc test cpre s cpost post st st4 st5 st6 st7 :
    switch_entered d st st4 →
    cases_visited pre st4 st5 →
    test_visited test st5 st6 →
    consequent_visited cpre st6 st7 →
    is_BreakStatement s = false →
    subvisit (AStatement (SwitchStatement loc d
                            (pre ++ SwitchCase cloc test (cpre ++ s :: cpost) :: post))) st
             (temporaries ++ declares_cases declares pre ++ declares_each declares cpre)
             (AStatement s) st7
| in_declaration loc pre d post st st1 :
    declarators_visited pre st st1 →
    subvisit (AStatement (VariableDeclaration loc (pre ++ d :: post))) st
             (pre ≫= declarator_names) (ADeclarator d) st1
| in_declarator_id loc id init st :
    subvisit (ADeclarator (VariableDeclarator loc id init)) st [] (AnExpression id) st
| in_declarator_init loc id e st st1 reference st2 :
    visitExpression id st = Ok st1 →
    declVarRef (lastChild st1) st1 = Ok (reference, st2) →
    subvisit (ADeclarator (VariableDeclarator loc id (Some e))) st
             (declarator_names (VariableDeclarator loc id (Some e))) (AnExpression e) st2
| in_array_element loc pre e post st st1 :
    elements_visited pre st st1 →
    subvisit (AnExpression (ArrayExpression loc (pre ++ Some e :: post))) st []
             (AnExpression e) st1
| in_assignment_left loc op l r st :
    subvisit (AnExpression (AssignmentExpression loc op l r)) st [] (AnExpression l) st
| in_assignment_right loc op l r st st1 :
    visitExpression l st = Ok st1 →
    subvisit (AnExpression (AssignmentExpression loc op l r)) st [] (AnExpression r) st1
| in_binary_left loc op l r st :
    subvisit (AnExpression (BinaryExpression loc op l r)) st [] (AnExpression l) st
| in_binary_right loc op l r st st1 left :
    visitExpression l st = Ok st1 →
    nonDeclVarRef (lastChild st1) st1 (expression_loc l) = Ok left →
    subvisit (AnExpression (BinaryExpression loc op l r)) st [] (AnExpression r) st1
| in_call_callee loc callee arguments st :
    subvisit (AnExpression (CallExpression loc callee arguments)) st []
             (AnExpression callee) st
| in_call_argument loc callee pre a post st st1 st2 :
    visitExpression callee st = Ok st1 →
    is_MemberExpression callee = true →
    arguments_visited pre st1 st2 →
    subvisit (AnExpression (CallExpression loc callee (pre ++ a :: post))) st []
             (AnExpression a) st2
| in_member_object loc object property st :
    subvisit (AnExpression (MemberExpression loc object property)) st []
             (AnExpression object) st
| in_member_property loc object property st st1 :
    visitExpression object st = Ok st1 →
    subvisit (AnExpression (MemberExpression loc object property)) st []
             (AnExpression property) st1
| in_property_key loc pre ploc key method kind value post st st1 :
    properties_visited pre st st1 →
    subvisit (AnExpression
                (ObjectExpression loc
                   (pre ++ Property ploc false key method kind value :: post))) st []
             (AnExpression key) st1
| in_property_value loc pre ploc key value post st st1 st2 :
    properties_visited pre st st1 →
    visitExpression key st1 = Ok st2 →
    subvisit (AnExpression
                (ObjectExpression loc
                   (pre ++ Property ploc false key false KindInit value :: post))) st []
             (AnExpression value) st2
| in_unary_argument loc op prefix argument st :
    subvisit (AnExpression (UnaryExpression loc op prefix argument)) st []
             (AnExpression argument) st.

(** [reaches root st names subj st1]: the walk of [root] from [st] comes
    to visit [subj] from [st1], at any depth; [names] are the base names
    declared since the walk of [root] began. *)
Inductive reaches : subject → state → list string → subject → state → Prop :=
| reaches_here subj st : reaches subj st [] subj st
| reaches_inside root st names child st1 names' subj st2 :
    subvisit root st names child st1 →
    reaches child st1 names' subj st2 →
    reaches root st (names ++ names') subj st2.

(** [lookup_site subj st name loc st1]: in the walk of [subj] from [st], the
    bare identifier [name] stands in a position that is resolved through
    scope lookup, in the scope of the state [st1]; [loc] is the location of
    the node given to the lookup: the identifier itself for an operand of a
    binary expression, a call argument, an array element, an object
    property value and the iterable of a for-of loop, the loop's
    declaration for its iterator, and the assignment expression for an
    assignment target. *)
Inductive lookup_site : subject → state → string → location → state → Prop :=
| site_element loc pre idloc name post st st1 :
    elements_visited pre st st1 →
    lookup_site (AnExpression
                   (ArrayExpression loc (pre ++ Some (Identifier idloc name) :: post)))
                st name idloc st1
| site_left_operand loc op idloc name r st :
    lookup_site (AnExpression (BinaryExpression loc op (Identifier idloc name) r))
                st name idloc st
| site_right_operand loc op l idloc name st st1 left :
    visitExpression l st = Ok st1 →
    nonDeclVarRef (lastChild st1) st1 (expression_loc l) = Ok left →
    lookup_site (AnExpression (BinaryExpression loc op l (Identifier idloc name)))
                st name idloc st1
| site_argument loc callee pre idloc name post st st1 st2 :
    visitExpression callee st = Ok st1 →
    is_MemberExpression callee = true →
    arguments_visited pre st1 st2 →
    lookup_site (AnExpression
                   (CallExpression loc callee (pre ++ Identifier idloc name :: post)))
                st name idloc st2
| site_property_value loc pre ploc key idloc name post st st1 st2 :
    properties_visited pre st st1 →
    visitExpression key st1 = Ok st2 →
    lookup_site (AnExpression
                   (ObjectExpression loc
                      (pre ++ Property ploc false key false KindInit
                                       (Identifier idloc name) :: post)))
                st name idloc st2
| site_iterator loc l r body name st st1 :
    visitStatement l st = Ok st1 →
    first_statement (lastChild st1) = Ok (IdentifierNode name) →
    lookup_site (AStatement (ForOfStatement loc l r body)) st name (statement_loc l) st1
| site_iterable loc l idloc name body st st1 iterator iteratorRef :
    visitStatement l st = Ok st1 →
    first_statement (lastChild st1) = Ok iterator →
    nonDeclVarRef iterator st1 (statement_loc l) = Ok iteratorRef →
    lookup_site (AStatement (ForOfStatement loc l (Identifier idloc name) body))
                st name idloc st1
| site_assignment_target loc aloc op idloc name r st st1 :
    visitExpression r (set_lastChild (IdentifierNode name) st) = Ok st1 →
    lookup_site (AStatement
                   (ExpressionStatement loc
                      (AssignmentExpression aloc op (Identifier idloc name) r)))
                st name aloc st1.

(** [rejected subj st loc reason]: the walk of [subj] from [st] comes upon
    an unsupported construct or an unresolved identifier in [subj] itself;
    [loc] is the location of the offending node and [reason] the reason
    reported. *)
Inductive rejected : subject → state → location → string → Prop :=
| rejected_statement loc kind st :
    rejected (AStatement (Unsupported loc kind)) st loc (unsupported_message kind)
| rejected_function loc st :
    rejected (AnExpression (FunctionExpression loc)) st loc
             "function expressions are not supported"
| rejected_this loc st :
    rejected (AnExpression (ThisExpression loc)) st loc
             "'this' expressions are not supported"
| rejected_hole loc pre post st st1 :
    elements_visited pre st st1 →
    rejected (AnExpression (ArrayExpression loc (pre ++ None :: post))) st loc
             "array holes are not supported"
| rejected_symbol loc idloc arguments st :
    rejected (AnExpression (CallExpression loc (Identifier idloc "Symbol") arguments))
             st loc "symbol data types are not supported"
| rejected_call loc callee arguments st st1 :
    visitExpression callee st = Ok st1 →
    is_MemberExpression callee = false →
    callee_name callee ≠ Some "Symbol" →
    rejected (AnExpression (CallExpression loc callee arguments)) st loc
             ("non-method functions are not supported: " +:+
              default "null" (callee_name callee))
| rejected_computed loc pre ploc key method kind value post st st1 :
    properties_visited pre st st1 →
    rejected (AnExpression
                (ObjectExpression loc
                   (pre ++ Property ploc true key method kind value :: post)))
             st ploc "computed properties are not supported"
| rejected_method loc pre ploc key kind value post st st1 st2 :
    properties_visited pre st st1 →
    visitExpression key st1 = Ok st2 →
    rejected (AnExpression
                (ObjectExpression loc
                   (pre ++ Property ploc false key true kind value :: post)))
             st ploc ("methods ('" +:+ key_name (lastChild st2) +:+ "') are not supported")
| rejected_getter loc pre ploc key value post st st1 st2 :
    properties_visited pre st st1 →
    visitExpression key st1 = Ok st2 →
    rejected (AnExpression
                (ObjectExpression loc
                   (pre ++ Property ploc false key false KindGet value :: post)))
             st ploc ("getters ('" +:+ key_name (lastChild st2) +:+ "') are not supported")
| rejected_setter loc pre ploc key value post st st1 st2 :
    properties_visited pre st st1 →
    visitExpression key st1 = Ok st2 →
    rejected (AnExpression
                (ObjectExpression loc
                   (pre ++ Property ploc false key false KindSet value :: post)))
             st ploc ("setters ('" +:+ key_name (lastChild st2) +:+ "') are not supported")
| rejected_identifier subj st name loc st1 tbl :
    lookup_site subj st name loc st1 →
    scope st1 = Some tbl →
    SymbolTable.lookup name tbl = None →
    rejected subj st loc (not_declared name)
| rejected_discard loc e st st1 tbl :
    visitExpression e st = Ok st1 →
    is_AssignmentExpression e = false →
    scope st1 = Some tbl →
    SymbolTable.lookup kDiscardName tbl = None →
    rejected (AStatement (ExpressionStatement loc e)) st (expression_loc e)
             (not_declared kDiscardName).


(** An [Error] explained by the failure contract: an offending node that
    the walk reaches, and the message made of its location and reason. *)
Definition explained (subj : subject) (st : state) (m : string) : Prop :=
  ∃ names subj1 st1 loc reason,
    reaches subj st names subj1 st1 ∧ rejected subj1 st1 loc reason ∧
    m = error_message loc reason.


(** The sigil-free text of a reference chain: the links on the receiver
    spine are printed without prefix, whatever their flags; properties and
    arguments are printed by [toString]. *)
Fixpoint unprefixed (v : node) : outcome string :=
  match v with
  | PropertyReferenceNode receiver property _ =>
      r ← template unprefixed receiver;
      p ← template toString property;
      Ok (r +:+ "." +:+ p)
  | MethodReferenceNode property parameters =>
      strs ← mapM (λ arr, es ← mapM (element toString) arr; Ok (join "," es))
                   parameters;
      p ← template unprefixed property;
      Ok (p +:+ "(" +:+ join ", " strs +:+ ")")
  | _ => toString v
  end.

End walk_vocabulary.

(** * Properties of the target AST *)

Section binary_expression.
Import Vtl.

Lemma operatorPrecedence_lookup op p :
  operatorPrecedence !! op = Some p ↔ in_table op p.
Proof.
  unfold operatorPrecedence. cbn [list_to_map foldr uncurry fst snd].
  rewrite !lookup_insert, lookup_empty.
  split.
  - repeat case_decide; intros; simplify_eq; constructor.
  - destruct 1; repeat case_decide; try done.
Qed.

Lemma in_table_positive op p : in_table op p → 0 < p.
Proof. destruct 1; lia. Qed.

Lemma in_table_functional op p q : in_table op p → in_table op q → p = q.
Proof. destruct 1; inversion 1; done. Qed.

(** The test of [toString],
    [operand.precedence && operand.precedence < this.precedence], decides
    the spec's condition. *)
Lemma precedence_test parent l r operand :
  truthy_number (precedence operand) &&
    js_lt (precedence operand) (precedence (BinaryExpressionNode parent l r)) = true
  ↔ strictly_lower parent operand.
Proof.
  split.
  - intros [Ht Hlt]%andb_true_iff.
    destruct operand; try done. cbn [precedence] in *.
    destruct (operatorPrecedence !! operator) as [p|] eqn:Hp; [|done].
    destruct (operatorPrecedence !! parent) as [q|] eqn:Hq; [|done].
    apply operatorPrecedence_lookup in Hp, Hq.
    cbn in Hlt. apply bool_decide_eq_true in Hlt.
    by exists operator, operand1, operand2, p, q.
  - intros (op & a & b & p & q & -> & Hp & Hq & Hlt).
    pose proof (in_table_positive _ _ Hp).
    apply operatorPrecedence_lookup in Hp, Hq.
    cbn [precedence]. rewrite Hp, Hq. cbn.
    destruct p; [lia|]. by rewrite bool_decide_eq_true_2.
Qed.

Lemma rendered_operand_intro parent l r operand s :
  rendered_operand parent operand s
    (if truthy_number (precedence operand) &&
          js_lt (precedence operand) (precedence (BinaryExpressionNode parent l r))
     then parenthesize s else s).
Proof.
  pose proof (precedence_test parent l r operand) as Hiff.
  destruct (truthy_number _ && _).
  - left. split; [by apply Hiff | done].
  - right. split; [|done]. intros H%Hiff. done.
Qed.

(** C6. Rendering a BinaryExpression whose operands render as [lhs] and
    [rhs] gives [lhs' operator rhs'], where each operand is wrapped in
    parentheses if and only if it is itself a BinaryExpression whose
    precedence (+ and - are 1, * and / are 2) is strictly lower than the
    parent's.  In particular an operand of equal precedence is not
    wrapped, and nothing is wrapped when the operand's or the parent's
    operator is outside the table. *)
Theorem binary_operand_parenthesized_iff_strictly_lower operator l r lhs rhs :
  toString l = Ok lhs →
  toString r = Ok rhs →
  (∃ lhs' rhs',
      toString (BinaryExpressionNode operator l r)
        = Ok (lhs' +:+ " " +:+ operator +:+ " " +:+ rhs') ∧
      rendered_operand operator l lhs lhs' ∧
      rendered_operand operator r rhs rhs') ∧
  (∀ operand op a b p,
      operand = BinaryExpressionNode op a b →
      in_table op p → in_table operator p →
      ¬ strictly_lower operator operand) ∧
  (∀ operand op a b,
      operand = BinaryExpressionNode op a b →
      (∀ p, ¬ in_table op p) ∨ (∀ q, ¬ in_table operator q) →
      ¬ strictly_lower operator operand).
Proof.
  intros Hl Hr. split; [|split].
  - eexists _, _. split; [|split].
    + cbn [toString]. rewrite Hl, Hr. cbn. reflexivity.
    + apply (rendered_operand_intro operator l r).
    + apply (rendered_operand_intro operator l r).
  - intros operand op a b p -> Hop Hparent (op' & a' & b' & p' & q' & Heq & Hp' & Hq' & Hlt).
    simplify_eq.
    pose proof (in_table_functional _ _ _ Hop Hp').
    pose proof (in_table_functional _ _ _ Hparent Hq'). lia.
  - intros operand op a b -> Hout (op' & a' & b' & p' & q' & Heq & Hp' & Hq' & Hlt).
    simplify_eq. destruct Hout as [H|H]; by eapply H.
Qed.

Lemma binary_operand_parenthesized_witness :
  ∃ lhs' rhs',
    toString (BinaryExpressionNode "*"
                (BinaryExpressionNode "+" (LiteralNode (LNumber 1)) (LiteralNode (LNumber 2)))
                (LiteralNode (LNumber 3)))
      = Ok (lhs' +:+ " " +:+ "*" +:+ " " +:+ rhs') ∧
    rendered_operand "*"
      (BinaryExpressionNode "+" (LiteralNode (LNumber 1)) (LiteralNode (LNumber 2)))
      "1 + 2" lhs' ∧
    rendered_operand "*" (LiteralNode (LNumber 3)) "3" rhs'.
Proof.
  apply (binary_operand_parenthesized_iff_strictly_lower "*"
           (BinaryExpressionNode "+" (LiteralNode (LNumber 1)) (LiteralNode (LNumber 2)))
           (LiteralNode (LNumber 3)) "1 + 2" "3"); reflexivity.
Defined.

End binary_expression.

(** ** Induction on target nodes *)

Section node_induction.
Import Vtl.
Context (P : node → Prop).
Hypothesis HNull : P Null.
Hypothesis HUndefined : P Undefined.
Hypothesis HBinary : ∀ op l r, P l → P r → P (BinaryExpressionNode op l r).
Hypothesis HBreak : ∀ s, P (BreakDirectiveNode s).
Hypothesis HForEach : ∀ i it b, P i → P it → P b → P (ForEachDirectiveNode i it b).
Hypothesis HIdentifier : ∀ name, P (IdentifierNode name).
Hypothesis HIf : ∀ t c a f, P t → P c → P a → P (IfDirectiveNode t c a f).
Hypothesis HInclude : ∀ files, P (IncludeDirectiveNode files).
Hypothesis HLiteral : ∀ v, P (LiteralNode v).
Hypothesis HMethod : ∀ p params,
  P p → Forall (Forall P) params → P (MethodReferenceNode p params).
Hypothesis HParse : ∀ file, P (ParseDirectiveNode file).
Hypothesis HProperty : ∀ r p f, P r → P p → P (PropertyReferenceNode r p f).
Hypothesis HSet : ∀ r e, P r → P e → P (SetDirectiveNode r e).
Hypothesis HStatements : ∀ l, Forall P l → P (StatementListNode l).
Hypothesis HStop : ∀ m, P (StopDirectiveNode m).
Hypothesis HUnary : ∀ op a p, P a → P (UnaryExpressionNode op a p).
Hypothesis HVariable : ∀ i s, P i → P (VariableReferenceNode i s).
Hypothesis HArray : ∀ l, Forall P l → P (ArrayListNode l).
Hypothesis HMap : ∀ l, Forall (λ kv, P kv.1 ∧ P kv.2) l → P (MapNode l).

Lemma node_nested_ind (n : node) : P n.
Proof using All.
  revert n. fix IH 1. intros [].
  - exact HNull.
  - exact HUndefined.
  - apply HBinary; apply IH.
  - apply HBreak.
  - apply HForEach; apply IH.
  - apply HIdentifier.
  - apply HIf; apply IH.
  - apply HInclude.
  - apply HLiteral.
  - apply HMethod; [apply IH|].
    induction parameters as [|arr params IHparams]; constructor; [|exact IHparams].
    induction arr as [|x arr IHarr]; constructor; [apply IH | exact IHarr].
  - apply HParse.
  - apply HProperty; apply IH.
  - apply HSet; apply IH.
  - apply HStatements.
    induction statements as [|x l IHl]; constructor; [apply IH | exact IHl].
  - apply HStop.
  - apply HUnary; apply IH.
  - apply HVariable; apply IH.
  - apply HArray.
    induction elements as [|x l IHl]; constructor; [apply IH | exact IHl].
  - apply HMap.
    induction entries as [|[k v] l IHl]; constructor; [split; apply IH | exact IHl].
Qed.
End node_induction.

(** * Properties of the serializer *)

Section serializer.
Import Vtl.

Lemma dedent_indent context : dedent 1 (indent 1 context) = context.
Proof. destruct context; unfold dedent, indent; cbn. f_equal. lia. Qed.

Lemma lift_ok {A} (o : outcome A) context a context' :
  lift o context = (Ok a, context') → o = Ok a ∧ context' = context.
Proof. unfold lift. by intros [= -> ->]. Qed.

Lemma serialize_line_ok n context s context' :
  serialize_line n context = (Ok s, context') → context' = context.
Proof.
  unfold serialize_line, mbind, Ser_bind, ask, lift, mret, Ser_ret.
  destruct (indentation context); [|done].
  destruct (toString n); [|done]. by intros [= _ ->].
Qed.

Lemma serialize_statements_ok l :
  Forall (λ n, ∀ context s context',
             serialize n context = (Ok s, context') → context' = context) l →
  ∀ str context s context',
    serialize_statements serialize l str context = (Ok s, context') →
    context' = context.
Proof.
  induction 1 as [|n l Hn _ IH]; intros str context s context'; cbn.
  - by intros [= _ ->].
  - unfold mbind, Ser_bind.
    destruct (serialize n context) as [[s1|e] c1] eqn:E1; [|done].
    apply Hn in E1 as ->. apply IH.
Qed.

(** A [serialize] call that returns leaves the context as it found it. *)
Lemma serialize_ok_context n :
  ∀ context s context',
    serialize n context = (Ok s, context') → context' = context.
Proof.
  induction n using node_nested_ind; intros context out context';
    try (cbn [serialize]; first [ apply serialize_line_ok
                                 | by intros [_ ->]%lift_ok ]).
  - (* ForEachDirectiveNode *)
    cbn [serialize]. unfold mbind, Ser_bind, ask, lift, modify, mret, Ser_ret.
    destruct (template toString n1); [|done].
    destruct (template toString n2); [|done].
    destruct (serialize n3 (indent 1 context)) as [[b|e] c1] eqn:E; [|done].
    apply IHn3 in E as ->. intros [= _ <-]. apply dedent_indent.
  - (* IfDirectiveNode *)
    cbn [serialize]. unfold mbind, Ser_bind, ask, lift, modify, mret, Ser_ret.
    destruct (serialize n1 context) as [[t|e] c1] eqn:E1; [|done].
    apply IHn1 in E1 as ->.
    destruct (serialize n2 (indent 1 context)) as [[c|e] c2] eqn:E2; [|done].
    apply IHn2 in E2 as ->. rewrite dedent_indent.
    destruct (truthy n3); [|by intros [= _ <-]].
    destruct (read_isElseIf n3).
    + destruct (serialize n3 context) as [[a|e] c3] eqn:E3; [|done].
      apply IHn3 in E3 as ->. by intros [= _ <-].
    + destruct (serialize n3 (indent 1 context)) as [[a|e] c3] eqn:E3; [|done].
      apply IHn3 in E3 as ->. intros [= _ <-]. apply dedent_indent.
  - (* StatementListNode *)
    cbn [serialize]. by apply serialize_statements_ok.
Qed.
End serializer.

Section indentation.
Import Vtl.

(** C10, as stated, fails: [serialize] has no [try]/[finally].  A
    [ForEachDirectiveNode] and an [IfDirectiveNode] whose body throws while
    it is serialized leave the context one level deeper than at entry. *)
Lemma indent_not_restored_when_body_throws :
  let context := new_SerializationContext LF in
  let item := VariableReferenceNode (IdentifierNode "item") None in
  let array := VariableReferenceNode (IdentifierNode "array") None in
  let body := StatementListNode [Null] in
  indentLevel context = 0%Z ∧
  serialize (ForEachDirectiveNode item array body) context
    = (Throw (cannot_read "null" "serialize"), indent 1 context) ∧
  serialize (IfDirectiveNode (LiteralNode (LBoolean true)) body Null false) context
    = (Throw (cannot_read "null" "serialize"), indent 1 context) ∧
  indentLevel (indent 1 context) = 1%Z.
Proof. cbn zeta. repeat split; vm_compute; reflexivity. Qed.

End indentation.

(** * Properties of the walker *)

Section failure_contract.
Import Vtl Js Walker.

Lemma string_app_assoc (a b c : string) : (a +:+ b) +:+ c = a +:+ b +:+ c.
Proof.
  induction a as [|x a IH]; [done|].
  change (String x ((a +:+ b) +:+ c) = String x (a +:+ b +:+ c)). by f_equal.
Qed.

Lemma reportError_message {A} message loc :
  @reportError A message loc = Throw (Error (error_message loc message)).
Proof.
  unfold reportError, location_prefix, error_message.
  destruct loc as [[[p|]]|]; [|done..].
  by rewrite !string_app_assoc.
Qed.

Lemma visit_each_throw {A} (visit : A → state → outcome state) pre x post e :
  ∀ acc st stmts st1,
    visit_each visit pre acc st = Ok (stmts, st1) →
    visit x st1 = Throw e →
    visit_each visit (pre ++ x :: post) acc st = Throw e.
Proof.
  induction pre as [|y pre IH]; intros acc st stmts st1; cbn.
  - intros [= _ <-] Hx. unfold mbind, outcome_bind. by rewrite Hx.
  - unfold mbind, outcome_bind. destruct (visit y st) as [st'|]; [cbn [obind]|done].
    apply IH.
Qed.

(** The repository's tests for the failure contract ([test/index.js]):
    an unsupported loop, an undeclared operand, an assignment to an
    undeclared variable. *)
Example while_loop_rejected :
  transpile LF
    (Program None [Unsupported (Some {| start := Some {| line := 2; column := 8 |} |})
                               WhileStatement]) None
  = Throw (Error "Line 2, column 9: 'while' loops are not supported").
Proof. reflexivity. Qed.

Example undeclared_operand_rejected :
  transpile LF
    (Program None
       [VariableDeclaration None
          [VariableDeclarator None (Identifier None "foo")
             (Some (BinaryExpression None "+"
                      (Identifier (Some {| start := Some {| line := 2; column := 20 |} |}) "bar")
                      (Identifier None "baz")))]]) None
  = Throw (Error "Line 2, column 21: variable 'bar' was not declared").
Proof. reflexivity. Qed.

End failure_contract.

Section conditional.
Import Vtl Js Walker.

(** The walker's [IfStatement] entry evaluates [node.alternate.type] without
    testing [node.alternate]: a conditional without [else] never yields a
    node. *)
Lemma IfStatement_without_alternate_throws loc test consequent st :
  ∃ e, visitStatement (IfStatement loc test consequent None) st = Throw e.
Proof.
  cbn [visitStatement]. unfold mbind, outcome_bind.
  destruct (visitExpression test st) as [st1|e]; cbn; [|by eexists].
  destruct (visitStatement consequent st1) as [st2|e]; cbn; by eexists.
Qed.

(** What the target AST does with an absent alternate, as the lowering of
    [switch] builds it: [#if( test )], the consequent one level deeper,
    [#end], and no [#else]. *)
Lemma IfDirectiveNode_without_alternate test consequent context t c :
  serialize test context = (Ok t, context) →
  serialize consequent (indent 1 context) = (Ok c, indent 1 context) →
  serialize (new_IfDirectiveNode test consequent Null) context
  = (Ok ("#if( " +:+ t +:+ " )" +:+ eol context +:+ c +:+ "#end" +:+ eol context), context).
Proof.
  intros Ht Hc. cbn [new_IfDirectiveNode serialize].
  unfold mbind, Ser_bind, ask, lift, modify, mret, Ser_ret.
  rewrite Ht, Hc, dedent_indent. cbn.
  by rewrite !string_app_assoc.
Qed.

(** C8 (defect in the code). [const foo = 3; if (foo === 1) { const bar = 'def'; }]
    is a supported conditional without [else]; the walk raises a
    [TypeError] instead of producing the IfDirective. *)
Theorem if_without_else_raises_TypeError :
  transpile LF
    (Program None
       [VariableDeclaration None
          [VariableDeclarator None (Identifier None "foo") (Some (Literal None (LNumber 3)))];
        IfStatement None
          (BinaryExpression None "===" (Identifier None "foo") (Literal None (LNumber 1)))
          (BlockStatement None
             [VariableDeclaration None
                [VariableDeclarator None (Identifier None "bar")
                   (Some (Literal None (LString "def")))]])
          None]) None
  = Throw (TypeError "Cannot read properties of null (reading 'type')").
Proof. reflexivity. Qed.

End conditional.

(** ** Induction on source expressions *)

Section expression_induction.
Import Js.
Context (P : expression → Prop).
Hypothesis HArray : ∀ loc elements,
  Forall (λ o, ∀ e, o = Some e → P e) elements → P (ArrayExpression loc elements).
Hypothesis HAssignment : ∀ loc op l r, P l → P r → P (AssignmentExpression loc op l r).
Hypothesis HBinary : ∀ loc op l r, P l → P r → P (BinaryExpression loc op l r).
Hypothesis HCall : ∀ loc callee args,
  P callee → Forall P args → P (CallExpression loc callee args).
Hypothesis HFunction : ∀ loc, P (FunctionExpression loc).
Hypothesis HIdentifier : ∀ loc name, P (Identifier loc name).
Hypothesis HLiteral : ∀ loc v, P (Literal loc v).
Hypothesis HMember : ∀ loc o p, P o → P p → P (MemberExpression loc o p).
Hypothesis HObject : ∀ loc properties,
  Forall (λ p, match p with Property _ _ key _ _ value => P key ∧ P value end) properties →
  P (ObjectExpression loc properties).
Hypothesis HThis : ∀ loc, P (ThisExpression loc).
Hypothesis HUnary : ∀ loc op prefix a, P a → P (UnaryExpression loc op prefix a).

Lemma expression_nested_ind (e : expression) : P e.
Proof using All.
  revert e. fix IH 1. intros [].
  - apply HArray.
    induction elements as [|[x|] l IHl]; constructor; try exact IHl.
    + intros e [= <-]. apply IH.
    + intros e [=].
  - apply HAssignment; apply IH.
  - apply HBinary; apply IH.
  - apply HCall; [apply IH|].
    induction arguments as [|x l IHl]; constructor; [apply IH | exact IHl].
  - apply HFunction.
  - apply HIdentifier.
  - apply HLiteral.
  - apply HMember; apply IH.
  - apply HObject.
    induction properties as [|[] l IHl]; constructor; [split; apply IH | exact IHl].
  - apply HThis.
  - apply HUnary; apply IH.
Qed.
End expression_induction.

Section expression_walk.
Import Vtl Js Walker.

Lemma nonDeclVarRef_ok v st loc r :
  nonDeclVarRef v st loc = Ok r →
  match v with
  | IdentifierNode name =>
      ∃ tbl target, scope st = Some tbl ∧ SymbolTable.lookup name tbl = Some target ∧
                    r = VariableReferenceNode v (Some target)
  | _ => r = v
  end.
Proof.
  unfold nonDeclVarRef. destruct v; try by intros [= <-].
  destruct (scope st) as [tbl|]; [|done].
  destruct (SymbolTable.lookup name tbl) as [target|] eqn:E; [|done].
  intros [= <-]. by exists tbl, target.
Qed.

Lemma same_scope_refl st : same_scope st st.
Proof. done. Qed.

Lemma same_scope_trans st1 st2 st3 :
  same_scope st1 st2 → same_scope st2 st3 → same_scope st1 st3.
Proof. intros [? ?] [? ?]. split; congruence. Qed.

Lemma same_scope_set_lastChild v st st' :
  same_scope st st' → same_scope st (set_lastChild v st').
Proof. done. Qed.

Lemma visit_elements_scope loc elements :
  Forall (λ o, ∀ e, o = Some e →
               ∀ st st', visitExpression e st = Ok st' → same_scope st st') elements →
  ∀ array st array' st',
    visit_elements visitExpression loc elements array st = Ok (array', st') →
    same_scope st st'.
Proof.
  induction 1 as [|[x|] l Hx _ IH]; intros array st array' st'; cbn.
  - by intros [= _ <-].
  - unfold mbind, outcome_bind.
    destruct (visitExpression x st) as [st1|] eqn:E1; [cbn|done].
    destruct (nonDeclVarRef _ _ _); [cbn|done].
    intros H%IH. eapply same_scope_trans; [|exact H]. by eapply Hx.
  - done.
Qed.

Lemma visit_arguments_scope arguments :
  Forall (λ e, ∀ st st', visitExpression e st = Ok st' → same_scope st st') arguments →
  ∀ st values st',
    visit_arguments visitExpression arguments st = Ok (values, st') →
    same_scope st st'.
Proof.
  induction 1 as [|x l Hx _ IH]; intros st values st'; cbn.
  - by intros [= _ <-].
  - unfold mbind, outcome_bind.
    destruct (visitExpression x st) as [st1|] eqn:E1; [cbn|done].
    destruct (nonDeclVarRef _ _ _); [cbn|done].
    destruct (visit_arguments visitExpression l st1) as [[vs st2]|] eqn:E2; [cbn|done].
    intros [= _ <-]. eapply same_scope_trans; [by eapply Hx | by eapply IH].
Qed.

Lemma visit_properties_scope properties :
  Forall (λ p, match p with
               | Property _ _ key _ _ value =>
                   (∀ st st', visitExpression key st = Ok st' → same_scope st st') ∧
                   (∀ st st', visitExpression value st = Ok st' → same_scope st st')
               end) properties →
  ∀ map st map' st',
    visit_properties visitProperty properties map st = Ok (map', st') →
    same_scope st st'.
Proof.
  induction 1 as [|[loc computed key method kind value] l [Hk Hv] _ IH];
    intros map st map' st'; cbn [visit_properties].
  - by intros [= _ <-].
  - unfold mbind, outcome_bind.
    destruct (visitProperty _ map st) as [[map1 st1]|] eqn:E1; [cbn|done].
    intros H%IH. eapply same_scope_trans; [|exact H].
    cbn [visitProperty] in E1. unfold mbind, outcome_bind in E1.
    destruct computed; [by rewrite reportError_message in E1|].
    destruct (visitExpression key st) as [st2|] eqn:E2; [cbn in E1|done].
    destruct method; [by rewrite reportError_message in E1|].
    destruct kind; try by rewrite reportError_message in E1.
    destruct (visitExpression value st2) as [st3|] eqn:E3; [cbn in E1|done].
    destruct (nonDeclVarRef _ _ _); [cbn in E1|done].
    injection E1 as _ <-.
    eapply same_scope_trans; [by eapply Hk | by eapply Hv].
Qed.

(** Visiting an expression declares nothing: the scope table is the same
    before and after. *)
Lemma visitExpression_scope e :
  ∀ st st', visitExpression e st = Ok st' → same_scope st st'.
Proof.
  induction e using expression_nested_ind; intros st st'; cbn [visitExpression];
    unfold mbind, outcome_bind, unsupported.
  - destruct (visit_elements _ _ _ _ _) as [[array st1]|] eqn:E; [cbn|done].
    intros [= <-]. apply same_scope_set_lastChild. by eapply visit_elements_scope.
  - destruct (visitExpression e1 st) as [st1|] eqn:E1; [cbn|done].
    destruct (visitExpression e2 st1) as [st2|] eqn:E2; [cbn|done].
    intros [= <-]. apply same_scope_set_lastChild.
    eapply same_scope_trans; [by eapply IHe1 | by eapply IHe2].
  - destruct (visitExpression e1 st) as [st1|] eqn:E1; [cbn|done].
    destruct (nonDeclVarRef _ _ _); [cbn|done].
    destruct (visitExpression e2 st1) as [st2|] eqn:E2; [cbn|done].
    destruct (nonDeclVarRef _ _ _); [cbn|done].
    intros [= <-]. apply same_scope_set_lastChild.
    eapply same_scope_trans; [by eapply IHe1 | by eapply IHe2].
  - destruct (visitExpression e st) as [st1|] eqn:E1; [cbn|done].
    destruct (is_MemberExpression e).
    + destruct (visit_arguments _ _ _) as [[values st2]|] eqn:E2; [cbn|done].
      intros [= <-]. apply same_scope_set_lastChild.
      eapply same_scope_trans; [by eapply IHe | by eapply visit_arguments_scope].
    + case_bool_decide; by rewrite reportError_message.
  - by rewrite reportError_message.
  - by intros [= <-].
  - by intros [= <-].
  - destruct (visitExpression e1 st) as [st1|] eqn:E1; [cbn|done].
    destruct (visitExpression e2 st1) as [st2|] eqn:E2; [cbn|done].
    destruct (new_PropertyReferenceNode _ _); [cbn|done].
    intros [= <-]. apply same_scope_set_lastChild.
    eapply same_scope_trans; [by eapply IHe1 | by eapply IHe2].
  - destruct (visit_properties _ _ _ _) as [[map st1]|] eqn:E; [cbn|done].
    intros [= <-]. apply same_scope_set_lastChild. by eapply visit_properties_scope.
  - by rewrite reportError_message.
  - destruct (visitExpression e st) as [st1|] eqn:E1; [cbn|done].
    intros [= <-]. apply same_scope_set_lastChild. by eapply IHe.
Qed.

End expression_walk.

Section reference_chains.
Import Vtl Js Walker.

Lemma rooted_sigils v : rooted v → sigils v = 1.
Proof. intros [(r & p & -> & Hr)|(r & p & params & -> & Hr)]; cbn; by rewrite Hr. Qed.

(** The constructor applied to a receiver that is a well-formed chain, or
    no chain at all, returns the new root over a receiver without flag. *)
Lemma new_PropertyReferenceNode_rooted receiver property n :
  new_PropertyReferenceNode receiver property = Ok n →
  sigils receiver = 0 ∨ rooted receiver →
  ∃ r, n = PropertyReferenceNode r property true ∧ sigils r = 0.
Proof.
  intros Hnew [H0|[(r & p & -> & Hr)|(r & p & params & -> & Hr)]].
  - destruct receiver; cbn in Hnew; try (injection Hnew as <-; by eexists).
    + destruct receiver; try done; try (injection Hnew as <-; by eexists).
      cbn in H0. destruct isReferenceRoot; [done|].
      injection Hnew as <-. by eexists.
    + cbn in H0. destruct isReferenceRoot; [done|].
      injection Hnew as <-. by eexists.
  - injection Hnew as <-. by eexists.
  - injection Hnew as <-. by eexists.
Qed.

Lemma visitExpression_chain_shape e :
  ∀ st st', visitExpression e st = Ok st' →
  match e with
  | MemberExpression _ _ _ =>
      ∃ r p, lastChild st' = PropertyReferenceNode r p true ∧ sigils r = 0
  | CallExpression _ _ _ =>
      ∃ r p params,
        lastChild st' = MethodReferenceNode (PropertyReferenceNode r p true) params ∧
        sigils r = 0
  | _ => sigils (lastChild st') = 0
  end.
Proof.
  induction e using expression_nested_ind; intros st st'; cbn [visitExpression];
    unfold mbind, outcome_bind, unsupported.
  - destruct (visit_elements _ _ _ _ _) as [[array st1]|]; [cbn|done]. by intros [= <-].
  - destruct (visitExpression e1 st) as [st1|]; [cbn|done].
    destruct (visitExpression e2 st1) as [st2|]; [cbn|done]. by intros [= <-].
  - destruct (visitExpression e1 st) as [st1|]; [cbn|done].
    destruct (nonDeclVarRef _ _ _); [cbn|done].
    destruct (visitExpression e2 st1) as [st2|]; [cbn|done].
    destruct (nonDeclVarRef _ _ _); [cbn|done]. by intros [= <-].
  - destruct (visitExpression e st) as [st1|] eqn:E1; [cbn|done].
    destruct e; cbn [is_MemberExpression];
      try (case_bool_decide; by rewrite reportError_message).
    apply IHe in E1 as (r & p & Hlast & Hr).
    destruct (visit_arguments _ _ _) as [[values st2]|]; [cbn|done].
    intros [= <-]. cbn. rewrite Hlast. by eexists _, _, _.
  - by rewrite reportError_message.
  - by intros [= <-].
  - by intros [= <-].
  - destruct (visitExpression e1 st) as [st1|] eqn:E1; [cbn|done].
    destruct (visitExpression e2 st1) as [st2|] eqn:E2; [cbn|done].
    destruct (new_PropertyReferenceNode _ _) as [n|] eqn:En; [cbn|done].
    intros [= <-]. cbn.
    apply new_PropertyReferenceNode_rooted in En as (r & -> & Hr); [by eexists _, _|].
    apply IHe1 in E1.
    destruct e1; try (by left).
    + right. right. destruct E1 as (r & p & params & -> & Hr). by eexists _, _, _.
    + right. left. destruct E1 as (r & p & -> & Hr). by eexists _, _.
  - destruct (visit_properties _ _ _ _) as [[map st1]|]; [cbn|done]. by intros [= <-].
  - by rewrite reportError_message.
  - destruct (visitExpression e st) as [st1|]; [cbn|done]. by intros [= <-].
Qed.

(** The repository's test of method calls: one sigil per chain. *)
Example method_call_chain_rendering :
  transpile LF
    (Program None
       [VariableDeclaration None
          [VariableDeclarator None (Identifier None "value1")
             (Some (MemberExpression None
                      (CallExpression None
                         (MemberExpression None (Identifier None "foo") (Identifier None "bar"))
                         [])
                      (Identifier None "baz")))]]) None
  = Ok "#set( $value1 = $foo.bar().baz )
".
Proof. reflexivity. Qed.

End reference_chains.

(** * Properties of the scope table *)

Section declaration_numbering.
Import Vtl Js Walker.

(** [const a = 0; let c = 6; { const a = 1; let b = 2; ... } const b = ...]
    from the repository's test of scopes. *)
Example scopes_test_rendering :
  let num n := Literal None (LNumber n) in
  let id x := Identifier None x in
  let declare x e := VariableDeclaration None [VariableDeclarator None (id x) (Some e)] in
  let assign x e := ExpressionStatement None (AssignmentExpression None "=" (id x) e) in
  let plus a b := BinaryExpression None "+" a b in
  transpile LF
    (Program None
       [declare "a" (num 0%N); declare "c" (num 6%N);
        BlockStatement None
          [declare "a" (num 1%N); declare "b" (num 2%N);
           assign "b" (plus (plus (plus (id "a") (id "b")) (num 3%N)) (id "c"));
           assign "c" (num 7%N)];
        declare "b" (plus (plus (num 4%N) (id "a")) (id "c"))]) None
  = Ok "#set( $a = 0 )
#set( $c = 6 )
#set( $a_1 = 1 )
#set( $b = 2 )
#set( $b = $a_1 + $b + 3 + $c )
#set( $c = 7 )
#set( $b_1 = 4 + $a + $c )
".
Proof. vm_compute. reflexivity. Qed.

End declaration_numbering.

Section declarators.
Import Vtl Js Walker.





(** The for-of lowering reads the bare Identifier back from the one-entry
    list of its declaration. *)
Example for_of_reads_the_declarator :
  transpile LF
    (Program None
       [VariableDeclaration None
          [VariableDeclarator None (Identifier None "array") (Some (ArrayExpression None []))];
        ForOfStatement None
          (VariableDeclaration None [VariableDeclarator None (Identifier None "item") None])
          (Identifier None "array")
          (BlockStatement None
             [VariableDeclaration None
                [VariableDeclarator None (Identifier None "foo")
                   (Some (Literal None (LNumber 15)))]])]) None
  = Ok "#set( $array = [] )
#foreach( $item in $array )
  #set( $foo = 15 )
#end".
Proof. vm_compute. reflexivity. Qed.

End declarators.

Section identifier_resolution.
Import Vtl Js Walker.

Lemma nonDeclVarRef_unresolved name st tbl loc :
  scope st = Some tbl →
  SymbolTable.lookup name tbl = None →
  nonDeclVarRef (IdentifierNode name) st loc
  = Throw (Error (error_message loc (not_declared name))).
Proof.
  intros Hs Hl. unfold nonDeclVarRef. rewrite Hs, Hl. apply reportError_message.
Qed.






(** The repository's tests of arrays, objects and call arguments: declared
    names are printed as references. *)
Example array_elements_resolved :
  transpile LF
    (Program None
       [VariableDeclaration None
          [VariableDeclarator None (Identifier None "arr0") (Some (ArrayExpression None []))];
        VariableDeclaration None
          [VariableDeclarator None (Identifier None "arr1")
             (Some (ArrayExpression None
                      [Some (Literal None (LNumber 1));
                       Some (Literal None (LString "two"));
                       Some (Identifier None "arr0");
                       Some (Literal None (LBoolean false));
                       Some (BinaryExpression None "+" (Literal None (LNumber 1))
                                              (Identifier None "arr0"))]))]]) None
  = Ok "#set( $arr0 = [] )
#set( $arr1 = [1, 'two', $arr0, false, 1 + $arr0] )
".
Proof. vm_compute. reflexivity. Qed.

End identifier_resolution.

(** * The lowering of [switch] *)

Section switch_lowering.
Import Vtl Js Walker.

Lemma visit_consequent_visited consequent :
  ∀ acc st stmts canFallthrough st',
    visit_consequent visitStatement consequent acc st = Ok (stmts, canFallthrough, st') ↔
    ∃ body, visited (before_break consequent) st body st' ∧
            stmts = acc ++ body ∧ canFallthrough = negb (has_break consequent).
Proof.
  induction consequent as [|s rest IH]; intros acc st stmts cf st';
    cbn [visit_consequent before_break has_break existsb].
  - split.
    + intros [= <- <- <-]. exists []. rewrite app_nil_r. repeat split. constructor.
    + intros (body & Hv & -> & ->). inversion Hv; subst. by rewrite app_nil_r.
  - destruct (is_BreakStatement s) eqn:Eb; cbn [orb negb].
    + split.
      * intros [= <- <- <-]. exists []. rewrite app_nil_r. repeat split. constructor.
      * intros (body & Hv & -> & ->). inversion Hv; subst. by rewrite app_nil_r.
    + unfold mbind, outcome_bind. split.
      * destruct (visitStatement s st) as [st1|] eqn:E1; [cbn [obind]|done].
        intros (body & Hv & -> & ->)%IH. exists (lastChild st1 :: body).
        rewrite <- app_assoc. repeat split. by econstructor.
      * intros (body & Hv & -> & ->). inversion Hv as [|? ? ? st1 nodes ? E1 Hrest]; subst.
        rewrite E1. cbn [obind]. apply IH. exists nodes.
        rewrite <- app_assoc. done.
Qed.

Lemma visit_case_lowered refs c st directive st' :
  visit_case visitStatement refs c st = Ok (directive, st') ↔
  lowered_case refs c st directive st'.
Proof.
  destruct c as [loc [t|] consequent]; cbn [visit_case]; unfold mbind, outcome_bind.
  - split.
    + destruct (visitExpression t st) as [st1|] eqn:E1; [cbn [obind]|done].
      destruct (visit_consequent _ _ _ _) as [[[stmts cf] st2]|] eqn:E2; [cbn [obind]|done].
      apply visit_consequent_visited in E2 as (body & Hv & -> & ->).
      intros [= <- <-]. cbn [app]. rewrite <- app_assoc.
      by apply (lowered_tested refs loc t consequent st st1 body st2).
    + inversion 1 as [|? ? ? ? st1 body ? E1 Hv]; subst. rewrite E1. cbn [obind].
      assert (visit_consequent visitStatement consequent [] st1
              = Ok ([] ++ body, negb (has_break consequent), st')) as ->.
      { apply visit_consequent_visited. by exists body. }
      cbn [obind app new_IfDirectiveNode]. unfold case_body, set_flag.
      by rewrite <- app_assoc.
  - split.
    + cbn [obind].
      destruct (visit_consequent _ _ _ _) as [[[stmts cf] st2]|] eqn:E2; [cbn [obind]|done].
      apply visit_consequent_visited in E2 as (body & Hv & -> & ->).
      intros [= <- <-]. cbn [app]. rewrite <- app_assoc.
      by apply (lowered_default refs loc consequent st body st2).
    + inversion 1 as [? ? ? body ? Hv|]; subst. cbn [obind].
      assert (visit_consequent visitStatement consequent [] st
              = Ok ([] ++ body, negb (has_break consequent), st')) as ->.
      { apply visit_consequent_visited. by exists body. }
      cbn [obind app new_IfDirectiveNode]. unfold case_body, set_flag.
      by rewrite <- app_assoc.
Qed.

Lemma visit_cases_lowered refs cases :
  ∀ acc st stmts st',
    visit_cases visitStatement refs cases acc st = Ok (stmts, st') ↔
    ∃ directives, lowered_cases refs cases st directives st' ∧ stmts = acc ++ directives.
Proof.
  induction cases as [|c rest IH]; intros acc st stmts st'; cbn [visit_cases].
  - split.
    + intros [= <- <-]. exists []. rewrite app_nil_r. split; [constructor|done].
    + intros (directives & Hl & ->). inversion Hl; subst. by rewrite app_nil_r.
  - unfold mbind, outcome_bind. split.
    + destruct (visit_case _ _ _ _) as [[directive st1]|] eqn:E1; [cbn [obind]|done].
      apply visit_case_lowered in E1.
      intros (directives & Hl & ->)%IH. exists (directive :: directives).
      rewrite <- app_assoc. split; [by econstructor|done].
    + intros (directives & Hl & ->).
      inversion Hl as [|? ? ? directive st1 ds ? Hc Hrest]; subst.
      apply visit_case_lowered in Hc. rewrite Hc. cbn [obind]. apply IH.
      exists ds. by rewrite <- app_assoc.
Qed.

Lemma lowered_cases_length refs cases st directives st' :
  lowered_cases refs cases st directives st' → length directives = length cases.
Proof. induction 1; cbn; congruence. Qed.

Lemma declVarRef_lastChild v st r st' :
  declVarRef v st = Ok (r, st') → lastChild st' = lastChild st.
Proof.
  unfold declVarRef. destruct v; try by intros [= _ <-].
  destruct (scope st); [|done].
  destruct (SymbolTable.symbol _ _). by intros [= _ <-].
Qed.

(** C1. For every [switch] statement the transform returns, when the visits
    of its parts return and only then, one statement list that begins with
    [matched := false], [fallthrough := false] and
    [discriminant := the visited discriminant], followed by exactly one
    IfDirective per case in source order; the test of a case with a test is
    [fallthrough || (discriminant == visited case value)], the test of the
    default case is [fallthrough || !matched], and the body of every case is
    its statements up to, but not including, the break, followed by
    [matched := true] and [fallthrough := true] for a case without break,
    [false] for a case with one. *)
Theorem switch_lowered_to_guarded_conditionals loc d cases st st' :
  visitStatement (SwitchStatement loc d cases) st = Ok st' ↔
  lowered_switch d cases st st'.
Proof.
  cbn [visitStatement]. unfold mbind, outcome_bind, lowered_switch. split.
  - destruct (visitExpression d st) as [st1|] eqn:E1; [cbn [obind]|done].
    destruct (declVarRef _ st1) as [[m st2]|] eqn:Em; [cbn [obind]|done].
    destruct (declVarRef _ st2) as [[f st3]|] eqn:Ef; [cbn [obind]|done].
    destruct (declVarRef _ st3) as [[dd st4]|] eqn:Ed; [cbn [obind]|done].
    destruct (visit_cases _ _ _ _ _) as [[stmts st5]|] eqn:Ec; [cbn [obind]|done].
    apply visit_cases_lowered in Ec as (directives & Hl & ->).
    intros [= <-]. exists st1, m, st2, f, st3, dd, st4, directives, st5.
    repeat (split; [done|]). split; [by eapply lowered_cases_length|].
    rewrite (declVarRef_lastChild _ _ _ _ Ed), (declVarRef_lastChild _ _ _ _ Ef),
      (declVarRef_lastChild _ _ _ _ Em). done.
  - intros (st1 & m & st2 & f & st3 & dd & st4 & directives & st5 &
            E1 & Em & Ef & Ed & Hl & _ & ->).
    rewrite E1. cbn [obind]. rewrite Em. cbn [obind]. rewrite Ef. cbn [obind].
    rewrite Ed. cbn [obind].
    assert (lastChild st4 = lastChild st1) as ->.
    { rewrite (declVarRef_lastChild _ _ _ _ Ed), (declVarRef_lastChild _ _ _ _ Ef),
        (declVarRef_lastChild _ _ _ _ Em). done. }
    match goal with
    | |- context [visit_cases ?v ?r ?c ?a ?s] =>
        assert (visit_cases v r c a s = Ok (a ++ directives, st5)) as ->
    end.
    { apply visit_cases_lowered. by exists directives. }
    done.
Qed.

Lemma switch_lowered_witness :
  let st := {| lastChild := Null; scope := Some SymbolTable.new; env := None |} in
  let tbl := (SymbolTable.symbol "discriminant"
                (SymbolTable.symbol "fallthrough"
                   (SymbolTable.symbol "matched" SymbolTable.new).2).2).2 in
  let m := VariableReferenceNode (IdentifierNode "matched") (Some "matched") in
  let f := VariableReferenceNode (IdentifierNode "fallthrough") (Some "fallthrough") in
  let dd := VariableReferenceNode (IdentifierNode "discriminant") (Some "discriminant") in
  lowered_switch (Literal None (LNumber 5))
    [SwitchCase None (Some (Literal None (LNumber 1))) [Unsupported None BreakStatement];
     SwitchCase None None []]
    st
    {| lastChild :=
         StatementListNode
           [set_flag m false; set_flag f false; SetDirectiveNode dd (LiteralNode (LNumber 5));
            IfDirectiveNode
              (BinaryExpressionNode "||" f
                 (BinaryExpressionNode "==" dd (LiteralNode (LNumber 1))))
              (StatementListNode [set_flag m true; set_flag f false]) Null false;
            IfDirectiveNode
              (BinaryExpressionNode "||" f (UnaryExpressionNode "!" m true))
              (StatementListNode [set_flag m true; set_flag f true]) Null false];
       scope := Some tbl; env := None |}.
Proof.
  cbn zeta. apply (proj1 (switch_lowered_to_guarded_conditionals None _ _ _ _)).
  vm_compute. reflexivity.
Defined.

(** The repository's test of the lowering. *)
Example switch_test_rendering :
  let num n := Literal None (LNumber n) in
  let id x := Identifier None x in
  let declare x e := VariableDeclaration None [VariableDeclarator None (id x) (Some e)] in
  let assign x e := ExpressionStatement None (AssignmentExpression None "=" (id x) e) in
  let break := Unsupported None BreakStatement in
  transpile LF
    (Program None
       [declare "foo" (num 5%N); declare "value" (num 0%N);
        SwitchStatement None (id "foo")
          [SwitchCase None (Some (num 1%N)) [assign "value" (num 1%N); break];
           SwitchCase None (Some (num 2%N)) [assign "value" (num 2%N); break];
           SwitchCase None (Some (num 3%N)) [];
           SwitchCase None (Some (num 4%N)) [assign "value" (num 7%N)];
           SwitchCase None None [assign "value" (num 99%N)]]]) None
  = Ok "#set( $foo = 5 )
#set( $value = 0 )
#set( $matched = false )
#set( $fallthrough = false )
#set( $discriminant = foo )
#if( $fallthrough || $discriminant == 1 )
  #set( $value = 1 )
  #set( $matched = true )
  #set( $fallthrough = false )
#end
#if( $fallthrough || $discriminant == 2 )
  #set( $value = 2 )
  #set( $matched = true )
  #set( $fallthrough = false )
#end
#if( $fallthrough || $discriminant == 3 )
  #set( $matched = true )
  #set( $fallthrough = true )
#end
#if( $fallthrough || $discriminant == 4 )
  #set( $value = 7 )
  #set( $matched = true )
  #set( $fallthrough = true )
#end
#if( $fallthrough || !$matched )
  #set( $value = 99 )
  #set( $matched = true )
  #set( $fallthrough = true )
#end
".
Proof. vm_compute. reflexivity. Qed.

(** C2, as stated, fails: the lowering takes no operator from the source.
    The same [switch] after a conditional written with the strict [===] and
    after one written with the loose [==] is lowered with [==] both times. *)
Lemma switch_comparison_ignores_source_operator :
  let program op :=
    Program None
      [VariableDeclaration None
         [VariableDeclarator None (Identifier None "foo") (Some (Literal None (LNumber 3)))];
       IfStatement None
         (BinaryExpression None op (Identifier None "foo") (Literal None (LNumber 1)))
         (BlockStatement None []) (Some (BlockStatement None []));
       SwitchStatement None (Identifier None "foo")
         [SwitchCase None (Some (Literal None (LNumber 1))) []]] in
  transpile LF (program "===") None
  = Ok "#set( $foo = 3 )
#if( $foo === 1 )
#else
#end
#set( $matched = false )
#set( $fallthrough = false )
#set( $discriminant = foo )
#if( $fallthrough || $discriminant == 1 )
  #set( $matched = true )
  #set( $fallthrough = true )
#end
" ∧
  transpile LF (program "==") None
  = Ok "#set( $foo = 3 )
#if( $foo == 1 )
#else
#end
#set( $matched = false )
#set( $fallthrough = false )
#set( $discriminant = foo )
#if( $fallthrough || $discriminant == 1 )
  #set( $matched = true )
  #set( $fallthrough = true )
#end
".
Proof. split; vm_compute; reflexivity. Qed.

Lemma lowered_cases_compare refs cases st directives st' :
  lowered_cases refs cases st directives st' →
  Forall2 (compares_with "==") cases directives.
Proof.
  induction 1 as [|c rest st directive st1 directives st2 Hc _ IH]; constructor; [|done].
  destruct Hc; cbn; [done|]. by eexists _, _, _, _.
Qed.

(** C2, amended.  For every [switch] statement, the comparison of each case
    with a test is written with the one operator [==] that the walker has
    as a constant, whatever operators the source program uses. *)
Theorem switch_comparison_operator_is_fixed loc d cases st st' :
  visitStatement (SwitchStatement loc d cases) st = Ok st' →
  ∃ head directives,
    lastChild st' = StatementListNode (head ++ directives) ∧
    length head = 3 ∧
    Forall2 (compares_with "==") cases directives.
Proof.
  cbn [visitStatement]. unfold mbind, outcome_bind.
  destruct (visitExpression d st) as [st1|]; [cbn [obind]|done].
  destruct (declVarRef _ st1) as [[m st2]|]; [cbn [obind]|done].
  destruct (declVarRef _ st2) as [[f st3]|]; [cbn [obind]|done].
  destruct (declVarRef _ st3) as [[dd st4]|]; [cbn [obind]|done].
  destruct (visit_cases _ _ _ _ _) as [[stmts st5]|] eqn:Ec; [cbn [obind]|done].
  apply visit_cases_lowered in Ec as (directives & Hl & ->).
  intros [= <-].
  exists [set_flag m false; set_flag f false; SetDirectiveNode dd (lastChild st4)],
         directives.
  split; [reflexivity|]. split; [reflexivity|]. by eapply lowered_cases_compare.
Qed.

Lemma switch_comparison_operator_witness :
  let m := VariableReferenceNode (IdentifierNode "matched") (Some "matched") in
  let f := VariableReferenceNode (IdentifierNode "fallthrough") (Some "fallthrough") in
  let dd := VariableReferenceNode (IdentifierNode "discriminant") (Some "discriminant") in
  ∃ head directives,
    StatementListNode
      [set_flag m false; set_flag f false; SetDirectiveNode dd (LiteralNode (LNumber 5));
       IfDirectiveNode
         (BinaryExpressionNode "||" f
            (BinaryExpressionNode "==" dd (LiteralNode (LNumber 1))))
         (StatementListNode [set_flag m true; set_flag f true]) Null false]
    = StatementListNode (head ++ directives) ∧
    length head = 3 ∧
    Forall2 (compares_with "==")
      [SwitchCase None (Some (Literal None (LNumber 1))) []] directives.
Proof.
  cbn zeta.
  apply (switch_comparison_operator_is_fixed None (Literal None (LNumber 5))
           [SwitchCase None (Some (Literal None (LNumber 1))) []]
           {| lastChild := Null; scope := Some SymbolTable.new; env := None |}
           {| lastChild :=
                StatementListNode
                  [set_flag (VariableReferenceNode (IdentifierNode "matched")
                                                   (Some "matched")) false;
                   set_flag (VariableReferenceNode (IdentifierNode "fallthrough")
                                                   (Some "fallthrough")) false;
                   SetDirectiveNode
                     (VariableReferenceNode (IdentifierNode "discriminant")
                                            (Some "discriminant"))
                     (LiteralNode (LNumber 5));
                   IfDirectiveNode
                     (BinaryExpressionNode "||"
                        (VariableReferenceNode (IdentifierNode "fallthrough")
                                               (Some "fallthrough"))
                        (BinaryExpressionNode "=="
                           (VariableReferenceNode (IdentifierNode "discriminant")
                                                  (Some "discriminant"))
                           (LiteralNode (LNumber 1))))
                     (StatementListNode
                        [set_flag (VariableReferenceNode (IdentifierNode "matched")
                                                         (Some "matched")) true;
                         set_flag (VariableReferenceNode (IdentifierNode "fallthrough")
                                                         (Some "fallthrough")) true])
                     Null false];
              scope := Some (SymbolTable.symbol "discriminant"
                               (SymbolTable.symbol "fallthrough"
                                  (SymbolTable.symbol "matched" SymbolTable.new).2).2).2;
              env := None |}).
  vm_compute. reflexivity.
Defined.

End switch_lowering.

(** * Further properties of the serializer *)

Section serializer_composition.
Import Vtl.

Lemma string_app_empty_r (s : string) : s +:+ "" = s.
Proof.
  induction s as [|x s IH]; [done|].
  change (String x (s +:+ "") = String x s). by f_equal.
Qed.

Lemma serialize_statements_from l :
  ∀ str context,
    serialize_statements serialize l str context
    = match serialize_statements serialize l "" context with
      | (Ok s, context') => (Ok (str +:+ s), context')
      | (Throw e, context') => (Throw e, context')
      end.
Proof.
  induction l as [|n l IH]; intros str context; cbn [serialize_statements].
  - unfold mret, Ser_ret. by rewrite string_app_empty_r.
  - unfold mbind, Ser_bind.
    destruct (serialize n context) as [[s|e] c1]; [|done].
    rewrite (IH (str +:+ s)), (IH ("" +:+ s)).
    destruct (serialize_statements serialize l "" c1) as [[s'|e] c2]; [|done].
    change ("" +:+ s) with s. by rewrite string_app_assoc.
Qed.

Lemma serialize_statements_app l1 l2 :
  ∀ str context,
    serialize_statements serialize (l1 ++ l2) str context
    = match serialize_statements serialize l1 str context with
      | (Ok s, context') => serialize_statements serialize l2 s context'
      | (Throw e, context') => (Throw e, context')
      end.
Proof.
  induction l1 as [|n l1 IH]; intros str context; cbn [app serialize_statements].
  - done.
  - unfold mbind, Ser_bind.
    destruct (serialize n context) as [[s|e] c1]; [|done]. apply IH.
Qed.

(** X1. A statement list is serialized as the concatenation of its parts:
    the output of [l1 ++ l2] is the output of [l1] followed by the output
    of [l2], serialized in the context that [l1] leaves; an exception in
    either part is the exception of the whole, and nothing of [l2] is
    serialized after an exception in [l1]. *)
Theorem statement_list_serialize_app l1 l2 context :
  serialize (StatementListNode (l1 ++ l2)) context
  = match serialize (StatementListNode l1) context with
    | (Ok s1, context1) =>
        match serialize (StatementListNode l2) context1 with
        | (Ok s2, context2) => (Ok (s1 +:+ s2), context2)
        | (Throw e, context2) => (Throw e, context2)
        end
    | (Throw e, context1) => (Throw e, context1)
    end.
Proof.
  cbn [serialize]. rewrite serialize_statements_app.
  destruct (serialize_statements serialize l1 "" context) as [[s1|e] c1]; [|done].
  apply serialize_statements_from.
Qed.

(** X2. An [if] whose alternate is itself a conditional is rendered as a
    chain: the header and the consequent of the outer conditional are
    followed directly by the rendering of the alternate as [#elseif], with
    no [#else] line and no [#end] of the outer conditional's own. *)
Theorem else_if_chain_rendering test consequent t2 c2 a2 f context t c rest :
  serialize test context = (Ok t, context) →
  serialize consequent (indent 1 context) = (Ok c, indent 1 context) →
  serialize (IfDirectiveNode t2 c2 a2 true) context = (Ok rest, context) →
  serialize (new_IfDirectiveNode test consequent (IfDirectiveNode t2 c2 a2 f)) context
  = (Ok ("#if( " +:+ t +:+ " )" +:+ eol context +:+ c +:+ rest), context) ∧
  ∃ tail, rest = "#elseif( " +:+ tail.
Proof.
  intros Ht Hc Hrest. split.
  - unfold new_IfDirectiveNode.
    remember (IfDirectiveNode t2 c2 a2 true) as alt eqn:Ealt.
    assert (truthy alt = true) as Htruthy by (by subst).
    assert (read_isElseIf alt = true) as Helse by (by subst).
    clear Ealt. cbn [serialize].
    unfold mbind, Ser_bind, ask, lift, modify, mret, Ser_ret.
    rewrite Ht, Hc, dedent_indent, Htruthy, Helse, Hrest.
    by rewrite !string_app_assoc.
  - cbn [serialize] in Hrest.
    unfold mbind, Ser_bind, ask, lift, modify, mret, Ser_ret in Hrest.
    destruct (serialize t2 context) as [[s2|e] c']; [|done].
    destruct (serialize c2 (indent 1 c')) as [[sc|e] c'']; [|done].
    destruct (truthy a2).
    + destruct (read_isElseIf a2).
      * destruct (serialize a2 (dedent 1 c'')) as [[sa|e] c3]; [|done].
        injection Hrest as <- _. eexists. by rewrite !string_app_assoc.
      * destruct (serialize a2 (indent 1 (dedent 1 c''))) as [[sa|e] c3]; [|done].
        injection Hrest as <- _. eexists. by rewrite !string_app_assoc.
    + injection Hrest as <- _. eexists. by rewrite !string_app_assoc.
Qed.

Lemma else_if_chain_witness :
  let foo := VariableReferenceNode (IdentifierNode "foo") (Some "foo") in
  let bar := VariableReferenceNode (IdentifierNode "bar") (Some "bar") in
  let test n := BinaryExpressionNode "===" foo (LiteralNode (LNumber n)) in
  let body s := StatementListNode [SetDirectiveNode bar (LiteralNode (LString s))] in
  serialize
    (new_IfDirectiveNode (test 1%N) (body "def")
       (IfDirectiveNode (test 2%N) (body "ghi") Null false))
    (new_SerializationContext LF)
  = (Ok "#if( $foo === 1 )
  #set( $bar = 'def' )
#elseif( $foo === 2 )
  #set( $bar = 'ghi' )
#end
", new_SerializationContext LF).
Proof.
  cbn zeta.
  refine (proj1 (else_if_chain_rendering _ _ _ _ _ false (new_SerializationContext LF)
                   "$foo === 1" "  #set( $bar = 'def' )
" "#elseif( $foo === 2 )
  #set( $bar = 'ghi' )
#end
" _ _ _)); vm_compute; reflexivity.
Defined.

End serializer_composition.

Section serializer_exceptions.
Import Vtl.

Lemma mapM_throw {A B} (f : A → outcome B) l e :
  mapM f l = Throw e → Exists (λ x, f x = Throw e) l.
Proof.
  induction l as [|x l IH]; cbn; [done|]. unfold mbind, outcome_bind.
  destruct (f x) as [y|e'] eqn:E; cbn.
  - destruct (mapM f l); cbn; [done|]. intros [= ->]. right. by apply IH.
  - intros [= ->]. by left.
Qed.

Lemma mapM_ok {A B} (f : A → outcome B) l :
  Forall (λ x, ∃ y, f x = Ok y) l → ∃ ys, mapM f l = Ok ys.
Proof.
  induction 1 as [|x l [y Hy] _ [ys Hys]]; cbn; [by eexists|].
  unfold mbind, outcome_bind. rewrite Hy. cbn. rewrite Hys. cbn. by eexists.
Qed.

Lemma template_throw n e :
  template toString n = Throw e → toString n = Throw e.
Proof. by destruct n. Qed.

Lemma element_throw n e :
  element toString n = Throw e → toString n = Throw e.
Proof. by destruct n. Qed.

(** [toString] fails only by calling a method on [null] or [undefined]. *)
Lemma toString_throws_TypeError n :
  ∀ e, toString n = Throw e → ∃ m, e = TypeError m.
Proof.
  induction n using node_nested_ind; intros e; cbn [toString];
    unfold mbind, outcome_bind; try done.
  - intros [= <-]. by eexists.
  - intros [= <-]. by eexists.
  - destruct (toString n1) eqn:E1; cbn; [|intros [= <-]; by eapply IHn1].
    destruct (toString n2) eqn:E2; cbn; [done|intros [= <-]; by eapply IHn2].
  - by destruct s as [s|]; [case_bool_decide|].
  - destruct (mapM _ params) eqn:Ep; cbn.
    + destruct (template toString n) eqn:En; cbn; [done|].
      intros [= <-]. apply template_throw in En. by eapply IHn.
    + intros [= <-]. apply mapM_throw in Ep.
      apply Exists_exists in Ep as (arr & Harr & Hthrow).
      destruct (mapM (element toString) arr) eqn:Ea; cbn in Hthrow; [done|].
      injection Hthrow as <-. apply mapM_throw in Ea.
      apply Exists_exists in Ea as (x & Hx & Hxt). apply element_throw in Hxt.
      rewrite Forall_forall in H. specialize (H arr Harr).
      rewrite Forall_forall in H. by eapply H.
  - destruct (template toString n1) eqn:E1; cbn;
      [|intros [= <-]; apply template_throw in E1; by eapply IHn1].
    destruct (template toString n2) eqn:E2; cbn; [done|].
    intros [= <-]. apply template_throw in E2. by eapply IHn2.
  - destruct (template toString n1) eqn:E1; cbn;
      [|intros [= <-]; apply template_throw in E1; by eapply IHn1].
    destruct (template toString n2) eqn:E2; cbn; [done|].
    intros [= <-]. apply template_throw in E2. by eapply IHn2.
  - by destruct m as [s|]; [case_bool_decide|].
  - destruct (template toString n) eqn:E1; cbn; [done|].
    intros [= <-]. apply template_throw in E1. by eapply IHn.
  - destruct s; [done|].
    destruct (template toString n) eqn:E1; cbn; [done|].
    intros [= <-]. apply template_throw in E1. by eapply IHn.
  - destruct (mapM _ l) eqn:El; cbn; [done|]. intros [= <-].
    apply mapM_throw in El. apply Exists_exists in El as (x & Hx & Hxt).
    apply template_throw in Hxt. rewrite Forall_forall in H. by eapply H.
  - destruct (mapM _ l) eqn:El; cbn; [done|]. intros [= <-].
    apply mapM_throw in El. apply Exists_exists in El as ([k v] & Hx & Hxt).
    cbn in Hxt. destruct (template toString v) eqn:Ev; cbn in Hxt; [done|].
    injection Hxt as <-. apply template_throw in Ev.
    rewrite Forall_forall in H. by eapply (H (k, v)).
Qed.

Lemma lift_throw {A} (o : outcome A) context e context' :
  lift o context = (Throw e, context') → o = Throw e ∧ context' = context.
Proof. unfold lift. by intros [= -> ->]. Qed.

Lemma throws_safely_lift n :
  (∀ context, serialize n context = lift (toString n) context) → throws_safely n.
Proof.
  intros Heq context e context' _. rewrite Heq. intros [Ht ->]%lift_throw.
  split; [by eapply toString_throws_TypeError|]. done.
Qed.

Lemma throws_safely_line n :
  (∀ context, serialize n context = serialize_line n context) → throws_safely n.
Proof.
  intros Heq context e context' Hlevel. rewrite Heq.
  unfold serialize_line, mbind, Ser_bind, ask, lift, mret, Ser_ret, indentation.
  rewrite bool_decide_eq_false_2 by lia.
  destruct (toString n) eqn:Et; [done|]. intros [= <- <-].
  split; [by eapply toString_throws_TypeError|]. done.
Qed.

Lemma throws_safely_statements l :
  Forall throws_safely l →
  ∀ str context e context',
    (0 ≤ indentLevel context)%Z →
    serialize_statements serialize l str context = (Throw e, context') →
    (∃ m, e = TypeError m) ∧
    (indentLevel context ≤ indentLevel context')%Z ∧
    eol context' = eol context ∧ indentString context' = indentString context.
Proof.
  induction 1 as [|n l Hn _ IH]; intros str context e context' Hlevel; cbn; [done|].
  unfold mbind, Ser_bind.
  destruct (serialize n context) as [[s|e1] c1] eqn:E1.
  - apply serialize_ok_context in E1 as ->. by apply IH.
  - intros [= <- <-]. by eapply Hn.
Qed.

(** With a non-negative indent level, whatever [serialize] throws is a
    [TypeError]; the exception leaves the level at or above its value at
    entry and the line ending and indent unit as they were. *)
Lemma serialize_throws_safely n : throws_safely n.
Proof.
  induction n using node_nested_ind;
    try (apply throws_safely_lift; intros; reflexivity);
    try (apply throws_safely_line; intros; reflexivity).
  - intros context e context' _ [= <- <-]. split; [by eexists|done].
  - intros context e context' _ [= <- <-]. split; [by eexists|done].
  - (* ForEachDirectiveNode *)
    intros context e context' Hlevel. cbn [serialize].
    unfold mbind, Ser_bind, ask, lift, modify, mret, Ser_ret.
    destruct (template toString n1) eqn:E1;
      [|intros [= <- <-]; apply template_throw in E1;
        split; [by eapply toString_throws_TypeError|done]].
    destruct (template toString n2) eqn:E2;
      [|intros [= <- <-]; apply template_throw in E2;
        split; [by eapply toString_throws_TypeError|done]].
    destruct (serialize n3 (indent 1 context)) as [[b|e3] c3] eqn:E3; [done|].
    intros [= <- <-]. apply IHn3 in E3 as (Hm & Hl & He & Hi); [|cbn; lia].
    cbn in Hl, He, Hi. split; [done|]. split; [lia|done].
  - (* IfDirectiveNode *)
    intros context e context' Hlevel. cbn [serialize].
    unfold mbind, Ser_bind, ask, lift, modify, mret, Ser_ret.
    destruct (serialize n1 context) as [[t|e1] c1] eqn:E1;
      [|intros [= <- <-]; by eapply IHn1].
    apply serialize_ok_context in E1 as ->.
    destruct (serialize n2 (indent 1 context)) as [[c|e2] c2] eqn:E2.
    + apply serialize_ok_context in E2 as ->. rewrite dedent_indent.
      destruct (truthy n3); [|done].
      destruct (read_isElseIf n3).
      * destruct (serialize n3 context) as [[a|e3] c3] eqn:E3; [done|].
        intros [= <- <-]. by eapply IHn3.
      * destruct (serialize n3 (indent 1 context)) as [[a|e3] c3] eqn:E3; [done|].
        intros [= <- <-]. apply IHn3 in E3 as (Hm & Hl & He & Hi); [|cbn; lia].
        cbn in Hl, He, Hi. split; [done|]. split; [lia|done].
    + intros [= <- <-]. apply IHn2 in E2 as (Hm & Hl & He & Hi); [|cbn; lia].
      cbn in Hl, He, Hi. split; [done|]. split; [lia|done].
  - (* StatementListNode *)
    intros context e context' Hlevel. cbn [serialize].
    by apply throws_safely_statements.
Qed.

(** X3. With a non-negative indent level, the only exception [serialize]
    can throw is a [TypeError] (a method called on a [null] or [undefined]
    child): it never throws an [Error] or a [RangeError].  The exception
    leaves the indent level at or above its value at entry, never below,
    and the line ending and the indent unit unchanged. *)
Theorem serialize_exception_is_TypeError n context e context' :
  (0 ≤ indentLevel context)%Z →
  serialize n context = (Throw e, context') →
  (∃ m, e = TypeError m) ∧
  (indentLevel context ≤ indentLevel context')%Z ∧
  eol context' = eol context ∧ indentString context' = indentString context.
Proof. intros Hlevel Hthrow. by eapply serialize_throws_safely. Qed.

Lemma serialize_exception_witness :
  (∃ m, cannot_read "null" "serialize" = TypeError m) ∧
  (indentLevel (new_SerializationContext LF)
   ≤ indentLevel (indent 1 (new_SerializationContext LF)))%Z ∧
  eol (indent 1 (new_SerializationContext LF)) = eol (new_SerializationContext LF) ∧
  indentString (indent 1 (new_SerializationContext LF))
  = indentString (new_SerializationContext LF).
Proof.
  apply (serialize_exception_is_TypeError
           (ForEachDirectiveNode (IdentifierNode "item") (IdentifierNode "array")
                                 (StatementListNode [Null]))
           (new_SerializationContext LF)).
  - simpl. lia.
  - vm_compute. reflexivity.
Defined.

Lemma all_nodes_Forall (P : node → Prop) l : all_nodes P l ↔ Forall P l.
Proof.
  induction l as [|x l IH]; cbn; [by split; [constructor|]|].
  rewrite Forall_cons. by rewrite IH.
Qed.

Lemma template_renderable v :
  (renderable v → ∃ s, toString v = Ok s) →
  or_absent renderable v → ∃ s, template toString v = Ok s.
Proof. destruct v; cbn; intros H Hv; first [by eexists | by apply H]. Qed.

Lemma element_renderable v :
  (renderable v → ∃ s, toString v = Ok s) →
  or_absent renderable v → ∃ s, element toString v = Ok s.
Proof. destruct v; cbn; intros H Hv; first [by eexists | by apply H]. Qed.

Lemma mapM_template_renderable l :
  Forall (λ v, renderable v → ∃ s, toString v = Ok s) l →
  all_nodes (or_absent renderable) l →
  ∃ ss, mapM (template toString) l = Ok ss.
Proof.
  intros IH Hl%all_nodes_Forall. apply mapM_ok.
  apply Forall_forall. intros v Hv. rewrite Forall_forall in IH, Hl.
  apply template_renderable; auto.
Qed.

(** [toString] returns on a tree without [null] or [undefined] where a
    method is called. *)
Lemma toString_renderable n : renderable n → ∃ s, toString n = Ok s.
Proof.
  induction n using node_nested_ind; cbn [renderable toString];
    unfold mbind, outcome_bind; try done; try (intros _; by eexists).
  - intros [[s1 ->]%IHn1 [s2 ->]%IHn2]. cbn. by eexists.
  - intros _. destruct s as [s|]; [case_bool_decide|]; by eexists.
  - intros [Hp Hparams].
    assert (∃ strs, mapM (λ arr, obind (mapM (element toString) arr)
                                   (λ es, Ok (join "," es))) params = Ok strs)
      as [strs ->].
    { apply mapM_ok. clear Hp. induction H as [|arr params Harr _ IH]; [constructor|].
      destruct Hparams as [Ha Hrest]. constructor; [|by apply IH].
      assert (∃ es, mapM (element toString) arr = Ok es) as [es ->].
      { apply mapM_ok. apply all_nodes_Forall in Ha.
        apply Forall_forall. intros v Hv. rewrite Forall_forall in Harr, Ha.
        apply element_renderable; auto. }
      cbn. by eexists. }
    cbn. destruct (template_renderable n IHn Hp) as [p ->]. cbn. by eexists.
  - intros [H1 H2].
    destruct (template_renderable n1 IHn1 H1) as [r ->]. cbn.
    destruct (template_renderable n2 IHn2 H2) as [p ->]. cbn. by eexists.
  - intros [H1 H2].
    destruct (template_renderable n1 IHn1 H1) as [r ->]. cbn.
    destruct (template_renderable n2 IHn2 H2) as [p ->]. cbn. by eexists.
  - intros _. destruct m as [s|]; [case_bool_decide|]; by eexists.
  - intros H1. destruct (template_renderable n IHn H1) as [a ->]. cbn. by eexists.
  - intros H1. destruct s; [by eexists|].
    destruct (template_renderable n IHn H1) as [a ->]. cbn. by eexists.
  - intros Hl. destruct (mapM_template_renderable l H Hl) as [ss ->]. cbn. by eexists.
  - intros Hl.
    assert (∃ es, mapM (λ kv : node * node,
                          obind (template toString kv.2)
                                (λ v, Ok (map_key kv.1 +:+ ": " +:+ v))) l = Ok es)
      as [es ->].
    { apply mapM_ok. induction H as [|[k v] l [_ Hv] _ IH]; [constructor|].
      destruct Hl as [Hkv Hrest]. constructor; [|by apply IH].
      cbn in *. destruct (template_renderable v Hv Hkv) as [sv ->]. cbn. by eexists. }
    cbn. by eexists.
Qed.

Lemma serialize_line_renderable n context :
  renderable n → (0 ≤ indentLevel context)%Z →
  ∃ s, serialize_line n context = (Ok s, context).
Proof.
  intros [t Ht]%toString_renderable Hlevel.
  unfold serialize_line, mbind, Ser_bind, ask, lift, mret, Ser_ret, indentation.
  rewrite bool_decide_eq_false_2 by lia. rewrite Ht. by eexists.
Qed.

Lemma serialize_statements_renderable l :
  Forall (λ n, renderable n → ∀ context, (0 ≤ indentLevel context)%Z →
               ∃ s, serialize n context = (Ok s, context)) l →
  all_nodes renderable l →
  ∀ str context, (0 ≤ indentLevel context)%Z →
    ∃ s, serialize_statements serialize l str context = (Ok s, context).
Proof.
  induction 1 as [|n l Hn _ IH]; cbn; intros Hl str context Hlevel; [by eexists|].
  destruct Hl as [Hr Hrest]. unfold mbind, Ser_bind.
  destruct (Hn Hr context Hlevel) as [s ->]. by apply IH.
Qed.

(** [serialize] returns, and leaves the context as it found it, on a tree
    without [null] or [undefined] where a method is called, when the indent
    level is not negative. *)
Lemma serialize_renderable n :
  renderable n → ∀ context, (0 ≤ indentLevel context)%Z →
  ∃ s, serialize n context = (Ok s, context).
Proof.
  induction n using node_nested_ind; intros Hr context Hlevel;
    try done;
    try (by apply serialize_line_renderable);
    try (apply toString_renderable in Hr as [out Hout]; exists out;
         cbn [serialize]; unfold lift; by rewrite Hout).
  - (* ForEachDirectiveNode *)
    destruct Hr as (H1 & H2 & H3). cbn [serialize].
    unfold mbind, Ser_bind, ask, lift, modify, mret, Ser_ret.
    destruct (template_renderable n1 (toString_renderable n1) H1) as [i ->].
    destruct (template_renderable n2 (toString_renderable n2) H2) as [it ->].
    destruct (IHn3 H3 (indent 1 context)) as [b ->]; [cbn; lia|].
    rewrite dedent_indent. by eexists.
  - (* IfDirectiveNode *)
    destruct Hr as (H1 & H2 & H3). cbn [serialize].
    unfold mbind, Ser_bind, ask, lift, modify, mret, Ser_ret.
    destruct (IHn1 H1 context Hlevel) as [t ->].
    destruct (IHn2 H2 (indent 1 context)) as [c ->]; [cbn; lia|].
    rewrite dedent_indent.
    destruct (truthy n3) eqn:Et; [|by eexists].
    assert (renderable n3) as H3' by (by destruct n3).
    destruct (read_isElseIf n3).
    + destruct (IHn3 H3' context Hlevel) as [a ->]. by eexists.
    + destruct (IHn3 H3' (indent 1 context)) as [a ->]; [cbn; lia|].
      rewrite dedent_indent. by eexists.
  - (* StatementListNode *)
    cbn [serialize]. by apply serialize_statements_renderable.
Qed.

(** X4. On a tree in which no method is called on [null] or [undefined],
    serialized with a non-negative indent level, [serialize] returns text
    and leaves the context exactly as it found it; [toString] returns on
    such a tree as well. *)
Theorem serialize_returns_on_renderable n context :
  renderable n →
  (0 ≤ indentLevel context)%Z →
  (∃ s, serialize n context = (Ok s, context)) ∧ (∃ s, toString n = Ok s).
Proof.
  intros Hr Hlevel. split; [by apply serialize_renderable | by apply toString_renderable].
Qed.

Lemma serialize_returns_witness :
  let n := StatementListNode
             [SetDirectiveNode (VariableReferenceNode (IdentifierNode "x") (Some "x"))
                (BinaryExpressionNode "+" (LiteralNode (LNumber 1)) (LiteralNode (LNumber 2)))] in
  (∃ s, serialize n (new_SerializationContext LF) = (Ok s, new_SerializationContext LF)) ∧
  (∃ s, toString n = Ok s).
Proof.
  cbn zeta. apply serialize_returns_on_renderable.
  - simpl. repeat split.
  - simpl. lia.
Defined.

End serializer_exceptions.

(** ** Induction on source statements *)

Section statement_induction.
Import Js.
Context (P : statement → Prop).
Hypothesis HBlock : ∀ loc body, Forall P body → P (BlockStatement loc body).
Hypothesis HExpression : ∀ loc e, P (ExpressionStatement loc e).
Hypothesis HForOf : ∀ loc l r body, P l → P body → P (ForOfStatement loc l r body).
Hypothesis HIf : ∀ loc test consequent alternate,
  P consequent → (∀ a, alternate = Some a → P a) →
  P (IfStatement loc test consequent alternate).
Hypothesis HSwitch : ∀ loc d cases,
  Forall (λ c, match c with SwitchCase _ _ consequent => Forall P consequent end) cases →
  P (SwitchStatement loc d cases).
Hypothesis HDeclaration : ∀ loc declarations, P (VariableDeclaration loc declarations).
Hypothesis HUnsupported : ∀ loc kind, P (Unsupported loc kind).

Lemma statement_nested_ind (s : statement) : P s.
Proof using All.
  revert s. fix IH 1. intros [].
  - apply HBlock. induction body as [|x l IHl]; constructor; [apply IH | exact IHl].
  - apply HExpression.
  - apply HForOf; apply IH.
  - apply HIf; [apply IH|]. destruct alternate as [a|]; intros a' [= <-]. apply IH.
  - apply HSwitch. induction cases as [|[cloc test consequent] l IHl]; constructor;
      [|exact IHl].
    induction consequent as [|x l' IHl']; constructor; [apply IH | exact IHl'].
  - apply HDeclaration.
  - apply HUnsupported.
Qed.
End statement_induction.

(** * The walker produces trees that the serializer accepts *)

Section walker_renderable.
Import Vtl Js Walker.

Lemma all_nodes_app (P : node → Prop) l1 l2 :
  all_nodes P (l1 ++ l2) ↔ all_nodes P l1 ∧ all_nodes P l2.
Proof. rewrite !all_nodes_Forall. apply Forall_app. Qed.

Lemma all_values_app (P : node → Prop) l1 l2 :
  all_values P (l1 ++ l2) ↔ all_values P l1 ∧ all_values P l2.
Proof. induction l1 as [|kv l1 IH]; cbn; [tauto|]. rewrite IH. tauto. Qed.

Lemma renderable_or_absent v : renderable v → or_absent renderable v.
Proof. by destruct v. Qed.

Lemma nonDeclVarRef_or_absent v st loc r :
  nonDeclVarRef v st loc = Ok r → or_absent renderable v → or_absent renderable r.
Proof.
  intros H Hv. apply nonDeclVarRef_ok in H. destruct v; try by subst.
  by destruct H as (tbl & target & _ & _ & ->).
Qed.

Lemma nonDeclVarRef_renderable v st loc r :
  nonDeclVarRef v st loc = Ok r → renderable v → renderable r.
Proof.
  intros H Hv. apply nonDeclVarRef_ok in H. destruct v; try by subst.
  by destruct H as (tbl & target & _ & _ & ->).
Qed.

Lemma declVarRef_renderable v st r st' :
  declVarRef v st = Ok (r, st') → renderable v → renderable r.
Proof.
  unfold declVarRef. destruct v; try by intros [= <- _].
  destruct (scope st); [|done]. destruct (SymbolTable.symbol _ _). by intros [= <- _].
Qed.

Lemma new_PropertyReferenceNode_renderable receiver property n :
  new_PropertyReferenceNode receiver property = Ok n →
  renderable receiver → renderable property → renderable n.
Proof.
  intros Hnew Hr Hp%renderable_or_absent.
  destruct receiver; cbn in Hnew; try (injection Hnew as <-; by split).
  destruct receiver; try done; injection Hnew as <-; by split.
Qed.

Lemma new_IfDirectiveNode_renderable test consequent alternate :
  renderable test → renderable consequent → or_absent renderable alternate →
  renderable (new_IfDirectiveNode test consequent alternate).
Proof. intros Ht Hc Ha. by destruct alternate. Qed.

Lemma visit_elements_renderable loc elements :
  Forall (λ o, ∀ e, o = Some e →
               ∀ st st', visitExpression e st = Ok st' → renderable (lastChild st'))
         elements →
  ∀ array st array' st',
    all_nodes (or_absent renderable) array →
    visit_elements visitExpression loc elements array st = Ok (array', st') →
    all_nodes (or_absent renderable) array'.
Proof.
  induction 1 as [|[x|] l Hx _ IH]; intros array st array' st' Harray; cbn.
  - by intros [= <- _].
  - unfold mbind, outcome_bind.
    destruct (visitExpression x st) as [st1|] eqn:E1; [cbn|done].
    destruct (nonDeclVarRef _ _ _) as [v|] eqn:Ev; [cbn|done].
    apply IH. apply all_nodes_app. split; [done|]. split; [|done].
    eapply nonDeclVarRef_or_absent; [done|]. apply renderable_or_absent. by eapply Hx.
  - done.
Qed.

Lemma visit_arguments_renderable arguments :
  Forall (λ e, ∀ st st', visitExpression e st = Ok st' → renderable (lastChild st'))
         arguments →
  ∀ st values st',
    visit_arguments visitExpression arguments st = Ok (values, st') →
    all_nodes (or_absent renderable) values.
Proof.
  induction 1 as [|x l Hx _ IH]; intros st values st'; cbn.
  - by intros [= <- _].
  - unfold mbind, outcome_bind.
    destruct (visitExpression x st) as [st1|] eqn:E1; [cbn|done].
    destruct (nonDeclVarRef _ _ _) as [v|] eqn:Ev; [cbn|done].
    destruct (visit_arguments visitExpression l st1) as [[vs st2]|] eqn:E2; [cbn|done].
    intros [= <- _]. split; [|by eapply IH].
    eapply nonDeclVarRef_or_absent; [done|]. apply renderable_or_absent. by eapply Hx.
Qed.

Lemma visit_properties_renderable properties :
  Forall (λ p, match p with
               | Property _ _ key _ _ value =>
                   (∀ st st', visitExpression key st = Ok st' → renderable (lastChild st')) ∧
                   (∀ st st', visitExpression value st = Ok st' → renderable (lastChild st'))
               end) properties →
  ∀ map st map' st',
    all_values (or_absent renderable) map →
    visit_properties visitProperty properties map st = Ok (map', st') →
    all_values (or_absent renderable) map'.
Proof.
  induction 1 as [|[loc computed key method kind value] l [Hk Hv] _ IH];
    intros map st map' st' Hmap; cbn [visit_properties].
  - by intros [= <- _].
  - unfold mbind, outcome_bind.
    destruct (visitProperty _ map st) as [[map1 st1]|] eqn:E1; [cbn|done].
    apply IH.
    cbn [visitProperty] in E1. unfold mbind, outcome_bind in E1.
    destruct computed; [by rewrite reportError_message in E1|].
    destruct (visitExpression key st) as [st2|] eqn:E2; [cbn in E1|done].
    destruct method; [by rewrite reportError_message in E1|].
    destruct kind; try by rewrite reportError_message in E1.
    destruct (visitExpression value st2) as [st3|] eqn:E3; [cbn in E1|done].
    destruct (nonDeclVarRef _ _ _) as [v|] eqn:Ev; [cbn in E1|done].
    injection E1 as <- <-. apply all_values_app. split; [done|]. split; [|done].
    cbn. eapply nonDeclVarRef_or_absent; [done|]. apply renderable_or_absent. by eapply Hv.
Qed.

Lemma visitExpression_renderable e :
  ∀ st st', visitExpression e st = Ok st' → renderable (lastChild st').
Proof.
  induction e using expression_nested_ind; intros st st'; cbn [visitExpression];
    unfold mbind, outcome_bind, unsupported.
  - destruct (visit_elements _ _ _ _ _) as [[array st1]|] eqn:E; [cbn|done].
    intros [= <-]. cbn. by eapply visit_elements_renderable in E.
  - destruct (visitExpression e1 st) as [st1|] eqn:E1; [cbn|done].
    destruct (visitExpression e2 st1) as [st2|] eqn:E2; [cbn|done].
    intros [= <-]. cbn. split; [by eapply IHe1 | by eapply IHe2].
  - destruct (visitExpression e1 st) as [st1|] eqn:E1; [cbn|done].
    destruct (nonDeclVarRef _ _ _) as [L|] eqn:EL; [cbn|done].
    destruct (visitExpression e2 st1) as [st2|] eqn:E2; [cbn|done].
    destruct (nonDeclVarRef (lastChild st2) _ _) as [R|] eqn:ER; [cbn|done].
    intros [= <-]. cbn. split.
    + eapply nonDeclVarRef_renderable; [done|]. by eapply IHe1.
    + eapply nonDeclVarRef_renderable; [done|]. by eapply IHe2.
  - destruct (visitExpression e st) as [st1|] eqn:E1; [cbn|done].
    destruct (is_MemberExpression e);
      [|case_bool_decide; by rewrite reportError_message].
    destruct (visit_arguments _ _ _) as [[values st2]|] eqn:E2; [cbn|done].
    intros [= <-]. cbn. split; [apply renderable_or_absent; by eapply IHe|].
    split; [|done]. by eapply visit_arguments_renderable.
  - by rewrite reportError_message.
  - by intros [= <-].
  - by intros [= <-].
  - destruct (visitExpression e1 st) as [st1|] eqn:E1; [cbn|done].
    destruct (visitExpression e2 st1) as [st2|] eqn:E2; [cbn|done].
    destruct (new_PropertyReferenceNode _ _) as [n|] eqn:En; [cbn|done].
    intros [= <-]. cbn.
    eapply new_PropertyReferenceNode_renderable; [done|by eapply IHe1|by eapply IHe2].
  - destruct (visit_properties _ _ _ _) as [[map st1]|] eqn:E; [cbn|done].
    intros [= <-]. cbn. by eapply visit_properties_renderable in E.
  - by rewrite reportError_message.
  - destruct (visitExpression e st) as [st1|] eqn:E1; [cbn|done].
    intros [= <-]. cbn. apply renderable_or_absent. by eapply IHe.
Qed.

Lemma visit_each_renderable {A} (visit : A → state → outcome state) body :
  Forall (λ x, ∀ st st', visit x st = Ok st' → renderable (lastChild st')) body →
  ∀ statements st statements' st',
    all_nodes renderable statements →
    visit_each visit body statements st = Ok (statements', st') →
    all_nodes renderable statements'.
Proof.
  induction 1 as [|x l Hx _ IH]; intros statements st statements' st' Hacc; cbn.
  - by intros [= <- _].
  - unfold mbind, outcome_bind. destruct (visit x st) as [st1|] eqn:E1; [cbn|done].
    apply IH. apply all_nodes_app. split; [done|]. split; [by eapply Hx|done].
Qed.

Lemma visitDeclarator_renderable d :
  ∀ st st', visitDeclarator d st = Ok st' → renderable (lastChild st').
Proof.
  destruct d as [loc id init]. intros st st'. cbn [visitDeclarator].
  unfold mbind, outcome_bind.
  destruct (visitExpression id st) as [st1|] eqn:E1; [cbn [obind]|done].
  apply visitExpression_renderable in E1.
  destruct (declVarRef _ st1) as [[reference st2]|] eqn:Ed; [cbn [obind]|done].
  pose proof (declVarRef_renderable _ _ _ _ Ed E1) as Href.
  destruct init as [e|].
  - destruct (visitExpression e st2) as [st3|] eqn:E3; [cbn [obind]|done].
    intros [= <-]. cbn. split; apply renderable_or_absent; [done|].
    by eapply visitExpression_renderable.
  - intros [= <-]. by rewrite (declVarRef_lastChild _ _ _ _ Ed).
Qed.

Lemma first_statement_or_absent v iterator :
  first_statement v = Ok iterator → renderable v → or_absent renderable iterator.
Proof.
  destruct v; try done. destruct statements as [|s l]; cbn.
  - by intros [= <-].
  - intros [= <-] [Hs _]. by apply renderable_or_absent.
Qed.

Lemma visit_consequent_renderable consequent :
  Forall (λ s, ∀ st st', visitStatement s st = Ok st' → renderable (lastChild st'))
         consequent →
  ∀ acc st stmts canFallthrough st',
    all_nodes renderable acc →
    visit_consequent visitStatement consequent acc st = Ok (stmts, canFallthrough, st') →
    all_nodes renderable stmts.
Proof.
  induction 1 as [|s l Hs _ IH]; intros acc st stmts cf st' Hacc; cbn.
  - by intros [= <- _ _].
  - destruct (is_BreakStatement s); [by intros [= <- _ _]|].
    unfold mbind, outcome_bind.
    destruct (visitStatement s st) as [st1|] eqn:E1; [cbn|done].
    apply IH. apply all_nodes_app. split; [done|]. split; [by eapply Hs|done].
Qed.

Lemma visit_case_renderable refs c :
  match c with
  | SwitchCase _ _ consequent =>
      Forall (λ s, ∀ st st', visitStatement s st = Ok st' → renderable (lastChild st'))
             consequent
  end →
  renderable (matched refs) → renderable (fallthrough refs) →
  renderable (discriminant refs) →
  ∀ st directive st',
    visit_case visitStatement refs c st = Ok (directive, st') → renderable directive.
Proof.
  destruct c as [loc test consequent]. intros Hcons Hm Hf Hd st directive st'.
  cbn [visit_case]. unfold mbind, outcome_bind.
  destruct test as [t|].
  - destruct (visitExpression t st) as [st1|] eqn:E1; [cbn [obind]|done].
    destruct (visit_consequent _ _ _ _) as [[[stmts cf] st2]|] eqn:E2; [cbn [obind]|done].
    intros [= <- _]. apply new_IfDirectiveNode_renderable; [| |done].
    + cbn. split; [done|]. split; [done|]. by eapply visitExpression_renderable.
    + cbn. rewrite !all_nodes_app. cbn.
      split; [split|]; [|by apply renderable_or_absent in Hm
                         |by apply renderable_or_absent in Hf].
      by eapply visit_consequent_renderable in E2.
  - cbn [obind].
    destruct (visit_consequent _ _ _ _) as [[[stmts cf] st2]|] eqn:E2; [cbn [obind]|done].
    intros [= <- _]. apply new_IfDirectiveNode_renderable; [| |done].
    + cbn. split; [done|]. by apply renderable_or_absent.
    + cbn. rewrite !all_nodes_app. cbn.
      split; [split|]; [|by apply renderable_or_absent in Hm
                         |by apply renderable_or_absent in Hf].
      by eapply visit_consequent_renderable in E2.
Qed.

Lemma visit_cases_renderable refs cases :
  Forall (λ c, match c with
               | SwitchCase _ _ consequent =>
                   Forall (λ s, ∀ st st', visitStatement s st = Ok st' →
                                          renderable (lastChild st')) consequent
               end) cases →
  renderable (matched refs) → renderable (fallthrough refs) →
  renderable (discriminant refs) →
  ∀ acc st stmts st',
    all_nodes renderable acc →
    visit_cases visitStatement refs cases acc st = Ok (stmts, st') →
    all_nodes renderable stmts.
Proof.
  intros Hcases Hm Hf Hd.
  induction Hcases as [|c l Hc _ IH]; intros acc st stmts st' Hacc; cbn [visit_cases].
  - by intros [= <- _].
  - unfold mbind, outcome_bind.
    destruct (visit_case _ _ _ _) as [[directive st1]|] eqn:E1; [cbn [obind]|done].
    apply IH. apply all_nodes_app. split; [done|]. split; [|done].
    by eapply visit_case_renderable.
Qed.

Lemma declVarRef_Identifier_renderable name st r st' :
  declVarRef (IdentifierNode name) st = Ok (r, st') → renderable r.
Proof. intros H. by eapply declVarRef_renderable. Qed.

(** Every node that a statement visit leaves in [state.lastChild] can be
    serialized. *)
Lemma visitStatement_renderable s :
  ∀ st st', visitStatement s st = Ok st' → renderable (lastChild st').
Proof.
  induction s as [loc body IH|loc e|loc l r body IHl IHb|loc test consequent alternate IHc IHa
                  |loc d cases IH|loc declarations|loc kind]
    using statement_nested_ind; intros st st'; cbn [visitStatement];
    unfold mbind, outcome_bind.
  - destruct (visit_each _ _ _ _) as [[stmts st1]|] eqn:E; [cbn [obind]|done].
    intros [= <-]. cbn. by eapply visit_each_renderable in E.
  - destruct (visitExpression e st) as [st1|] eqn:E1; [cbn [obind]|done].
    apply visitExpression_renderable in E1.
    destruct (is_AssignmentExpression e).
    + destruct (nonDeclVarRef _ _ _) as [reference|] eqn:Er; [cbn [obind]|done].
      intros [= <-]. cbn. split.
      * eapply nonDeclVarRef_or_absent; [done|]. destruct (lastChild st1); try done.
        cbn. apply renderable_or_absent. by destruct E1.
      * destruct (lastChild st1); try done. cbn. apply renderable_or_absent. by destruct E1.
    + destruct (nonDeclVarRef _ _ _) as [reference|] eqn:Er; [cbn [obind]|done].
      intros [= <-]. cbn. split; [|by apply renderable_or_absent].
      by eapply nonDeclVarRef_or_absent.
  - destruct (visitStatement l st) as [st1|] eqn:E1; [cbn [obind]|done].
    destruct (first_statement _) as [iterator|] eqn:Ef; [cbn [obind]|done].
    destruct (nonDeclVarRef iterator _ _) as [iteratorRef|] eqn:Ei; [cbn [obind]|done].
    destruct (visitExpression r st1) as [st2|] eqn:E2; [cbn [obind]|done].
    destruct (nonDeclVarRef (lastChild st2) _ _) as [iterableRef|] eqn:Eb; [cbn [obind]|done].
    destruct (visitStatement body st2) as [st3|] eqn:E3; [cbn [obind]|done].
    intros [= <-]. cbn. split; [|split].
    + eapply nonDeclVarRef_or_absent; [done|].
      eapply first_statement_or_absent; [done|]. by eapply IHl.
    + eapply nonDeclVarRef_or_absent; [done|]. apply renderable_or_absent.
      by eapply visitExpression_renderable.
    + by eapply IHb.
  - destruct (visitExpression test st) as [st1|] eqn:E1; [cbn [obind]|done].
    destruct (visitStatement consequent st1) as [st2|] eqn:E2; [cbn [obind]|done].
    destruct alternate as [a|]; [|done].
    destruct (visitStatement a st2) as [st3|] eqn:E3; [cbn [obind]|done].
    intros [= <-]. cbn [lastChild set_lastChild].
    apply new_IfDirectiveNode_renderable.
    + by eapply visitExpression_renderable.
    + by eapply IHc.
    + apply renderable_or_absent. by eapply IHa.
  - destruct (visitExpression d st) as [st1|] eqn:E1; [cbn [obind]|done].
    destruct (declVarRef _ st1) as [[m st2]|] eqn:Em; [cbn [obind]|done].
    destruct (declVarRef _ st2) as [[f st3]|] eqn:Ef; [cbn [obind]|done].
    destruct (declVarRef _ st3) as [[dd st4]|] eqn:Ed; [cbn [obind]|done].
    destruct (visit_cases _ _ _ _ _) as [[stmts st5]|] eqn:Ec; [cbn [obind]|done].
    intros [= <-]. cbn [lastChild set_lastChild renderable].
    apply declVarRef_Identifier_renderable in Em as Hm.
    apply declVarRef_Identifier_renderable in Ef as Hf.
    pose proof (declVarRef_Identifier_renderable _ _ _ _ Ed) as Hd.
    eapply visit_cases_renderable in Ec; try done.
    cbn. repeat split; try by apply renderable_or_absent.
    rewrite (declVarRef_lastChild _ _ _ _ Ed), (declVarRef_lastChild _ _ _ _ Ef),
      (declVarRef_lastChild _ _ _ _ Em).
    apply renderable_or_absent. by eapply visitExpression_renderable.
  - destruct (visit_each _ _ _ _) as [[stmts st1]|] eqn:E; [cbn [obind]|done].
    intros [= <-]. cbn. eapply visit_each_renderable in E; [done| |done].
    apply Forall_forall. intros x _. apply visitDeclarator_renderable.
  - by rewrite reportError_message.
Qed.

(** X5. For a program in which every node is of a kind that has an entry
    in [walkers] (the programs of [Js.program]), rendering never fails
    after the walk: when the walk of the program returns, [transpile]
    returns text, so every exception that [transpile] throws is the one the
    walk threw.  A node that the base visitor of [acorn-walk] handles, such
    as the empty statement of [;], builds nothing and is not covered. *)
Theorem transpile_fails_only_in_the_walk EOL ast env :
  let st := {| lastChild := Null; scope := None; env := env |} in
  (∀ st', visitProgram ast st = Ok st' → ∃ text, transpile EOL ast env = Ok text) ∧
  (∀ e, transpile EOL ast env = Throw e → visitProgram ast st = Throw e).
Proof.
  cbn zeta.
  assert (∀ st', visitProgram ast {| lastChild := Null; scope := None; env := env |}
                 = Ok st' → ∃ text, transpile EOL ast env = Ok text) as Hok.
  { intros st' Hvisit. unfold transpile. rewrite Hvisit. cbn [mbind outcome_bind obind].
    unfold visitProgram, mbind, outcome_bind in Hvisit.
    destruct (registerEnvGlobals _) as [st1|]; [cbn [obind] in Hvisit|done].
    destruct (visit_each _ _ _ _) as [[stmts st2]|] eqn:E; [cbn [obind] in Hvisit|done].
    injection Hvisit as <-. cbn [lastChild set_lastChild].
    eapply visit_each_renderable in E; [| |done].
    - destruct (serialize_renderable (StatementListNode stmts) E
                  (new_SerializationContext EOL)) as [text ->]; [cbn; lia|].
      by exists text.
    - apply Forall_forall. intros x _. apply visitStatement_renderable. }
  split; [done|].
  intros e Hthrow.
  destruct (visitProgram ast _) as [st'|e'] eqn:Hvisit.
  - destruct (Hok st' eq_refl) as [text Htext]. congruence.
  - unfold transpile in Hthrow. rewrite Hvisit in Hthrow.
    unfold mbind, outcome_bind in Hthrow. cbn [obind] in Hthrow.
    by injection Hthrow as ->.
Qed.

Lemma transpile_fails_only_in_the_walk_witness :
  ∃ text,
    transpile LF
      (Program None
         [VariableDeclaration None
            [VariableDeclarator None (Identifier None "x")
               (Some (Literal None (LNumber 1)))]]) None = Ok text.
Proof.
  apply (proj1 (transpile_fails_only_in_the_walk LF
                  (Program None
                     [VariableDeclaration None
                        [VariableDeclarator None (Identifier None "x")
                           (Some (Literal None (LNumber 1)))]]) None)
           {| lastChild :=
                StatementListNode
                  [StatementListNode
                     [SetDirectiveNode
                        (VariableReferenceNode (IdentifierNode "x") (Some "x"))
                        (LiteralNode (LNumber 1))]];
              scope := None; env := None |}).
  vm_compute. reflexivity.
Defined.

End walker_renderable.

(** * Further properties of the walker *)

Section walker_scopes.
Import Vtl Js Walker.

(** X6. Visiting an expression declares nothing and opens no scope: after
    the visit, and after an expression statement, the scope table and the
    environment of the walk are the ones before it. *)
Theorem expressions_leave_the_scope_alone e loc st :
  (∀ st', visitExpression e st = Ok st' → scope st' = scope st ∧ env st' = env st) ∧
  (∀ st', visitStatement (ExpressionStatement loc e) st = Ok st' →
          scope st' = scope st ∧ env st' = env st).
Proof.
  split.
  - intros st' H. by apply visitExpression_scope in H.
  - intros st'. cbn [visitStatement]. unfold mbind, outcome_bind.
    destruct (visitExpression e st) as [st1|] eqn:E1; [cbn [obind]|done].
    apply visitExpression_scope in E1.
    destruct (is_AssignmentExpression e);
      (destruct (nonDeclVarRef _ _ _); [cbn [obind]|done]); by intros [= <-].
Qed.

Lemma expressions_leave_the_scope_alone_witness :
  scope {| lastChild :=
             BinaryExpressionNode "+" (LiteralNode (LNumber 1)) (LiteralNode (LNumber 2));
           scope := Some SymbolTable.new; env := None |} = Some SymbolTable.new ∧
  env {| lastChild :=
           BinaryExpressionNode "+" (LiteralNode (LNumber 1)) (LiteralNode (LNumber 2));
         scope := Some SymbolTable.new; env := None |} = None.
Proof.
  apply (proj1 (expressions_leave_the_scope_alone
                  (BinaryExpression None "+" (Literal None (LNumber 1))
                                    (Literal None (LNumber 2)))
                  None
                  {| lastChild := Null; scope := Some SymbolTable.new; env := None |})).
  vm_compute. reflexivity.
Defined.

Lemma scope_grows_refl st : scope_grows st st.
Proof. split; [done|]. intros tbl ->. by exists tbl. Qed.

Lemma scope_grows_trans st1 st2 st3 :
  scope_grows st1 st2 → scope_grows st2 st3 → scope_grows st1 st3.
Proof.
  intros [He1 H1] [He2 H2]. split; [congruence|]. intros tbl Hs.
  destruct (H1 tbl Hs) as (tbl2 & Hs2 & Ha2 & Hf2).
  destruct (H2 tbl2 Hs2) as (tbl3 & Hs3 & Ha3 & Hf3).
  exists tbl3. split; [done|]. split; [congruence|]. auto.
Qed.

Lemma scope_grows_same st st' : same_scope st st' → scope_grows st st'.
Proof. intros [Hs He]. split; [done|]. intros tbl Ht. exists tbl. by rewrite Hs. Qed.

Lemma scope_grows_set_lastChild v st st' :
  scope_grows st st' → scope_grows st (set_lastChild v st').
Proof. done. Qed.

Lemma declVarRef_grows v st r st' :
  declVarRef v st = Ok (r, st') → scope_grows st st'.
Proof.
  unfold declVarRef. destruct v; try (intros [= _ <-]; apply scope_grows_refl).
  destruct (scope st) as [tbl|] eqn:Es; [|done]. cbn. intros [= _ <-].
  split; [done|]. intros tbl0. rewrite Es. intros [= <-]. eexists. split; [done|].
  split; [done|]. intros other Hother. cbn.
  destruct (decide (name = other)) as [->|Hne].
  - rewrite lookup_insert_eq. by eexists.
  - by rewrite lookup_insert_ne.
Qed.

Lemma visit_each_grows {A} (visit : A → state → outcome state) body :
  Forall (λ x, ∀ st st', visit x st = Ok st' → scope_grows st st') body →
  ∀ statements st statements' st',
    visit_each visit body statements st = Ok (statements', st') → scope_grows st st'.
Proof.
  induction 1 as [|x l Hx _ IH]; intros statements st statements' st'; cbn.
  - intros [= _ <-]. apply scope_grows_refl.
  - unfold mbind, outcome_bind. destruct (visit x st) as [st1|] eqn:E1; [cbn|done].
    intros H%IH. eapply scope_grows_trans; [by eapply Hx|done].
Qed.

Lemma visitDeclarator_grows d :
  ∀ st st', visitDeclarator d st = Ok st' → scope_grows st st'.
Proof.
  destruct d as [loc id init]. intros st st'. cbn [visitDeclarator].
  unfold mbind, outcome_bind.
  destruct (visitExpression id st) as [st1|] eqn:E1; [cbn [obind]|done].
  apply visitExpression_scope, scope_grows_same in E1.
  destruct (declVarRef _ st1) as [[reference st2]|] eqn:Ed; [cbn [obind]|done].
  apply declVarRef_grows in Ed.
  destruct init as [e|].
  - destruct (visitExpression e st2) as [st3|] eqn:E3; [cbn [obind]|done].
    apply visitExpression_scope, scope_grows_same in E3.
    intros [= <-]. apply scope_grows_set_lastChild.
    eapply scope_grows_trans; [done|]. by eapply scope_grows_trans.
  - intros [= <-]. by eapply scope_grows_trans.
Qed.

Lemma visit_consequent_grows consequent :
  Forall (λ s, ∀ st st', visitStatement s st = Ok st' → scope_grows st st') consequent →
  ∀ acc st stmts canFallthrough st',
    visit_consequent visitStatement consequent acc st = Ok (stmts, canFallthrough, st') →
    scope_grows st st'.
Proof.
  induction 1 as [|s l Hs _ IH]; intros acc st stmts cf st'; cbn.
  - intros [= _ _ <-]. apply scope_grows_refl.
  - destruct (is_BreakStatement s); [intros [= _ _ <-]; apply scope_grows_refl|].
    unfold mbind, outcome_bind.
    destruct (visitStatement s st) as [st1|] eqn:E1; [cbn|done].
    intros H%IH. eapply scope_grows_trans; [by eapply Hs|done].
Qed.

Lemma visit_cases_grows refs cases :
  Forall (λ c, match c with
               | SwitchCase _ _ consequent =>
                   Forall (λ s, ∀ st st', visitStatement s st = Ok st' →
                                          scope_grows st st') consequent
               end) cases →
  ∀ acc st stmts st',
    visit_cases visitStatement refs cases acc st = Ok (stmts, st') → scope_grows st st'.
Proof.
  induction 1 as [|[loc test consequent] l Hc _ IH]; intros acc st stmts st';
    cbn [visit_cases].
  - intros [= _ <-]. apply scope_grows_refl.
  - unfold mbind, outcome_bind.
    destruct (visit_case _ _ _ _) as [[directive st1]|] eqn:E1; [cbn [obind]|done].
    intros H%IH. eapply scope_grows_trans; [|done].
    cbn [visit_case] in E1. unfold mbind, outcome_bind in E1.
    destruct test as [t|].
    + destruct (visitExpression t st) as [st2|] eqn:E2; [cbn [obind] in E1|done].
      apply visitExpression_scope, scope_grows_same in E2.
      destruct (visit_consequent _ _ _ _) as [[[ss cf] st3]|] eqn:E3;
        [cbn [obind] in E1|done].
      injection E1 as _ <-. eapply scope_grows_trans; [done|].
      by eapply visit_consequent_grows.
    + cbn [obind] in E1.
      destruct (visit_consequent _ _ _ _) as [[[ss cf] st3]|] eqn:E3;
        [cbn [obind] in E1|done].
      injection E1 as _ <-. by eapply visit_consequent_grows.
Qed.

Lemma exit_after_enter st st1 tbl :
  scope st = Some tbl →
  scope_grows (enterScope st) st1 →
  ∃ tbl', scope (exitScope st1) = Some tbl' ∧
          SymbolTable.frame tbl' = SymbolTable.frame tbl ∧
          SymbolTable.ancestors tbl' = SymbolTable.ancestors tbl ∧
          env (exitScope st1) = env st.
Proof.
  intros Hs [He Hg]. unfold enterScope in *. rewrite Hs in *.
  destruct (Hg _ eq_refl) as (tbl1 & Hs1 & Ha & _). cbn in Ha.
  unfold exitScope. rewrite Hs1. unfold SymbolTable.parent. rewrite Ha.
  eexists. by repeat split.
Qed.

(** Every statement leaves the frames of the enclosing blocks as they were
    and removes no name from the current frame. *)
Lemma visitStatement_grows s :
  ∀ st st', visitStatement s st = Ok st' → scope_grows st st'.
Proof.
  induction s as [loc body IH|loc e|loc l r body IHl IHb|loc test consequent alternate IHc IHa
                  |loc d cases IH|loc declarations|loc kind]
    using statement_nested_ind; intros st st'.
  - cbn [visitStatement]. unfold mbind, outcome_bind.
    destruct (visit_each _ _ _ _) as [[stmts st1]|] eqn:E; [cbn [obind]|done].
    intros [= <-]. apply visit_each_grows in E; [|done].
    split.
    { destruct E as [He _]. transitivity (env st1).
      - unfold exitScope. by destruct (scope st1).
      - rewrite He. unfold enterScope. by destruct (scope st). }
    intros tbl Hs. destruct (exit_after_enter _ _ _ Hs E) as (tbl' & Hs' & Hf & Ha & _).
    exists tbl'. split; [done|]. split; [done|]. by rewrite Hf.
  - cbn [visitStatement]. unfold mbind, outcome_bind.
    destruct (visitExpression e st) as [st1|] eqn:E1; [cbn [obind]|done].
    apply visitExpression_scope, scope_grows_same in E1.
    destruct (is_AssignmentExpression e);
      (destruct (nonDeclVarRef _ _ _); [cbn [obind]|done]); intros [= <-];
      by apply scope_grows_set_lastChild.
  - cbn [visitStatement]. unfold mbind, outcome_bind.
    destruct (visitStatement l st) as [st1|] eqn:E1; [cbn [obind]|done].
    destruct (first_statement _) as [iterator|]; [cbn [obind]|done].
    destruct (nonDeclVarRef iterator _ _) as [iteratorRef|]; [cbn [obind]|done].
    destruct (visitExpression r st1) as [st2|] eqn:E2; [cbn [obind]|done].
    destruct (nonDeclVarRef (lastChild st2) _ _) as [iterableRef|]; [cbn [obind]|done].
    destruct (visitStatement body st2) as [st3|] eqn:E3; [cbn [obind]|done].
    intros [= <-]. apply scope_grows_set_lastChild.
    apply visitExpression_scope, scope_grows_same in E2.
    eapply scope_grows_trans; [by eapply IHl|].
    eapply scope_grows_trans; [done|by eapply IHb].
  - cbn [visitStatement]. unfold mbind, outcome_bind.
    destruct (visitExpression test st) as [st1|] eqn:E1; [cbn [obind]|done].
    destruct (visitStatement consequent st1) as [st2|] eqn:E2; [cbn [obind]|done].
    destruct alternate as [a|]; [|done].
    destruct (visitStatement a st2) as [st3|] eqn:E3; [cbn [obind]|done].
    intros [= <-]. apply scope_grows_set_lastChild.
    apply visitExpression_scope, scope_grows_same in E1.
    eapply scope_grows_trans; [done|].
    eapply scope_grows_trans; [by eapply IHc|by eapply IHa].
  - cbn [visitStatement]. unfold mbind, outcome_bind.
    destruct (visitExpression d st) as [st1|] eqn:E1; [cbn [obind]|done].
    destruct (declVarRef _ st1) as [[m st2]|] eqn:Em; [cbn [obind]|done].
    destruct (declVarRef _ st2) as [[f st3]|] eqn:Ef; [cbn [obind]|done].
    destruct (declVarRef _ st3) as [[dd st4]|] eqn:Ed; [cbn [obind]|done].
    destruct (visit_cases _ _ _ _ _) as [[stmts st5]|] eqn:Ec; [cbn [obind]|done].
    intros [= <-]. apply scope_grows_set_lastChild.
    apply visitExpression_scope, scope_grows_same in E1.
    apply declVarRef_grows in Em, Ef, Ed. apply visit_cases_grows in Ec; [|done].
    repeat (eapply scope_grows_trans; [eassumption|]). apply scope_grows_refl.
  - cbn [visitStatement]. unfold mbind, outcome_bind.
    destruct (visit_each _ _ _ _) as [[stmts st1]|] eqn:E; [cbn [obind]|done].
    intros [= <-]. apply scope_grows_set_lastChild.
    eapply visit_each_grows; [|done].
    apply Forall_forall. intros x _. apply visitDeclarator_grows.
  - cbn [visitStatement]. by rewrite reportError_message.
Qed.

Lemma lookup_grows name tbl tbl' :
  SymbolTable.ancestors tbl' = SymbolTable.ancestors tbl →
  (is_Some (SymbolTable.frame tbl !! name) → is_Some (SymbolTable.frame tbl' !! name)) →
  is_Some (SymbolTable.lookup name tbl) → is_Some (SymbolTable.lookup name tbl').
Proof.
  unfold SymbolTable.lookup. cbn [SymbolTable.lookup_frames]. intros -> Hf.
  destruct (SymbolTable.frame tbl !! name) as [target|].
  - intros _. by destruct Hf as [target' ->].
  - by destruct (SymbolTable.frame tbl' !! name).
Qed.

(** X7. A block statement restores the scope it was entered with: when the
    walk of [{ ... }] returns, the current frame and the frames of the
    enclosing blocks are those before the block, so every name resolves to
    what it resolved to before and the names declared inside the block are
    gone. *)
Theorem block_restores_the_scope loc body st st' tbl :
  scope st = Some tbl →
  visitStatement (BlockStatement loc body) st = Ok st' →
  ∃ tbl', scope st' = Some tbl' ∧
    SymbolTable.frame tbl' = SymbolTable.frame tbl ∧
    SymbolTable.ancestors tbl' = SymbolTable.ancestors tbl ∧
    ∀ name, SymbolTable.lookup name tbl' = SymbolTable.lookup name tbl.
Proof.
  intros Hs. cbn [visitStatement]. unfold mbind, outcome_bind.
  destruct (visit_each _ _ _ _) as [[stmts st1]|] eqn:E; [cbn [obind]|done].
  intros [= <-]. apply visit_each_grows in E.
  - destruct (exit_after_enter _ _ _ Hs E) as (tbl' & Hs' & Hf & Ha & _).
    exists tbl'. split; [done|]. split; [done|]. split; [done|].
    intros name. unfold SymbolTable.lookup. by rewrite Hf, Ha.
  - apply Forall_forall. intros s _. apply visitStatement_grows.
Qed.

Lemma block_restores_the_scope_witness :
  ∃ tbl', scope {| lastChild :=
                     StatementListNode
                       [StatementListNode
                          [SetDirectiveNode
                             (VariableReferenceNode (IdentifierNode "x") (Some "x"))
                             (LiteralNode (LBoolean true))]];
                   scope := Some {| SymbolTable.frame := ∅;
                                    SymbolTable.ancestors := [];
                                    SymbolTable.counters := {["x" := 1]} |};
                   env := None |} = Some tbl' ∧
    SymbolTable.frame tbl' = SymbolTable.frame SymbolTable.new ∧
    SymbolTable.ancestors tbl' = SymbolTable.ancestors SymbolTable.new ∧
    ∀ name, SymbolTable.lookup name tbl' = SymbolTable.lookup name SymbolTable.new.
Proof.
  apply (block_restores_the_scope None
           [VariableDeclaration None
              [VariableDeclarator None (Identifier None "x")
                 (Some (Literal None (LBoolean true)))]]
           {| lastChild := Null; scope := Some SymbolTable.new; env := None |}).
  - reflexivity.
  - vm_compute. reflexivity.
Defined.

(** X8. Within a block no statement takes a name away: a name that resolves
    before a statement (a declared variable, a registered global, the
    discard name) still resolves after it, whatever the statement declares
    or however deep its blocks go. *)
Theorem resolvable_names_stay_resolvable s st st' tbl name target :
  visitStatement s st = Ok st' →
  scope st = Some tbl →
  SymbolTable.lookup name tbl = Some target →
  ∃ tbl', scope st' = Some tbl' ∧ is_Some (SymbolTable.lookup name tbl').
Proof.
  intros H Hs Hl. apply visitStatement_grows in H. destruct H as [_ H].
  destruct (H tbl Hs) as (tbl' & Hs' & Ha & Hf).
  exists tbl'. split; [done|]. eapply lookup_grows; [done|apply Hf|].
  rewrite Hl. by eexists.
Qed.

Lemma resolvable_names_stay_resolvable_witness :
  ∃ tbl', scope {| lastChild :=
                     StatementListNode
                       [SetDirectiveNode
                          (VariableReferenceNode (IdentifierNode "y") (Some "y"))
                          (LiteralNode (LBoolean true))];
                   scope := Some (SymbolTable.symbol "y"
                                    (SymbolTable.symbol "x" SymbolTable.new).2).2;
                   env := None |} = Some tbl' ∧
          is_Some (SymbolTable.lookup "x" tbl').
Proof.
  apply (resolvable_names_stay_resolvable
           (VariableDeclaration None
              [VariableDeclarator None (Identifier None "y")
                 (Some (Literal None (LBoolean true)))])
           {| lastChild := Null;
              scope := Some (SymbolTable.symbol "x" SymbolTable.new).2;
              env := None |}
           _ (SymbolTable.symbol "x" SymbolTable.new).2 "x" "x").
  - vm_compute. reflexivity.
  - reflexivity.
  - vm_compute. reflexivity.
Defined.

End walker_scopes.

(** * Programs, globals and the discard name *)

Section walker_programs.
Import Vtl Js Walker.

Lemma register_all_ok names :
  ∀ st tbl, scope st = Some tbl →
    ∃ st' tbl', register_all names st = Ok st' ∧ scope st' = Some tbl' ∧
      lastChild st' = lastChild st ∧ env st' = env st ∧
      SymbolTable.ancestors tbl' = SymbolTable.ancestors tbl ∧
      ∀ name, is_Some (SymbolTable.frame tbl !! name) ∨ name ∈ names →
              is_Some (SymbolTable.frame tbl' !! name).
Proof.
  induction names as [|g names IH]; intros st tbl Hs; cbn [register_all].
  - exists st, tbl. repeat split; try done. intros name [H|H]; [done|].
    by apply elem_of_nil in H.
  - unfold register. rewrite Hs. unfold mbind, outcome_bind. cbn [obind].
    destruct (IH (set_scope (Some (SymbolTable.symbol g tbl).2) st)
                 (SymbolTable.symbol g tbl).2 eq_refl)
      as (st' & tbl' & Hr & Hs' & Hl & He & Ha & Hf).
    exists st', tbl'. repeat split; try done. intros name Hname.
    apply Hf. destruct (decide (g = name)) as [->|Hne].
    + left. unfold SymbolTable.symbol. cbn [snd SymbolTable.frame].
      rewrite lookup_insert_eq. by eexists.
    + destruct Hname as [H|H].
      * left. unfold SymbolTable.symbol. cbn [snd SymbolTable.frame].
        by rewrite lookup_insert_ne.
      * right. apply elem_of_cons in H as [->|H]; done.
Qed.

Lemma registerEnvGlobals_ok st tbl :
  scope st = Some tbl →
  ∃ st' tbl', registerEnvGlobals st = Ok st' ∧ scope st' = Some tbl' ∧
    lastChild st' = lastChild st ∧ env st' = env st ∧
    SymbolTable.ancestors tbl' = SymbolTable.ancestors tbl ∧
    ∀ name, name ∈ registered st → is_Some (SymbolTable.frame tbl' !! name).
Proof.
  intros Hs. unfold registerEnvGlobals, registered.
  destruct (register_all_ok (default [] (e ← env st; globals e)) st tbl Hs)
    as (st1 & tbl1 & -> & Hs1 & Hl1 & He1 & Ha1 & Hf1).
  unfold mbind at 1, outcome_bind. cbn [obind]. unfold register. rewrite Hs1.
  eexists _, _. split; [done|]. cbn. repeat split; try done.
  intros name [H|H%list_elem_of_singleton]%elem_of_app; cbn [SymbolTable.frame].
  - destruct (decide (kDiscardName = name)) as [<-|Hne].
    + rewrite lookup_insert_eq. by eexists.
    + rewrite lookup_insert_ne; [|done]. apply Hf1. by right.
  - subst name. rewrite lookup_insert_eq. by eexists.
Qed.

(** X9. Registering the globals of the environment never fails once a scope
    is open, leaves [lastChild] alone, and afterwards every listed global
    and the discard name resolve. *)
Theorem registered_globals_resolve st tbl :
  scope st = Some tbl →
  ∃ st' tbl', registerEnvGlobals st = Ok st' ∧ scope st' = Some tbl' ∧
    lastChild st' = lastChild st ∧
    ∀ name, name ∈ registered st → is_Some (SymbolTable.lookup name tbl').
Proof.
  intros Hs.
  destruct (registerEnvGlobals_ok st tbl Hs) as (st' & tbl' & Hr & Hs' & Hl & _ & _ & Hf).
  exists st', tbl'. repeat split; try done. intros name Hname.
  unfold SymbolTable.lookup. cbn [SymbolTable.lookup_frames].
  by destruct (Hf name Hname) as [target ->].
Qed.

Lemma registered_globals_resolve_witness :
  ∃ st' tbl',
    registerEnvGlobals
      {| lastChild := Null; scope := Some SymbolTable.new;
         env := Some {| globals := Some ["context"; "util"] |} |} = Ok st' ∧
    scope st' = Some tbl' ∧
    lastChild st' = Null ∧
    ∀ name, name ∈ ["context"; "util"; "discard"] →
            is_Some (SymbolTable.lookup name tbl').
Proof.
  apply (registered_globals_resolve
           {| lastChild := Null; scope := Some SymbolTable.new;
              env := Some {| globals := Some ["context"; "util"] |} |}
           SymbolTable.new).
  reflexivity.
Defined.

Lemma visit_each_throw_inv {A} (visit : A → state → outcome state) (I : state → Prop) body :
  (∀ x st st', x ∈ body → I st → visit x st = Ok st' → I st') →
  ∀ acc st e, I st → visit_each visit body acc st = Throw e →
    ∃ x st1, x ∈ body ∧ I st1 ∧ visit x st1 = Throw e.
Proof.
  induction body as [|y body IH]; intros Hstep acc st e HI; cbn; [done|].
  unfold mbind, outcome_bind. destruct (visit y st) as [st1|e1] eqn:E1; cbn [obind].
  - intros H. apply IH in H as (x & st2 & Hx & HI2 & Hv).
    + exists x, st2. split; [by right|done].
    + intros x0 s0 s0' Hin. apply Hstep. by right.
    + eapply Hstep; [by left|done..].
  - intros [= <-]. exists y, st. split; [by left|done].
Qed.

(** X10. The walk of a program fails only in one of its statements: opening
    the outermost scope and registering the globals always succeed, and at
    the failing statement a scope is open in which the discard name
    resolves. *)
Theorem program_fails_only_in_a_statement p st e :
  visitProgram p st = Throw e →
  ∃ s st1 tbl1, s ∈ program_body p ∧ visitStatement s st1 = Throw e ∧
    scope st1 = Some tbl1 ∧ is_Some (SymbolTable.lookup kDiscardName tbl1).
Proof.
  unfold visitProgram.
  assert (∃ tbl0, scope (enterScope st) = Some tbl0) as [tbl0 Hs0].
  { unfold enterScope. destruct (scope st); by eexists. }
  destruct (registerEnvGlobals_ok _ _ Hs0) as (st1 & tbl1 & -> & Hs1 & _ & _ & _ & Hf).
  unfold mbind, outcome_bind. cbn [obind].
  destruct (visit_each _ _ _ _) as [[stmts st2]|e'] eqn:E; [done|]. cbn [obind].
  intros [= ->].
  apply (visit_each_throw_inv visitStatement
           (λ s, ∃ tbl, scope s = Some tbl ∧
                        is_Some (SymbolTable.lookup kDiscardName tbl))) in E.
  - destruct E as (s & st3 & Hin & (tbl3 & Hs3 & Hl3) & Hv). by exists s, st3, tbl3.
  - intros s sa sb _ (tbl & Hs & Hl) Hv.
    apply visitStatement_grows in Hv. destruct Hv as [_ Hv].
    destruct (Hv tbl Hs) as (tbl' & Hs' & Ha & Hfr).
    exists tbl'. split; [done|]. eapply lookup_grows; [done|apply Hfr|done].
  - exists tbl1. split; [done|]. unfold SymbolTable.lookup.
    cbn [SymbolTable.lookup_frames].
    destruct (Hf kDiscardName) as [target ->]; [|done].
    unfold registered. apply elem_of_app. right. by left.
Qed.

Lemma program_fails_only_in_a_statement_witness :
  ∃ s st1 tbl1,
    s ∈ [VariableDeclaration None
           [VariableDeclarator None (Identifier None "x") None];
         Unsupported None ThrowStatement] ∧
    visitStatement s st1 = Throw (Error "'throw' statements are not supported") ∧
    scope st1 = Some tbl1 ∧ is_Some (SymbolTable.lookup kDiscardName tbl1).
Proof.
  apply (program_fails_only_in_a_statement
           (Program None
              [VariableDeclaration None
                 [VariableDeclarator None (Identifier None "x") None];
               Unsupported None ThrowStatement])
           {| lastChild := Null; scope := None; env := None |}).
  vm_compute. reflexivity.
Defined.

(** X11. An expression statement that is not an assignment becomes an
    assignment to the discard name: its directive sets the target that
    [discard] resolves to in the current scope to the visited expression,
    and is printed as [#set( $target = text )]. *)
Theorem expression_statement_sets_discard loc e st st' :
  is_AssignmentExpression e = false →
  visitStatement (ExpressionStatement loc e) st = Ok st' →
  ∃ tbl target st1,
    scope st = Some tbl ∧ SymbolTable.lookup kDiscardName tbl = Some target ∧
    visitExpression e st = Ok st1 ∧
    lastChild st' =
      SetDirectiveNode (VariableReferenceNode (IdentifierNode kDiscardName) (Some target))
                       (lastChild st1) ∧
    ∀ text, toString (lastChild st1) = Ok text →
            toString (lastChild st') = Ok ("#set( $" +:+ target +:+ " = " +:+ text +:+ " )").
Proof.
  intros Hassign. cbn [visitStatement]. rewrite Hassign. unfold mbind, outcome_bind.
  destruct (visitExpression e st) as [st1|] eqn:E1; [cbn [obind]|done].
  destruct (visitExpression_scope _ _ _ E1) as [Hs _].
  unfold nonDeclVarRef. rewrite Hs.
  destruct (scope st) as [tbl|]; [|done].
  destruct (SymbolTable.lookup kDiscardName tbl) as [target|] eqn:El;
    [cbn [obind]|by rewrite reportError_message].
  intros [= <-]. exists tbl, target, st1. repeat split; try done.
  intros text Ht. cbn [lastChild set_lastChild toString template].
  unfold mbind, outcome_bind. cbn [obind].
  assert (template toString (lastChild st1) = Ok text) as ->.
  { by destruct (lastChild st1). }
  reflexivity.
Qed.

Lemma expression_statement_sets_discard_witness :
  ∃ tbl target st1,
    scope {| lastChild := Null; scope := Some (SymbolTable.symbol "discard" SymbolTable.new).2;
             env := None |} = Some tbl ∧
    SymbolTable.lookup kDiscardName tbl = Some target ∧
    visitExpression (Literal None (LNumber 5))
      {| lastChild := Null; scope := Some (SymbolTable.symbol "discard" SymbolTable.new).2;
         env := None |} = Ok st1 ∧
    lastChild {| lastChild :=
                   SetDirectiveNode
                     (VariableReferenceNode (IdentifierNode "discard") (Some "discard"))
                     (LiteralNode (LNumber 5));
                 scope := Some (SymbolTable.symbol "discard" SymbolTable.new).2;
                 env := None |} =
      SetDirectiveNode (VariableReferenceNode (IdentifierNode kDiscardName) (Some target))
                       (lastChild st1) ∧
    ∀ text, toString (lastChild st1) = Ok text →
            toString (lastChild
                        {| lastChild :=
                             SetDirectiveNode
                               (VariableReferenceNode (IdentifierNode "discard")
                                                      (Some "discard"))
                               (LiteralNode (LNumber 5));
                           scope := Some (SymbolTable.symbol "discard" SymbolTable.new).2;
                           env := None |}) =
              Ok ("#set( $" +:+ target +:+ " = " +:+ text +:+ " )").
Proof.
  apply (expression_statement_sets_discard None (Literal None (LNumber 5))
           {| lastChild := Null; scope := Some (SymbolTable.symbol "discard" SymbolTable.new).2;
              env := None |}).
  - reflexivity.
  - vm_compute. reflexivity.
Defined.

End walker_programs.

(** * Switch cases after a break, and property chains *)

Section walker_shapes.
Import Vtl Js Walker.

Lemma visit_consequent_through_break visit consequent :
  ∀ acc st,
    visit_consequent visit (through_break consequent) acc st =
    visit_consequent visit consequent acc st.
Proof.
  induction consequent as [|s rest IH]; intros acc st; [done|].
  cbn [through_break]. destruct (is_BreakStatement s) eqn:Eb; cbn [visit_consequent].
  - by rewrite Eb.
  - rewrite Eb. unfold mbind, outcome_bind. destruct (visit s st); [cbn [obind]|done].
    apply IH.
Qed.

Lemma visit_cases_through_break visit refs cases :
  ∀ acc st,
    visit_cases visit refs (without_dead_statements <$> cases) acc st =
    visit_cases visit refs cases acc st.
Proof.
  induction cases as [|[loc test consequent] rest IH]; intros acc st; [done|].
  cbn [fmap list_fmap without_dead_statements visit_cases visit_case].
  unfold mbind, outcome_bind.
  destruct (match test with Some _ => _ | None => _ end) as [[[caseTest isDefault] st1]|];
    [cbn [obind]|done].
  rewrite visit_consequent_through_break.
  destruct (visit_consequent _ _ _ _) as [[[ss cf] st2]|]; [cbn [obind]|done].
  destruct isDefault; cbn [obind]; apply IH.
Qed.

(** X12. The statements that follow the first [break] of a switch case are
    never visited: the walk of a switch statement has the same outcome,
    result or failure, as the walk of the switch with those statements
    removed, so an unsupported statement there is not reported and a
    declaration there declares nothing. *)
Theorem statements_after_break_are_ignored loc d cases st :
  visitStatement (SwitchStatement loc d cases) st =
  visitStatement (SwitchStatement loc d (without_dead_statements <$> cases)) st.
Proof.
  cbn [visitStatement]. unfold mbind, outcome_bind.
  destruct (visitExpression d st) as [st1|]; [cbn [obind]|done].
  destruct (declVarRef _ st1) as [[m st2]|]; [cbn [obind]|done].
  destruct (declVarRef _ st2) as [[f st3]|]; [cbn [obind]|done].
  destruct (declVarRef _ st3) as [[dd st4]|]; [cbn [obind]|done].
  by rewrite visit_cases_through_break.
Qed.

Lemma member_chain_snoc loc x ps p :
  member_chain loc x (ps ++ [p]) =
  MemberExpression loc (member_chain loc x ps) (Identifier loc p).
Proof. unfold member_chain. by rewrite fold_left_app. Qed.

Lemma dotted_snoc ps p : dotted (ps ++ [p]) = dotted ps +:+ "." +:+ p.
Proof.
  induction ps as [|q ps IH].
  - cbn [app dotted fold_right]. by rewrite string_app_empty_r.
  - cbn [app dotted fold_right]. fold (dotted (ps ++ [p])). fold (dotted ps).
    rewrite IH. by rewrite !string_app_assoc.
Qed.

Lemma member_chain_visit loc x st ps :
  ∃ v, visitExpression (member_chain loc x ps) st = Ok (set_lastChild v st) ∧
       ((ps = [] ∧ v = IdentifierNode x) ∨
        (∃ r p, v = PropertyReferenceNode r p true ∧
                toString (PropertyReferenceNode r p false) = Ok (x +:+ dotted ps))).
Proof.
  induction ps as [|p ps IH] using rev_ind.
  - exists (IdentifierNode x). split; [done|by left].
  - destruct IH as (v & Hv & Hshape). rewrite member_chain_snoc.
    cbn [visitExpression]. rewrite Hv. unfold mbind, outcome_bind. cbn [obind].
    cbn [lastChild set_lastChild].
    destruct Hshape as [[-> ->]|(r & q & -> & Hr)]; cbn [new_PropertyReferenceNode obind].
    + eexists. split; [done|]. right. eexists _, _. split; [done|].
      cbn [toString template]. unfold mbind, outcome_bind. cbn [obind].
      rewrite dotted_snoc. reflexivity.
    + eexists. split; [done|]. right. eexists _, _. split; [done|].
      cbn [toString template] in *. unfold mbind, outcome_bind in *.
      destruct (template toString r) as [rs|]; [cbn [obind] in *|done].
      destruct (template toString q) as [qs|]; [cbn [obind] in *|done].
      injection Hr as Hr. change ("" +:+ rs +:+ "." +:+ qs) with (rs +:+ "." +:+ qs) in Hr.
      change (Ok ((rs +:+ "." +:+ qs) +:+ "." +:+ p) = Ok (x +:+ dotted (ps ++ [p]))).
      rewrite Hr, dotted_snoc. by rewrite string_app_assoc.
Qed.

(** X13. A property chain [x.p1.....pn] (n >= 1) is visited without looking
    anything up: whatever the scope holds, and whether or not [x] is
    declared, the visit returns, changes only [lastChild], and the node it
    leaves prints as [$x.p1.....pn], with the source name of [x] and one
    sigil. *)
Theorem property_chain_rendering loc x p ps st :
  ∃ v, visitExpression (member_chain loc x (p :: ps)) st = Ok (set_lastChild v st) ∧
       toString v = Ok ("$" +:+ x +:+ dotted (p :: ps)).
Proof.
  destruct (member_chain_visit loc x st (p :: ps)) as (v & Hv & [[? _]|(r & q & -> & Hr)]);
    [done|].
  exists (PropertyReferenceNode r q true). split; [done|].
  cbn [toString] in *. unfold mbind, outcome_bind in *.
  destruct (template toString r) as [rs|]; [cbn [obind] in *|done].
  destruct (template toString q) as [qs|]; [cbn [obind] in *|done].
  injection Hr as Hr. change ("" +:+ rs +:+ "." +:+ qs) with (rs +:+ "." +:+ qs) in Hr.
  by rewrite Hr.
Qed.

End walker_shapes.

(** * The earlier walker *)

Section earlier_walker.
Import Vtl Js.

Lemma only_earlier_Ok {A} (a : A) : only_earlier_messages (Ok a).
Proof. intros m [=]. Qed.

Lemma only_earlier_TypeError {A} m : only_earlier_messages (@Throw A (TypeError m)).
Proof. intros m' [=]. Qed.

Lemma only_earlier_unsupported {A} type : only_earlier_messages (@WalkerV1.unsupported A type).
Proof. intros m [= <-]. right. by exists type. Qed.

Lemma only_earlier_bind {A B} (m : outcome A) (k : A → outcome B) :
  only_earlier_messages m → (∀ a, only_earlier_messages (k a)) →
  only_earlier_messages (m ≫= k).
Proof.
  intros Hm Hk. unfold mbind, outcome_bind. destruct m as [a|e]; cbn [obind].
  - apply Hk.
  - intros msg [= ->]. by apply Hm.
Qed.

Lemma only_earlier_new_PropertyReferenceNode receiver property :
  only_earlier_messages (new_PropertyReferenceNode receiver property).
Proof.
  unfold new_PropertyReferenceNode.
  destruct receiver; try apply only_earlier_Ok; try apply only_earlier_TypeError.
  match goal with |- context [match ?x with _ => _ end] => destruct x end;
    first [apply only_earlier_Ok | apply only_earlier_TypeError].
Qed.

Lemma only_earlier_first_statement v :
  only_earlier_messages (Walker.first_statement v).
Proof.
  unfold Walker.first_statement.
  destruct v; try apply only_earlier_TypeError.
  match goal with |- context [match ?x with _ => _ end] => destruct x end;
    apply only_earlier_Ok.
Qed.

Lemma only_earlier_visitExpression e :
  ∀ st, only_earlier_messages (WalkerV1.visitExpression e st).
Proof.
  induction e using expression_nested_ind; intros st; cbn [WalkerV1.visitExpression];
    try apply only_earlier_Ok; try apply only_earlier_unsupported.
  - apply only_earlier_bind; [done|]. intros st1.
    apply only_earlier_bind; [done|]. intros st2. apply only_earlier_Ok.
  - apply only_earlier_bind; [done|]. intros st1.
    apply only_earlier_bind; [done|]. intros st2. apply only_earlier_Ok.
  - apply only_earlier_bind; [done|]. intros st1.
    destruct (Walker.is_MemberExpression _); [apply only_earlier_Ok|].
    intros m [= <-]. by left.
  - apply only_earlier_bind; [done|]. intros st1.
    apply only_earlier_bind; [done|]. intros st2.
    apply only_earlier_bind; [apply only_earlier_new_PropertyReferenceNode|].
    intros ref. apply only_earlier_Ok.
  - apply only_earlier_bind; [done|]. intros st1. apply only_earlier_Ok.
Qed.

Lemma only_earlier_visit_each {A} (visit : A → WalkerV1.state → outcome WalkerV1.state) body :
  Forall (λ x, ∀ st, only_earlier_messages (visit x st)) body →
  ∀ acc st, only_earlier_messages (WalkerV1.visit_each visit body acc st).
Proof.
  induction 1 as [|x l Hx _ IH]; intros acc st; cbn [WalkerV1.visit_each].
  - apply only_earlier_Ok.
  - apply only_earlier_bind; [done|]. intros st1. apply IH.
Qed.

Lemma only_earlier_visitDeclarator d :
  ∀ st, only_earlier_messages (WalkerV1.visitDeclarator d st).
Proof.
  destruct d as [loc id init]. intros st. cbn [WalkerV1.visitDeclarator].
  apply only_earlier_bind; [apply only_earlier_visitExpression|]. intros st1.
  destruct init as [e|]; [|apply only_earlier_Ok].
  apply only_earlier_bind; [apply only_earlier_visitExpression|]. intros st2.
  apply only_earlier_Ok.
Qed.

Lemma only_earlier_visit_consequent visit consequent :
  Forall (λ s, ∀ st, only_earlier_messages (visit s st)) consequent →
  ∀ acc st, only_earlier_messages (WalkerV1.visit_consequent visit consequent acc st).
Proof.
  induction 1 as [|s l Hs _ IH]; intros acc st; cbn [WalkerV1.visit_consequent].
  - apply only_earlier_Ok.
  - destruct (Walker.is_BreakStatement s); [apply only_earlier_Ok|].
    apply only_earlier_bind; [done|]. intros st1. apply IH.
Qed.

Lemma only_earlier_visit_cases visit m f d cases :
  Forall (λ c, match c with
               | SwitchCase _ _ consequent =>
                   Forall (λ s, ∀ st, only_earlier_messages (visit s st)) consequent
               end) cases →
  ∀ acc st, only_earlier_messages (WalkerV1.visit_cases visit m f d cases acc st).
Proof.
  induction 1 as [|[loc test consequent] l Hc _ IH]; intros acc st;
    cbn [WalkerV1.visit_cases].
  - apply only_earlier_Ok.
  - apply only_earlier_bind; [|intros [directive st1]; apply IH].
    cbn [WalkerV1.visit_case]. apply only_earlier_bind.
    + destruct test as [t|]; [|apply only_earlier_Ok].
      apply only_earlier_bind; [apply only_earlier_visitExpression|].
      intros st1. apply only_earlier_Ok.
    + intros [[caseTest isDefault] st1].
      apply only_earlier_bind; [by apply only_earlier_visit_consequent|].
      intros [[ss cf] st2]. destruct isDefault; apply only_earlier_Ok.
Qed.

Lemma only_earlier_visitStatement s :
  ∀ st, only_earlier_messages (WalkerV1.visitStatement s st).
Proof.
  induction s as [loc body IH|loc e|loc l r body IHl IHb|loc test consequent alternate IHc IHa
                  |loc d cases IH|loc declarations|loc kind]
    using statement_nested_ind; intros st; cbn [WalkerV1.visitStatement].
  - apply only_earlier_bind; [by apply only_earlier_visit_each|].
    intros [stmts st1]. apply only_earlier_Ok.
  - apply only_earlier_bind; [apply only_earlier_visitExpression|]. intros st1.
    destruct (Walker.is_AssignmentExpression e); apply only_earlier_Ok.
  - apply only_earlier_bind; [done|]. intros st1.
    apply only_earlier_bind; [apply only_earlier_first_statement|]. intros iterator.
    apply only_earlier_bind; [apply only_earlier_visitExpression|]. intros st2.
    apply only_earlier_bind; [done|]. intros st3. apply only_earlier_Ok.
  - apply only_earlier_bind; [apply only_earlier_visitExpression|]. intros st1.
    apply only_earlier_bind; [done|]. intros st2.
    destruct alternate as [a|]; [|apply only_earlier_TypeError].
    apply only_earlier_bind; [by apply IHa|]. intros st3. apply only_earlier_Ok.
  - apply only_earlier_bind; [apply only_earlier_visitExpression|]. intros st1.
    apply only_earlier_bind; [by apply only_earlier_visit_cases|].
    intros [stmts st2]. apply only_earlier_Ok.
  - apply only_earlier_bind.
    + apply only_earlier_visit_each, Forall_forall. intros x _.
      apply only_earlier_visitDeclarator.
    + intros [stmts st1]. apply only_earlier_Ok.
  - apply only_earlier_unsupported.
Qed.

(** X14. The earlier walker has two diagnostics and no source positions:
    every [Error] that [transpile] raises carries either
    [non-method functions are not supported] or
    [Node type 'T' is not supported.] for a node type [T], and nothing
    else; in particular an undeclared variable is no error. *)
Theorem earlier_walker_diagnostics EOL ast m :
  WalkerV1.transpile EOL ast = Throw (Error m) → earlier_message m.
Proof.
  unfold WalkerV1.transpile, WalkerV1.visitProgram. unfold mbind, outcome_bind.
  destruct (WalkerV1.visit_each _ _ _ _) as [[stmts st1]|e] eqn:E; cbn [obind].
  - destruct (serialize _ _) as [[text|e] context'] eqn:Es; [done|]. cbn [fst].
    intros [= ->]. apply serialize_throws_safely in Es as [[m' [=]] _].
    cbn. lia.
  - intros [= ->]. revert E. apply only_earlier_visit_each.
    apply Forall_forall. intros s _. apply only_earlier_visitStatement.
Qed.

Lemma earlier_walker_diagnostics_witness :
  earlier_message "Node type 'ThrowStatement' is not supported.".
Proof.
  apply (earlier_walker_diagnostics LF
           (Program None
              [VariableDeclaration None
                 [VariableDeclarator None (Identifier None "x")
                    (Some (Identifier None "undeclared"))];
               Unsupported None ThrowStatement])).
  vm_compute. reflexivity.
Defined.

Lemma earlier_visit_cases_compare visit m f d cases :
  ∀ acc st stmts st',
    WalkerV1.visit_cases visit m f d cases acc st = Ok (stmts, st') →
    ∃ directives, stmts = acc ++ directives ∧
                  Forall2 (compares_with "===") cases directives.
Proof.
  induction cases as [|[loc test consequent] rest IH]; intros acc st stmts st';
    cbn [WalkerV1.visit_cases].
  - intros [= <- _]. exists []. by rewrite app_nil_r.
  - unfold mbind, outcome_bind.
    destruct (WalkerV1.visit_case _ _ _ _ _ _) as [[directive st1]|] eqn:Ec;
      [cbn [obind]|done].
    intros (directives & -> & Hd)%IH. exists (directive :: directives).
    split; [by rewrite <- app_assoc|]. constructor; [|done].
    cbn [WalkerV1.visit_case] in Ec. unfold mbind, outcome_bind in Ec.
    destruct test as [t|]; [|done]. cbn [compares_with].
    destruct (WalkerV1.visitExpression t st) as [st2|]; [cbn [obind] in Ec|done].
    destruct (WalkerV1.visit_consequent _ _ _ _) as [[[ss cf] st3]|];
      [cbn [obind] in Ec|done].
    injection Ec as <- _. by eexists _, _, _, _.
Qed.

(** X15. In the earlier walker the comparison of each switch case with a
    test is written with the operator [===], whatever the source program
    uses; the later walker writes [==]. *)
Theorem earlier_switch_compares_with_strict_equality loc d cases st st' :
  WalkerV1.visitStatement (SwitchStatement loc d cases) st = Ok st' →
  ∃ head directives,
    WalkerV1.lastChild st' = StatementListNode (head ++ directives) ∧
    length head = 3 ∧
    Forall2 (compares_with "===") cases directives.
Proof.
  cbn [WalkerV1.visitStatement]. unfold mbind, outcome_bind.
  destruct (WalkerV1.visitExpression d st) as [st1|]; [cbn [obind]|done].
  destruct (WalkerV1.visit_cases _ _ _ _ _ _ _) as [[stmts st2]|] eqn:Ec;
    [cbn [obind]|done].
  apply earlier_visit_cases_compare in Ec as (directives & -> & Hd).
  intros [= <-]. eexists [_; _; _], directives. split; [reflexivity|]. by split.
Qed.

Lemma earlier_switch_compares_witness :
  ∃ head directives,
    WalkerV1.lastChild
      {| WalkerV1.lastChild :=
           StatementListNode
             ([SetDirectiveNode (VariableReferenceNode (IdentifierNode "matched") None)
                                (LiteralNode (LBoolean false));
               SetDirectiveNode (VariableReferenceNode (IdentifierNode "fallthrough") None)
                                (LiteralNode (LBoolean false));
               SetDirectiveNode (VariableReferenceNode (IdentifierNode "discriminant") None)
                                (IdentifierNode "foo")] ++
              [IfDirectiveNode
                 (BinaryExpressionNode "||"
                    (VariableReferenceNode (IdentifierNode "fallthrough") None)
                    (BinaryExpressionNode "==="
                       (VariableReferenceNode (IdentifierNode "discriminant") None)
                       (LiteralNode (LNumber 1))))
                 (StatementListNode
                    [SetDirectiveNode (VariableReferenceNode (IdentifierNode "matched") None)
                                      (LiteralNode (LBoolean true));
                     SetDirectiveNode
                       (VariableReferenceNode (IdentifierNode "fallthrough") None)
                       (LiteralNode (LBoolean false))])
                 Null false]) |} = StatementListNode (head ++ directives) ∧
    length head = 3 ∧
    Forall2 (compares_with "===")
      [SwitchCase None (Some (Literal None (LNumber 1))) [Unsupported None BreakStatement]]
      directives.
Proof.
  apply (earlier_switch_compares_with_strict_equality None (Identifier None "foo")
           [SwitchCase None (Some (Literal None (LNumber 1)))
              [Unsupported None BreakStatement]]
           {| WalkerV1.lastChild := Null |}).
  vm_compute. reflexivity.
Defined.

End earlier_walker.

(** * Loops, arrays and objects *)

Section walker_collections.
Import Vtl Js Walker.

(** X16. The variable of a for-of loop is declared in the scope that
    contains the loop, not in a scope of its own: the loop's directive
    iterates over the target name that the declaration was given, and the
    name still resolves after the loop. *)
Theorem for_of_variable_outlives_the_loop loc l dl il x r body st st' tbl :
  scope st = Some tbl →
  visitStatement
    (ForOfStatement loc
       (VariableDeclaration l [VariableDeclarator dl (Identifier il x) None]) r body) st
    = Ok st' →
  ∃ iterable b tbl',
    lastChild st' =
      ForEachDirectiveNode
        (VariableReferenceNode (IdentifierNode x) (Some (SymbolTable.symbol x tbl).1))
        iterable b ∧
    scope st' = Some tbl' ∧ is_Some (SymbolTable.lookup x tbl').
Proof.
  intros Hs.
  assert (SymbolTable.lookup x (SymbolTable.symbol x tbl).2
          = Some (SymbolTable.symbol x tbl).1) as Hl.
  { unfold SymbolTable.lookup, SymbolTable.symbol.
    cbn [SymbolTable.lookup_frames SymbolTable.frame snd fst].
    by rewrite lookup_insert_eq. }
  cbn [visitStatement visit_each visitDeclarator visitExpression]. unfold mbind, outcome_bind.
  cbn [obind]. unfold declVarRef at 1. cbn [lastChild scope set_lastChild]. rewrite Hs.
  destruct (SymbolTable.symbol x tbl) as [target tbl1]. cbn [fst snd] in Hl |- *.
  cbn [obind lastChild set_lastChild set_scope app first_statement].
  unfold nonDeclVarRef at 1. cbn [scope set_lastChild set_scope]. rewrite Hl. cbn [obind].
  match goal with |- context [visitExpression r ?s] => set (sa := s) end.
  destruct (visitExpression r sa) as [st2|] eqn:E2; [cbn [obind]|done].
  destruct (nonDeclVarRef (lastChild st2) _ _) as [iterableRef|]; [cbn [obind]|done].
  destruct (visitStatement body st2) as [st3|] eqn:E3; [cbn [obind]|done].
  intros [= <-]. cbn [lastChild set_lastChild].
  apply visitExpression_scope in E2 as [Hs2 _].
  apply visitStatement_grows in E3 as [_ E3].
  destruct (E3 tbl1) as (tbl' & Hs' & Ha & Hf).
  { by rewrite Hs2. }
  exists iterableRef, (lastChild st3), tbl'. split; [done|]. split; [done|].
  eapply lookup_grows; [done|apply Hf|]. by rewrite Hl.
Qed.

Lemma for_of_variable_outlives_the_loop_witness :
  ∃ iterable b tbl',
    lastChild
      {| lastChild :=
           ForEachDirectiveNode
             (VariableReferenceNode (IdentifierNode "item") (Some "item"))
             (VariableReferenceNode (IdentifierNode "items") (Some "items"))
             (StatementListNode []);
         scope := Some (SymbolTable.symbol "item"
                          (SymbolTable.symbol "items" SymbolTable.new).2).2;
         env := None |} =
      ForEachDirectiveNode
        (VariableReferenceNode (IdentifierNode "item")
           (Some (SymbolTable.symbol "item"
                    (SymbolTable.symbol "items" SymbolTable.new).2).1))
        iterable b ∧
    scope {| lastChild :=
               ForEachDirectiveNode
                 (VariableReferenceNode (IdentifierNode "item") (Some "item"))
                 (VariableReferenceNode (IdentifierNode "items") (Some "items"))
                 (StatementListNode []);
             scope := Some (SymbolTable.symbol "item"
                              (SymbolTable.symbol "items" SymbolTable.new).2).2;
             env := None |} = Some tbl' ∧
    is_Some (SymbolTable.lookup "item" tbl').
Proof.
  apply (for_of_variable_outlives_the_loop None None None None "item"
           (Identifier None "items") (BlockStatement None [])
           {| lastChild := Null;
              scope := Some (SymbolTable.symbol "items" SymbolTable.new).2;
              env := None |}).
  - reflexivity.
  - vm_compute. reflexivity.
Defined.

Lemma visit_elements_values visit loc elements :
  ∀ array st values st',
    visit_elements visit loc elements array st = Ok (values, st') →
    length values = length array + length elements ∧ Forall is_Some elements.
Proof.
  induction elements as [|[e|] rest IH]; intros array st values st'; cbn [visit_elements].
  - intros [= <- _]. split; [cbn; lia|constructor].
  - unfold mbind, outcome_bind. destruct (visit e st) as [st1|]; [cbn [obind]|done].
    destruct (nonDeclVarRef _ _ _) as [value|]; [cbn [obind]|done].
    intros [Hlen Hall]%IH. rewrite length_app in Hlen. cbn in *.
    split; [lia|]. constructor; [by eexists|done].
  - by rewrite reportError_message.
Qed.

Lemma visit_elements_hole visit loc pre post :
  ∀ array st values st',
    visit_elements visit loc (Some <$> pre) array st = Ok (values, st') →
    visit_elements visit loc ((Some <$> pre) ++ None :: post) array st =
      Throw (Error (error_message loc "array holes are not supported")).
Proof.
  induction pre as [|e pre IH]; intros array st values st';
    cbn [fmap list_fmap app visit_elements].
  - intros _. by rewrite reportError_message.
  - unfold mbind, outcome_bind. destruct (visit e st) as [st1|]; [cbn [obind]|done].
    destruct (nonDeclVarRef _ _ _) as [value|]; [cbn [obind]|done].
    apply IH.
Qed.

(** X17. An array literal is visited element by element: when the visit
    returns, the list node holds one value for each element, in order, and
    the literal has no hole; a literal whose elements before its first hole
    are accepted is rejected with [array holes are not supported] at the
    position of the literal. *)
Theorem array_literal_values loc elements st :
  (∀ st', visitExpression (ArrayExpression loc elements) st = Ok st' →
     ∃ values, lastChild st' = ArrayListNode values ∧
               length values = length elements ∧ Forall is_Some elements) ∧
  (∀ pre post st', elements = (Some <$> pre) ++ None :: post →
     visitExpression (ArrayExpression loc (Some <$> pre)) st = Ok st' →
     visitExpression (ArrayExpression loc elements) st =
       Throw (Error (error_message loc "array holes are not supported"))).
Proof.
  split.
  - intros st'. cbn [visitExpression]. unfold mbind, outcome_bind.
    destruct (visit_elements _ _ _ _ _) as [[values st1]|] eqn:E; [cbn [obind]|done].
    intros [= <-]. apply visit_elements_values in E as [Hlen Hall].
    exists values. by repeat split.
  - intros pre post st' ->. cbn [visitExpression]. unfold mbind, outcome_bind.
    destruct (visit_elements _ _ (Some <$> pre) _ _) as [[values st1]|] eqn:E;
      [cbn [obind]|done].
    intros _. by erewrite visit_elements_hole.
Qed.

Lemma array_literal_values_witness :
  visitExpression
    (ArrayExpression None [Some (Literal None (LNumber 1)); None;
                           Some (Literal None (LNumber 3))])
    {| lastChild := Null; scope := Some SymbolTable.new; env := None |} =
  Throw (Error (error_message None "array holes are not supported")).
Proof.
  apply (proj2 (array_literal_values None
                  [Some (Literal None (LNumber 1)); None; Some (Literal None (LNumber 3))]
                  {| lastChild := Null; scope := Some SymbolTable.new; env := None |})
           [Literal None (LNumber 1)] [Some (Literal None (LNumber 3))]
           {| lastChild := ArrayListNode [LiteralNode (LNumber 1)];
              scope := Some SymbolTable.new; env := None |}).
  - reflexivity.
  - vm_compute. reflexivity.
Defined.

Lemma visit_properties_entries properties :
  ∀ map st entries st',
    visit_properties visitProperty properties map st = Ok (entries, st') →
    length entries = length map + length properties ∧
    Forall (λ p, match p with
                 | Property _ computed _ method kind _ =>
                     computed = false ∧ method = false ∧ kind = KindInit
                 end) properties.
Proof.
  induction properties as [|[ploc computed key method kind value] rest IH];
    intros map st entries st'; cbn [visit_properties].
  - intros [= <- _]. split; [cbn; lia|constructor].
  - unfold mbind, outcome_bind.
    destruct (visitProperty _ map st) as [[map1 st1]|] eqn:Ep; [cbn [obind]|done].
    intros [Hlen Hall]%IH.
    cbn [visitProperty] in Ep.
    destruct computed; [by rewrite reportError_message in Ep|].
    unfold mbind, outcome_bind in Ep.
    destruct (visitExpression key st) as [st2|]; [cbn [obind] in Ep|done].
    destruct method; [by rewrite reportError_message in Ep|].
    destruct kind; [|by rewrite reportError_message in Ep..].
    destruct (visitExpression value st2) as [st3|]; [cbn [obind] in Ep|done].
    destruct (nonDeclVarRef _ _ _) as [v|]; [cbn [obind] in Ep|done].
    injection Ep as <- _. rewrite length_app in Hlen. cbn in *.
    split; [lia|]. by constructor.
Qed.

(** X18. An object literal is accepted only with plain properties: when its
    visit returns, the map node holds one entry for each property and no
    property is computed, a method, a getter or a setter. *)
Theorem object_literal_entries loc properties st st' :
  visitExpression (ObjectExpression loc properties) st = Ok st' →
  ∃ entries, lastChild st' = MapNode entries ∧
    length entries = length properties ∧
    Forall (λ p, match p with
                 | Property _ computed _ method kind _ =>
                     computed = false ∧ method = false ∧ kind = KindInit
                 end) properties.
Proof.
  cbn [visitExpression]. unfold mbind, outcome_bind.
  destruct (visit_properties _ _ _ _) as [[entries st1]|] eqn:E; [cbn [obind]|done].
  intros [= <-]. apply visit_properties_entries in E as [Hlen Hall].
  exists entries. by repeat split.
Qed.

Lemma object_literal_entries_witness :
  ∃ entries,
    lastChild {| lastChild := MapNode [(IdentifierNode "a", LiteralNode (LNumber 1))];
                 scope := Some SymbolTable.new; env := None |} = MapNode entries ∧
    length entries =
      length [Property None false (Identifier None "a") false KindInit
                (Literal None (LNumber 1))] ∧
    Forall (λ p, match p with
                 | Property _ computed _ method kind _ =>
                     computed = false ∧ method = false ∧ kind = KindInit
                 end)
      [Property None false (Identifier None "a") false KindInit (Literal None (LNumber 1))].
Proof.
  apply (object_literal_entries None
           [Property None false (Identifier None "a") false KindInit
              (Literal None (LNumber 1))]
           {| lastChild := Null; scope := Some SymbolTable.new; env := None |}).
  vm_compute. reflexivity.
Defined.

End walker_collections.

(** * The walk, node by node *)

Section walk_loops.
Import Vtl Js Walker.

Lemma visit_each_app {A} (visit : A → state → outcome state) pre rest :
  ∀ acc st,
    visit_each visit (pre ++ rest) acc st =
    '(acc1, st1) ← visit_each visit pre acc st; visit_each visit rest acc1 st1.
Proof.
  induction pre as [|x pre IH]; intros acc st; cbn [app visit_each]; [done|].
  unfold mbind, outcome_bind. destruct (visit x st) as [st1|]; [cbn [obind]|done].
  apply IH.
Qed.

Lemma visit_each_acc {A} (visit : A → state → outcome state) pre :
  ∀ acc st nodes st1 acc',
    visit_each visit pre acc st = Ok (nodes, st1) →
    ∃ nodes', visit_each visit pre acc' st = Ok (nodes', st1).
Proof.
  induction pre as [|x pre IH]; intros acc st nodes st1 acc'; cbn [visit_each].
  - intros [= _ <-]. by eexists.
  - unfold mbind, outcome_bind. destruct (visit x st) as [st2|]; [cbn [obind]|done].
    apply IH.
Qed.

Lemma visit_elements_app visit loc pre rest :
  ∀ acc st,
    visit_elements visit loc (pre ++ rest) acc st =
    '(acc1, st1) ← visit_elements visit loc pre acc st;
    visit_elements visit loc rest acc1 st1.
Proof.
  induction pre as [|[e|] pre IH]; intros acc st; cbn [app visit_elements]; [done| |].
  - unfold mbind, outcome_bind. destruct (visit e st) as [st1|]; [cbn [obind]|done].
    destruct (nonDeclVarRef _ _ _); [cbn [obind]|done]. apply IH.
  - by rewrite reportError_message.
Qed.

Lemma visit_elements_acc visit pre :
  ∀ loc acc st values st1 loc' acc',
    visit_elements visit loc pre acc st = Ok (values, st1) →
    ∃ values', visit_elements visit loc' pre acc' st = Ok (values', st1).
Proof.
  induction pre as [|[e|] pre IH]; intros loc acc st values st1 loc' acc';
    cbn [visit_elements].
  - intros [= _ <-]. by eexists.
  - unfold mbind, outcome_bind. destruct (visit e st) as [st2|]; [cbn [obind]|done].
    destruct (nonDeclVarRef _ _ _); [cbn [obind]|done]. apply IH.
  - by rewrite reportError_message.
Qed.

Lemma visit_arguments_app visit pre rest :
  ∀ st,
    visit_arguments visit (pre ++ rest) st =
    '(values1, st1) ← visit_arguments visit pre st;
    '(values2, st2) ← visit_arguments visit rest st1;
    Ok (values1 ++ values2, st2).
Proof.
  induction pre as [|a pre IH]; intros st; cbn [app visit_arguments].
  - unfold mbind, outcome_bind. cbn [obind].
    by destruct (visit_arguments visit rest st) as [[values st1]|].
  - unfold mbind, outcome_bind. destruct (visit a st) as [st1|]; [cbn [obind]|done].
    destruct (nonDeclVarRef _ _ _); [cbn [obind]|done].
    rewrite IH. unfold mbind, outcome_bind.
    destruct (visit_arguments visit pre st1) as [[values1 st2]|]; [cbn [obind]|done].
    by destruct (visit_arguments visit rest st2) as [[values2 st3]|].
Qed.

Lemma visit_properties_app visit pre rest :
  ∀ map st,
    visit_properties visit (pre ++ rest) map st =
    '(map1, st1) ← visit_properties visit pre map st;
    visit_properties visit rest map1 st1.
Proof.
  induction pre as [|p pre IH]; intros map st; cbn [app visit_properties]; [done|].
  unfold mbind, outcome_bind. destruct (visit p map st) as [[map1 st1]|]; [cbn [obind]|done].
  apply IH.
Qed.

Lemma visitProperty_acc p map st map1 st1 map' :
  visitProperty p map st = Ok (map1, st1) →
  ∃ map1', visitProperty p map' st = Ok (map1', st1).
Proof.
  destruct p as [ploc computed key method kind value]. cbn [visitProperty].
  destruct computed; [by rewrite reportError_message|].
  unfold mbind, outcome_bind.
  destruct (visitExpression key st) as [st2|]; [cbn [obind]|done].
  destruct method; [by rewrite reportError_message|].
  destruct kind; [|by rewrite reportError_message..].
  destruct (visitExpression value st2) as [st3|]; [cbn [obind]|done].
  destruct (nonDeclVarRef _ _ _); [cbn [obind]|done].
  intros [= _ <-]. by eexists.
Qed.

Lemma visit_properties_acc pre :
  ∀ map st entries st1 map',
    visit_properties visitProperty pre map st = Ok (entries, st1) →
    ∃ entries', visit_properties visitProperty pre map' st = Ok (entries', st1).
Proof.
  induction pre as [|p pre IH]; intros map st entries st1 map'; cbn [visit_properties].
  - intros [= _ <-]. by eexists.
  - unfold mbind, outcome_bind.
    destruct (visitProperty p map st) as [[map1 st2]|] eqn:Ep; [cbn [obind]|done].
    destruct (visitProperty_acc _ _ _ _ _ map' Ep) as [map1' ->]. cbn [obind].
    apply IH.
Qed.

Lemma visit_consequent_app visit pre rest :
  ∀ acc st,
    visit_consequent visit (pre ++ rest) acc st =
    '(acc1, canFallthrough, st1) ← visit_consequent visit pre acc st;
    if canFallthrough : bool then visit_consequent visit rest acc1 st1
    else Ok (acc1, false, st1).
Proof.
  induction pre as [|s pre IH]; intros acc st; cbn [app visit_consequent]; [done|].
  destruct (is_BreakStatement s); [done|].
  unfold mbind, outcome_bind. destruct (visit s st) as [st1|]; [cbn [obind]|done].
  apply IH.
Qed.

Lemma visit_consequent_acc visit pre :
  ∀ acc st nodes canFallthrough st1 acc',
    visit_consequent visit pre acc st = Ok (nodes, canFallthrough, st1) →
    ∃ nodes', visit_consequent visit pre acc' st = Ok (nodes', canFallthrough, st1).
Proof.
  induction pre as [|s pre IH]; intros acc st nodes cf st1 acc'; cbn [visit_consequent].
  - intros [= _ <- <-]. by eexists.
  - destruct (is_BreakStatement s); [intros [= _ <- <-]; by eexists|].
    unfold mbind, outcome_bind. destruct (visit s st) as [st2|]; [cbn [obind]|done].
    apply IH.
Qed.

Lemma visit_case_acc visit refs c st directive st1 refs' :
  visit_case visit refs c st = Ok (directive, st1) →
  ∃ directive', visit_case visit refs' c st = Ok (directive', st1).
Proof.
  destruct c as [cloc test consequent]. cbn [visit_case]. unfold mbind, outcome_bind.
  destruct test as [t|].
  - destruct (visitExpression t st) as [st2|]; [cbn [obind]|done].
    destruct (visit_consequent visit consequent [] st2) as [[[nodes cf] st3]|];
      [cbn [obind]|done].
    intros [= _ <-]. by eexists.
  - cbn [obind].
    destruct (visit_consequent visit consequent [] st) as [[[nodes cf] st3]|];
      [cbn [obind]|done].
    intros [= _ <-]. by eexists.
Qed.

Lemma visit_cases_app visit refs pre rest :
  ∀ acc st,
    visit_cases visit refs (pre ++ rest) acc st =
    '(acc1, st1) ← visit_cases visit refs pre acc st;
    visit_cases visit refs rest acc1 st1.
Proof.
  induction pre as [|c pre IH]; intros acc st; cbn [app visit_cases]; [done|].
  unfold mbind, outcome_bind.
  destruct (visit_case visit refs c st) as [[directive st1]|]; [cbn [obind]|done].
  apply IH.
Qed.

Lemma visit_cases_acc visit pre :
  ∀ refs acc st nodes st1 refs' acc',
    visit_cases visit refs pre acc st = Ok (nodes, st1) →
    ∃ nodes', visit_cases visit refs' pre acc' st = Ok (nodes', st1).
Proof.
  induction pre as [|c pre IH]; intros refs acc st nodes st1 refs' acc'; cbn [visit_cases].
  - intros [= _ <-]. by eexists.
  - unfold mbind, outcome_bind.
    destruct (visit_case visit refs c st) as [[directive st2]|] eqn:Ec; [cbn [obind]|done].
    destruct (visit_case_acc _ _ _ _ _ _ refs' Ec) as [directive' ->]. cbn [obind].
    apply IH.
Qed.

End walk_loops.

Section walk_failures.
Import Vtl Js Walker.

(** An exception raised by the visit of a child is the exception of the
    visit of its parent. *)
Lemma subvisit_throw parent st names child st1 e :
  subvisit parent st names child st1 →
  walk child st1 = Throw e →
  walk parent st = Throw e.
Proof.
  destruct 1; cbn [walk]; intros Hthrow.
  - (* program *)
    unfold visitProgram. cbn [program_body]. unfold mbind, outcome_bind.
    rewrite H. cbn [obind]. destruct H0 as (acc & nodes & Hpre).
    destruct (visit_each_acc _ _ _ _ _ _ [] Hpre) as [nodes' Hpre'].
    by rewrite (visit_each_throw _ _ _ _ _ _ _ _ _ Hpre' Hthrow).
  - (* block *)
    cbn [visitStatement]. unfold mbind, outcome_bind.
    destruct H as (acc & nodes & Hpre).
    destruct (visit_each_acc _ _ _ _ _ _ [] Hpre) as [nodes' Hpre'].
    by rewrite (visit_each_throw _ _ _ _ _ _ _ _ _ Hpre' Hthrow).
  - cbn [visitStatement]. unfold mbind, outcome_bind. by rewrite Hthrow.
  - cbn [visitStatement]. unfold mbind, outcome_bind. by rewrite Hthrow.
  - cbn [visitStatement]. unfold mbind, outcome_bind.
    rewrite H. cbn [obind]. rewrite H0. cbn [obind]. rewrite H1. cbn [obind].
    by rewrite Hthrow.
  - cbn [visitStatement]. unfold mbind, outcome_bind.
    rewrite H. cbn [obind]. rewrite H0. cbn [obind]. rewrite H1. cbn [obind].
    rewrite H2. cbn [obind]. rewrite H3. cbn [obind]. by rewrite Hthrow.
  - cbn [visitStatement]. unfold mbind, outcome_bind. by rewrite Hthrow.
  - cbn [visitStatement]. unfold mbind, outcome_bind. rewrite H. cbn [obind].
    by rewrite Hthrow.
  - cbn [visitStatement]. unfold mbind, outcome_bind. rewrite H. cbn [obind].
    rewrite H0. cbn [obind]. by rewrite Hthrow.
  - cbn [visitStatement]. unfold mbind, outcome_bind. by rewrite Hthrow.
  - (* case test *)
    destruct H as (sa & m & sb & f & sc & dd & Hd & Hm & Hf & Hdd).
    destruct H0 as (refs & acc & nodes & Hpre).
    cbn [visitStatement]. unfold mbind, outcome_bind.
    rewrite Hd. cbn [obind]. rewrite Hm. cbn [obind]. rewrite Hf. cbn [obind].
    rewrite Hdd. cbn [obind]. rewrite visit_cases_app. unfold mbind, outcome_bind.
    match goal with |- context [visit_cases ?v ?r pre ?a st4] =>
      destruct (visit_cases_acc _ _ _ _ _ _ _ r a Hpre) as [nodes' ->] end.
    cbn [obind visit_cases visit_case]. unfold mbind, outcome_bind.
    by rewrite Hthrow.
  - (* case consequent *)
    destruct H as (sa & m & sb & f & sc & dd & Hd & Hm & Hf & Hdd).
    destruct H0 as (refs & acc & nodes & Hpre).
    destruct H2 as (cacc & cnodes & Hcpre).
    cbn [visitStatement]. unfold mbind, outcome_bind.
    rewrite Hd. cbn [obind]. rewrite Hm. cbn [obind]. rewrite Hf. cbn [obind].
    rewrite Hdd. cbn [obind]. rewrite visit_cases_app. unfold mbind, outcome_bind.
    match goal with |- context [visit_cases ?v ?r pre ?a st4] =>
      destruct (visit_cases_acc _ _ _ _ _ _ _ r a Hpre) as [nodes' ->] end.
    cbn [obind visit_cases visit_case]. unfold mbind, outcome_bind.
    assert (∀ T (k : list node * bool * state → outcome T),
              obind (visit_consequent visitStatement (cpre ++ s :: cpost) [] st6) k
              = Throw e) as Hbody.
    { intros T k. rewrite visit_consequent_app. unfold mbind, outcome_bind.
      destruct (visit_consequent_acc _ _ _ _ _ _ _ [] Hcpre) as [cnodes' ->].
      cbn [obind visit_consequent]. rewrite H3. unfold mbind, outcome_bind.
      by rewrite Hthrow. }
    destruct test as [t|]; cbn [test_visited] in H1.
    + rewrite H1. cbn [obind]. by rewrite Hbody.
    + subst st6. cbn [obind]. by rewrite Hbody.
  - (* declaration *)
    cbn [visitStatement]. unfold mbind, outcome_bind.
    destruct H as (acc & nodes & Hpre).
    destruct (visit_each_acc _ _ _ _ _ _ [] Hpre) as [nodes' Hpre'].
    by rewrite (visit_each_throw _ _ _ _ _ _ _ _ _ Hpre' Hthrow).
  - cbn [visitDeclarator]. unfold mbind, outcome_bind. by rewrite Hthrow.
  - cbn [visitDeclarator]. unfold mbind, outcome_bind. rewrite H. cbn [obind].
    rewrite H0. cbn [obind]. by rewrite Hthrow.
  - (* array element *)
    destruct H as (loc' & acc & values & Hpre).
    cbn [visitExpression]. rewrite visit_elements_app. unfold mbind, outcome_bind.
    destruct (visit_elements_acc _ _ _ _ _ _ _ loc [] Hpre) as [values' ->].
    cbn [obind visit_elements]. unfold mbind, outcome_bind. by rewrite Hthrow.
  - cbn [visitExpression]. unfold mbind, outcome_bind. by rewrite Hthrow.
  - cbn [visitExpression]. unfold mbind, outcome_bind. rewrite H. cbn [obind].
    by rewrite Hthrow.
  - cbn [visitExpression]. unfold mbind, outcome_bind. by rewrite Hthrow.
  - cbn [visitExpression]. unfold mbind, outcome_bind. rewrite H. cbn [obind].
    rewrite H0. cbn [obind]. by rewrite Hthrow.
  - cbn [visitExpression]. unfold mbind, outcome_bind. by rewrite Hthrow.
  - (* call argument *)
    destruct H1 as (values & Hpre).
    cbn [visitExpression]. unfold mbind, outcome_bind. rewrite H. cbn [obind].
    rewrite H0. rewrite visit_arguments_app. unfold mbind, outcome_bind.
    rewrite Hpre. cbn [obind visit_arguments]. unfold mbind, outcome_bind.
    by rewrite Hthrow.
  - cbn [visitExpression]. unfold mbind, outcome_bind. by rewrite Hthrow.
  - cbn [visitExpression]. unfold mbind, outcome_bind. rewrite H. cbn [obind].
    by rewrite Hthrow.
  - (* property key *)
    destruct H as (map & entries & Hpre).
    cbn [visitExpression]. rewrite visit_properties_app. unfold mbind, outcome_bind.
    destruct (visit_properties_acc _ _ _ _ _ [] Hpre) as [entries' ->].
    cbn [obind visit_properties visitProperty]. unfold mbind, outcome_bind.
    by rewrite Hthrow.
  - (* property value *)
    destruct H as (map & entries & Hpre).
    cbn [visitExpression]. rewrite visit_properties_app. unfold mbind, outcome_bind.
    destruct (visit_properties_acc _ _ _ _ _ [] Hpre) as [entries' ->].
    cbn [obind visit_properties visitProperty]. unfold mbind, outcome_bind.
    rewrite H0. cbn [obind]. by rewrite Hthrow.
  - cbn [visitExpression]. unfold mbind, outcome_bind. by rewrite Hthrow.
Qed.

Lemma reaches_throw root st names subj st1 e :
  reaches root st names subj st1 →
  walk subj st1 = Throw e →
  walk root st = Throw e.
Proof.
  induction 1 as [|root st names child st1 names' subj st2 Hsub _ IH]; [done|].
  intros Hthrow. eapply subvisit_throw; [done|]. by apply IH.
Qed.

Lemma lookup_site_throw subj st name loc st1 tbl :
  lookup_site subj st name loc st1 →
  scope st1 = Some tbl →
  SymbolTable.lookup name tbl = None →
  walk subj st = Throw (Error (error_message loc (not_declared name))).
Proof.
  destruct 1; cbn [walk]; intros Hs Hl.
  - (* array element *)
    destruct H as (loc' & acc & values & Hpre).
    cbn [visitExpression]. rewrite visit_elements_app. unfold mbind, outcome_bind.
    destruct (visit_elements_acc _ _ _ _ _ _ _ loc [] Hpre) as [values' ->].
    cbn [obind visit_elements visitExpression]. unfold mbind, outcome_bind.
    cbn [obind lastChild set_lastChild expression_loc].
    by rewrite (nonDeclVarRef_unresolved name _ tbl idloc).
  - cbn [visitExpression]. unfold mbind, outcome_bind.
    cbn [obind lastChild set_lastChild expression_loc].
    by rewrite (nonDeclVarRef_unresolved name _ tbl idloc).
  - cbn [visitExpression]. unfold mbind, outcome_bind.
    rewrite H. cbn [obind]. rewrite H0.
    cbn [obind lastChild set_lastChild expression_loc].
    by rewrite (nonDeclVarRef_unresolved name _ tbl idloc).
  - destruct H1 as (values & Hpre).
    cbn [visitExpression]. unfold mbind, outcome_bind. rewrite H. cbn [obind].
    rewrite H0. rewrite visit_arguments_app. unfold mbind, outcome_bind.
    rewrite Hpre. cbn [obind visit_arguments visitExpression].
    unfold mbind, outcome_bind. cbn [obind lastChild set_lastChild expression_loc].
    by rewrite (nonDeclVarRef_unresolved name _ tbl idloc).
  - destruct H as (map & entries & Hpre).
    cbn [visitExpression]. rewrite visit_properties_app. unfold mbind, outcome_bind.
    destruct (visit_properties_acc _ _ _ _ _ [] Hpre) as [entries' ->].
    cbn [obind visit_properties visitProperty]. unfold mbind, outcome_bind.
    rewrite H0. cbn [obind visitExpression lastChild set_lastChild expression_loc].
    by rewrite (nonDeclVarRef_unresolved name _ tbl idloc).
  - cbn [visitStatement]. unfold mbind, outcome_bind.
    rewrite H. cbn [obind]. rewrite H0. cbn [obind].
    by rewrite (nonDeclVarRef_unresolved name _ tbl (statement_loc l)).
  - cbn [visitStatement]. unfold mbind, outcome_bind.
    rewrite H. cbn [obind]. rewrite H0. cbn [obind]. rewrite H1.
    cbn [obind visitExpression lastChild set_lastChild expression_loc].
    by rewrite (nonDeclVarRef_unresolved name _ tbl idloc).
  - cbn [visitStatement visitExpression is_AssignmentExpression].
    unfold mbind, outcome_bind. cbn [obind]. rewrite H.
    cbn [obind lastChild set_lastChild get_left expression_loc].
    by rewrite (nonDeclVarRef_unresolved name _ tbl aloc).
Qed.

(** What the walk rejects, it rejects with the message of the failure
    contract for the offending node. *)
Lemma rejected_throw subj st loc reason :
  rejected subj st loc reason →
  walk subj st = Throw (Error (error_message loc reason)).
Proof.
  destruct 1; cbn [walk].
  - cbn [visitStatement]. apply reportError_message.
  - cbn [visitExpression]. apply reportError_message.
  - cbn [visitExpression]. apply reportError_message.
  - destruct H as (loc' & acc & values & Hpre).
    cbn [visitExpression]. rewrite visit_elements_app. unfold mbind, outcome_bind.
    destruct (visit_elements_acc _ _ _ _ _ _ _ loc [] Hpre) as [values' ->].
    cbn [obind visit_elements]. by rewrite reportError_message.
  - cbn [visitExpression is_MemberExpression callee_name]. unfold mbind, outcome_bind.
    cbn [obind]. rewrite bool_decide_eq_true_2 by done. apply reportError_message.
  - cbn [visitExpression]. unfold mbind, outcome_bind. rewrite H. cbn [obind].
    rewrite H0. rewrite bool_decide_eq_false_2 by done. apply reportError_message.
  - destruct H as (map & entries & Hpre).
    cbn [visitExpression]. rewrite visit_properties_app. unfold mbind, outcome_bind.
    destruct (visit_properties_acc _ _ _ _ _ [] Hpre) as [entries' ->].
    cbn [obind visit_properties visitProperty]. by rewrite reportError_message.
  - destruct H as (map & entries & Hpre).
    cbn [visitExpression]. rewrite visit_properties_app. unfold mbind, outcome_bind.
    destruct (visit_properties_acc _ _ _ _ _ [] Hpre) as [entries' ->].
    cbn [obind visit_properties visitProperty]. unfold mbind, outcome_bind.
    rewrite H0. cbn [obind]. by rewrite reportError_message.
  - destruct H as (map & entries & Hpre).
    cbn [visitExpression]. rewrite visit_properties_app. unfold mbind, outcome_bind.
    destruct (visit_properties_acc _ _ _ _ _ [] Hpre) as [entries' ->].
    cbn [obind visit_properties visitProperty]. unfold mbind, outcome_bind.
    rewrite H0. cbn [obind]. by rewrite reportError_message.
  - destruct H as (map & entries & Hpre).
    cbn [visitExpression]. rewrite visit_properties_app. unfold mbind, outcome_bind.
    destruct (visit_properties_acc _ _ _ _ _ [] Hpre) as [entries' ->].
    cbn [obind visit_properties visitProperty]. unfold mbind, outcome_bind.
    rewrite H0. cbn [obind]. by rewrite reportError_message.
  - by eapply lookup_site_throw.
  - cbn [visitStatement]. unfold mbind, outcome_bind. rewrite H. cbn [obind].
    rewrite H0. by rewrite (nonDeclVarRef_unresolved kDiscardName _ tbl).
Qed.

(** The exception of the walk is the exception of [transpile]. *)
Lemma transpile_throw EOL p env e :
  walk (AProgram p) (initial env) = Throw e → transpile EOL p env = Throw e.
Proof. cbn [walk]. unfold transpile, initial. by intros ->. Qed.

End walk_failures.

Section walk_declarations.
Import Vtl Js Walker.

Lemma occurrences_app x l1 l2 :
  occurrences x (l1 ++ l2) = occurrences x l1 + occurrences x l2.
Proof. unfold occurrences. by rewrite filter_app, length_app. Qed.

Lemma occurrences_singleton x name :
  occurrences x [name] = if decide (name = x) then 1 else 0.
Proof.
  unfold occurrences. rewrite filter_cons, filter_nil. by destruct (decide (name = x)).
Qed.




Lemma visitExpression_identifier e st st1 name :
  visitExpression e st = Ok st1 →
  lastChild st1 = IdentifierNode name →
  ∃ loc, e = Identifier loc name.
Proof.
  destruct e; cbn [visitExpression]; unfold mbind, outcome_bind, unsupported.
  - destruct (visit_elements _ _ _ _ _) as [[? ?]|]; [cbn [obind]|done]. by intros [= <-].
  - destruct (visitExpression e1 st); [cbn [obind]|done].
    destruct (visitExpression e2 _); [cbn [obind]|done]. by intros [= <-].
  - destruct (visitExpression e1 st); [cbn [obind]|done].
    destruct (nonDeclVarRef _ _ _); [cbn [obind]|done].
    destruct (visitExpression e2 _); [cbn [obind]|done].
    destruct (nonDeclVarRef _ _ _); [cbn [obind]|done]. by intros [= <-].
  - destruct (visitExpression e st); [cbn [obind]|done].
    destruct (is_MemberExpression e).
    + destruct (visit_arguments _ _ _) as [[? ?]|]; [cbn [obind]|done]. by intros [= <-].
    + case_bool_decide; by rewrite reportError_message.
  - by rewrite reportError_message.
  - intros [= <-] [= <-]. by eexists.
  - by intros [= <-].
  - destruct (visitExpression e1 st); [cbn [obind]|done].
    destruct (visitExpression e2 _); [cbn [obind]|done].
    destruct (new_PropertyReferenceNode _ _) as [v|] eqn:Ev; [cbn [obind]|done].
    intros [= <-]. cbn [lastChild set_lastChild]. intros ->.
    unfold new_PropertyReferenceNode in Ev. repeat case_match; done.
  - destruct (visit_properties _ _ _ _) as [[? ?]|]; [cbn [obind]|done]. by intros [= <-].
  - by rewrite reportError_message.
  - destruct (visitExpression e st); [cbn [obind]|done]. by intros [= <-].
Qed.






Lemma enterScope_declared st x :
  is_Some (scope (enterScope st)) ∧ declared x (enterScope st) = declared x st.
Proof.
  unfold enterScope, declared. destruct (scope st) as [tbl|]; cbn; split; by eexists.
Qed.



End walk_declarations.

Section walk_counters.
Import Vtl Js Walker.

Lemma register_declared name st :
  is_Some (scope st) →
  ∃ st', register name st = Ok st' ∧ is_Some (scope st') ∧ env st' = env st ∧
         ∀ x, declared x st' = declared x st + occurrences x [name].
Proof.
  intros [tbl Hs]. unfold register. rewrite Hs. eexists. split; [done|].
  split; [by eexists|]. split; [done|]. intros x. rewrite occurrences_singleton.
  unfold declared. rewrite Hs. cbn. destruct (decide (name = x)) as [->|Hne].
  - rewrite lookup_insert_eq. cbn. lia.
  - rewrite lookup_insert_ne by done. lia.
Qed.

Lemma register_all_declared names :
  ∀ st, is_Some (scope st) →
    ∃ st', register_all names st = Ok st' ∧ is_Some (scope st') ∧ env st' = env st ∧
           ∀ x, declared x st' = declared x st + occurrences x names.
Proof.
  induction names as [|g names IH]; intros st Hsc; cbn [register_all].
  - exists st. repeat split; first [done | intros x; unfold occurrences; cbn; lia].
  - destruct (register_declared g st Hsc) as (st1 & -> & Hsc1 & He1 & H1).
    unfold mbind, outcome_bind. cbn [obind].
    destruct (IH st1 Hsc1) as (st2 & -> & Hsc2 & He2 & H2).
    exists st2. repeat split; try done; [congruence|]. intros x.
    change (g :: names) with ([g] ++ names). rewrite occurrences_app, H2, H1. lia.
Qed.

Lemma registerEnvGlobals_declared st :
  is_Some (scope st) →
  ∃ st', registerEnvGlobals st = Ok st' ∧ is_Some (scope st') ∧
         ∀ x, declared x st' = declared x st + occurrences x (registered st).
Proof.
  intros Hsc. unfold registerEnvGlobals, registered.
  destruct (register_all_declared (default [] (e ← env st; globals e)) st Hsc)
    as (st1 & -> & Hsc1 & He1 & H1).
  unfold mbind at 1, outcome_bind. cbn [obind].
  destruct (register_declared kDiscardName st1 Hsc1) as (st2 & -> & Hsc2 & He2 & H2).
  exists st2. repeat split; try done. intros x. rewrite occurrences_app, H2, H1. lia.
Qed.











End walk_counters.

(** * Every diagnostic has an offending node *)

Section walk_diagnostics.
Import Vtl Js Walker.

Lemma explained_here subj st loc reason :
  rejected subj st loc reason → explained subj st (error_message loc reason).
Proof. intros H. exists [], subj, st, loc, reason. split; [constructor|done]. Qed.

Lemma explained_inside parent st names child st1 m :
  subvisit parent st names child st1 → explained child st1 m → explained parent st m.
Proof.
  intros Hsub (names' & subj & st2 & loc & reason & Hr & Hrej & ->).
  exists (names ++ names'), subj, st2, loc, reason. split; [by econstructor|done].
Qed.

Lemma nonDeclVarRef_Error v st loc m :
  nonDeclVarRef v st loc = Throw (Error m) →
  ∃ name tbl, v = IdentifierNode name ∧ scope st = Some tbl ∧
              SymbolTable.lookup name tbl = None ∧
              m = error_message loc (not_declared name).
Proof.
  unfold nonDeclVarRef. destruct v; try done.
  destruct (scope st) as [tbl|]; [|done].
  destruct (SymbolTable.lookup name tbl) eqn:El; [done|].
  rewrite reportError_message. intros [= <-]. by exists name, tbl.
Qed.

Lemma identifier_visited e st st1 name :
  visitExpression e st = Ok st1 →
  lastChild st1 = IdentifierNode name →
  ∃ loc, e = Identifier loc name ∧ st1 = set_lastChild (IdentifierNode name) st.
Proof.
  intros H Hl. destruct (visitExpression_identifier _ _ _ _ H Hl) as [loc ->].
  exists loc. split; [done|]. cbn in H. by injection H as <-.
Qed.

Lemma elements_visited_nil st : elements_visited [] st st.
Proof. by exists None, [], []. Qed.

Lemma elements_visited_snoc pre e st0 st st1 v :
  elements_visited pre st0 st →
  visitExpression e st = Ok st1 →
  nonDeclVarRef (lastChild st1) st1 (expression_loc e) = Ok v →
  elements_visited (pre ++ [Some e]) st0 st1.
Proof.
  intros (loc & acc & values & H) He Hv. exists loc, acc. rewrite visit_elements_app.
  unfold mbind, outcome_bind. rewrite H. cbn [obind visit_elements].
  unfold mbind, outcome_bind. rewrite He. cbn [obind]. rewrite Hv. cbn [obind].
  by eexists.
Qed.

Lemma arguments_visited_nil st : arguments_visited [] st st.
Proof. by exists []. Qed.

Lemma arguments_visited_snoc pre a st0 st st1 v :
  arguments_visited pre st0 st →
  visitExpression a st = Ok st1 →
  nonDeclVarRef (lastChild st1) st1 (expression_loc a) = Ok v →
  arguments_visited (pre ++ [a]) st0 st1.
Proof.
  intros (values & H) Ha Hv. unfold arguments_visited. rewrite visit_arguments_app.
  unfold mbind, outcome_bind. rewrite H. cbn [obind visit_arguments].
  unfold mbind, outcome_bind. rewrite Ha. cbn [obind]. rewrite Hv. cbn [obind].
  by eexists.
Qed.

Lemma properties_visited_nil st : properties_visited [] st st.
Proof. by exists [], []. Qed.

Lemma properties_visited_snoc pre p st0 st map map1 st1 :
  properties_visited pre st0 st →
  visitProperty p map st = Ok (map1, st1) →
  properties_visited (pre ++ [p]) st0 st1.
Proof.
  intros (map0 & entries & H) Hp. exists map0. rewrite visit_properties_app.
  unfold mbind, outcome_bind. rewrite H. cbn [obind visit_properties].
  destruct (visitProperty_acc _ _ _ _ _ entries Hp) as [map1' ->]. cbn [obind].
  by eexists.
Qed.

Lemma app_snoc {A} (pre : list A) x rest : (pre ++ [x]) ++ rest = pre ++ x :: rest.
Proof. by rewrite <- app_assoc. Qed.

Section expressions.
Context (P : expression → Prop).
Hypothesis HP : ∀ e, P e ↔
  ∀ st m, visitExpression e st = Throw (Error m) → explained (AnExpression e) st m.

Lemma visit_elements_explained loc st0 rest :
  Forall (λ o, ∀ e, o = Some e → P e) rest →
  ∀ pre acc st m,
    elements_visited pre st0 st →
    visit_elements visitExpression loc rest acc st = Throw (Error m) →
    explained (AnExpression (ArrayExpression loc (pre ++ rest))) st0 m.
Proof using All.
  induction 1 as [|[e|] rest He _ IH]; intros pre acc st m Hpre; cbn [visit_elements].
  - done.
  - unfold mbind, outcome_bind.
    destruct (visitExpression e st) as [st1|x] eqn:E1; cbn [obind].
    + destruct (nonDeclVarRef _ _ _) as [v|x] eqn:Ev; cbn [obind].
      * intros H. rewrite <- app_snoc. eapply IH; [|done].
        by eapply elements_visited_snoc.
      * intros [= ->].
        apply nonDeclVarRef_Error in Ev as (name & tbl & Hl & Hs & Hlook & ->).
        destruct (identifier_visited _ _ _ _ E1 Hl) as (idloc & -> & ->).
        apply explained_here. eapply rejected_identifier; [by eapply site_element|done..].
    + intros [= ->]. eapply explained_inside; [by eapply in_array_element|].
      by apply (proj1 (HP e) (He e eq_refl)).
  - rewrite reportError_message. intros [= <-]. apply explained_here.
    by eapply rejected_hole.
Qed.

Lemma visit_arguments_explained loc callee st0 sta rest :
  visitExpression callee st0 = Ok sta →
  is_MemberExpression callee = true →
  Forall P rest →
  ∀ pre st m,
    arguments_visited pre sta st →
    visit_arguments visitExpression rest st = Throw (Error m) →
    explained (AnExpression (CallExpression loc callee (pre ++ rest))) st0 m.
Proof using All.
  intros Hc Hm. induction 1 as [|a rest Ha _ IH]; intros pre st m Hpre;
    cbn [visit_arguments]; [done|].
  unfold mbind, outcome_bind.
  destruct (visitExpression a st) as [st1|x] eqn:E1; cbn [obind].
  - destruct (nonDeclVarRef _ _ _) as [v|x] eqn:Ev; cbn [obind].
    + destruct (visit_arguments visitExpression rest st1) as [[values st2]|x] eqn:E2;
        [done|]. cbn [obind]. intros [= ->]. rewrite <- app_snoc. eapply IH; [|done].
      by eapply arguments_visited_snoc.
    + intros [= ->].
      apply nonDeclVarRef_Error in Ev as (name & tbl & Hl & Hs & Hlook & ->).
      destruct (identifier_visited _ _ _ _ E1 Hl) as (idloc & -> & ->).
      apply explained_here. eapply rejected_identifier; [by eapply site_argument|done..].
  - intros [= ->]. eapply explained_inside; [by eapply in_call_argument|].
    by apply (proj1 (HP a) Ha).
Qed.

Lemma visit_properties_explained loc st0 rest :
  Forall (λ p, match p with Property _ _ key _ _ value => P key ∧ P value end) rest →
  ∀ pre map st m,
    properties_visited pre st0 st →
    visit_properties visitProperty rest map st = Throw (Error m) →
    explained (AnExpression (ObjectExpression loc (pre ++ rest))) st0 m.
Proof using All.
  induction 1 as [|[ploc computed key method kind value] rest [Hk Hv] _ IH];
    intros pre map st m Hpre; cbn [visit_properties]; [done|].
  unfold mbind at 1, outcome_bind.
  destruct (visitProperty _ map st) as [[map1 st1]|x] eqn:Ep; cbn [obind].
  - intros H. rewrite <- app_snoc. eapply IH; [|done].
    by eapply properties_visited_snoc.
  - intros [= ->]. cbn [visitProperty] in Ep.
    destruct computed.
    { rewrite reportError_message in Ep. injection Ep as <-.
      apply explained_here. by eapply rejected_computed. }
    unfold mbind, outcome_bind in Ep.
    destruct (visitExpression key st) as [st2|x] eqn:E2; cbn [obind] in Ep.
    + destruct method.
      { rewrite reportError_message in Ep. injection Ep as <-.
        apply explained_here. by eapply rejected_method. }
      destruct kind.
      * destruct (visitExpression value st2) as [st3|x] eqn:E3; cbn [obind] in Ep.
        -- destruct (nonDeclVarRef _ _ _) as [v|x] eqn:Ev; [done|]. cbn [obind] in Ep.
           injection Ep as ->.
           apply nonDeclVarRef_Error in Ev as (name & tbl & Hl & Hs & Hlook & ->).
           destruct (identifier_visited _ _ _ _ E3 Hl) as (idloc & -> & ->).
           apply explained_here.
           eapply rejected_identifier; [by eapply site_property_value|done..].
        -- injection Ep as ->. eapply explained_inside; [by eapply in_property_value|].
           by apply (proj1 (HP value) Hv).
      * rewrite reportError_message in Ep. injection Ep as <-.
        apply explained_here. by eapply rejected_getter.
      * rewrite reportError_message in Ep. injection Ep as <-.
        apply explained_here. by eapply rejected_setter.
    + injection Ep as ->. eapply explained_inside; [by eapply in_property_key|].
      by apply (proj1 (HP key) Hk).
Qed.

End expressions.

Lemma new_PropertyReferenceNode_no_Error receiver property m :
  new_PropertyReferenceNode receiver property ≠ Throw (Error m).
Proof. unfold new_PropertyReferenceNode. repeat case_match; done. Qed.

Lemma callee_Symbol callee :
  callee_name callee = Some "Symbol" → ∃ loc, callee = Identifier loc "Symbol".
Proof. destruct callee; try done. cbn. intros [= ->]. by eexists. Qed.

(** An [Error] of the visit of an expression is the message of an offending
    node that the visit reaches. *)
Lemma visitExpression_explained e :
  ∀ st m, visitExpression e st = Throw (Error m) → explained (AnExpression e) st m.
Proof.
  induction e as [loc elements IH|loc op l r IHl IHr|loc op l r IHl IHr
                  |loc callee args IHc IHa|loc|loc name|loc v|loc o p IHo IHp
                  |loc properties IH|loc|loc op prefix a IHa]
    using expression_nested_ind; intros st m; cbn [visitExpression];
    unfold mbind, outcome_bind, unsupported.
  - destruct (visit_elements _ _ _ _ _) as [[array st1]|x] eqn:E; [done|].
    cbn [obind]. intros [= ->].
    apply (visit_elements_explained
             (λ e, ∀ st m, visitExpression e st = Throw (Error m) →
                           explained (AnExpression e) st m)
             (λ e, iff_refl _) loc st elements IH [] [] st m (elements_visited_nil st) E).
  - destruct (visitExpression l st) as [st1|x] eqn:E1; cbn [obind].
    + destruct (visitExpression r st1) as [st2|x] eqn:E2; [done|]. cbn [obind].
      intros [= ->]. eapply explained_inside; [by eapply in_assignment_right|].
      by apply IHr.
    + intros [= ->]. eapply explained_inside; [by eapply in_assignment_left|].
      by apply IHl.
  - destruct (visitExpression l st) as [st1|x] eqn:E1; cbn [obind].
    + destruct (nonDeclVarRef _ _ _) as [left|x] eqn:El; cbn [obind].
      * destruct (visitExpression r st1) as [st2|x] eqn:E2; cbn [obind].
        -- destruct (nonDeclVarRef (lastChild st2) _ _) as [right|x] eqn:Er; [done|].
           cbn [obind]. intros [= ->].
           apply nonDeclVarRef_Error in Er as (name & tbl & Hl & Hs & Hlook & ->).
           destruct (identifier_visited _ _ _ _ E2 Hl) as (idloc & -> & ->).
           apply explained_here.
           eapply rejected_identifier; [by eapply site_right_operand|done..].
        -- intros [= ->]. eapply explained_inside; [by eapply in_binary_right|].
           by apply IHr.
      * intros [= ->].
        apply nonDeclVarRef_Error in El as (name & tbl & Hl & Hs & Hlook & ->).
        destruct (identifier_visited _ _ _ _ E1 Hl) as (idloc & -> & ->).
        apply explained_here.
        eapply rejected_identifier; [by eapply site_left_operand|done..].
    + intros [= ->]. eapply explained_inside; [by eapply in_binary_left|].
      by apply IHl.
  - destruct (visitExpression callee st) as [st1|x] eqn:E1; cbn [obind].
    + destruct (is_MemberExpression callee) eqn:Em.
      * destruct (visit_arguments _ _ _) as [[values st2]|x] eqn:E2; [done|].
        cbn [obind]. intros [= ->].
        apply (visit_arguments_explained
                 (λ e, ∀ st m, visitExpression e st = Throw (Error m) →
                               explained (AnExpression e) st m)
                 (λ e, iff_refl _) loc callee st st1 args E1 Em IHa [] st1 m
                 (arguments_visited_nil st1) E2).
      * case_bool_decide as Hname; rewrite reportError_message; intros [= <-];
          apply explained_here.
        -- destruct (callee_Symbol _ Hname) as [idloc ->]. apply rejected_symbol.
        -- by eapply rejected_call.
    + intros [= ->]. eapply explained_inside; [by eapply in_call_callee|].
      by apply IHc.
  - rewrite reportError_message. intros [= <-]. apply explained_here.
    apply rejected_function.
  - done.
  - done.
  - destruct (visitExpression o st) as [st1|x] eqn:E1; cbn [obind].
    + destruct (visitExpression p st1) as [st2|x] eqn:E2; cbn [obind].
      * destruct (new_PropertyReferenceNode _ _) as [v|x] eqn:Ev; [done|].
        cbn [obind]. intros [= ->]. by apply new_PropertyReferenceNode_no_Error in Ev.
      * intros [= ->]. eapply explained_inside; [by eapply in_member_property|].
        by apply IHp.
    + intros [= ->]. eapply explained_inside; [by eapply in_member_object|].
      by apply IHo.
  - destruct (visit_properties _ _ _ _) as [[map st1]|x] eqn:E; [done|].
    cbn [obind]. intros [= ->].
    apply (visit_properties_explained
             (λ e, ∀ st m, visitExpression e st = Throw (Error m) →
                           explained (AnExpression e) st m)
             (λ e, iff_refl _) loc st properties IH [] [] st m
             (properties_visited_nil st) E).
  - rewrite reportError_message. intros [= <-]. apply explained_here.
    apply rejected_this.
  - destruct (visitExpression a st) as [st1|x] eqn:E1; [done|]. cbn [obind].
    intros [= ->]. eapply explained_inside; [by eapply in_unary_argument|].
    by apply IHa.
Qed.

End walk_diagnostics.

Section walk_diagnostics_statements.
Import Vtl Js Walker.

Lemma declVarRef_no_Error v st m : declVarRef v st ≠ Throw (Error m).
Proof. unfold declVarRef. destruct v; try done. by destruct (scope st). Qed.

Lemma first_statement_no_Error v m : first_statement v ≠ Throw (Error m).
Proof. unfold first_statement. repeat case_match; done. Qed.

Lemma visitDeclarator_explained d :
  ∀ st m, visitDeclarator d st = Throw (Error m) → explained (ADeclarator d) st m.
Proof.
  destruct d as [loc id init]. intros st m. cbn [visitDeclarator].
  unfold mbind, outcome_bind.
  destruct (visitExpression id st) as [st1|x] eqn:E1; cbn [obind].
  - destruct (declVarRef _ st1) as [[reference st2]|x] eqn:Ed; cbn [obind].
    + destruct init as [e|]; [|done].
      destruct (visitExpression e st2) as [st3|x] eqn:E3; [done|]. cbn [obind].
      intros [= ->]. eapply explained_inside; [by eapply in_declarator_init|].
      by apply visitExpression_explained.
    + intros [= ->]. by apply declVarRef_no_Error in Ed.
  - intros [= ->]. eapply explained_inside; [by eapply in_declarator_id|].
    by apply visitExpression_explained.
Qed.

Lemma statements_visited_nil st : statements_visited [] st st.
Proof. by exists [], []. Qed.

Lemma statements_visited_snoc pre s st0 st st1 :
  statements_visited pre st0 st →
  visitStatement s st = Ok st1 →
  statements_visited (pre ++ [s]) st0 st1.
Proof.
  intros (acc & nodes & H) Hs. exists acc. rewrite visit_each_app.
  unfold mbind, outcome_bind. rewrite H. cbn [obind visit_each].
  unfold mbind, outcome_bind. rewrite Hs. cbn [obind]. by eexists.
Qed.

Lemma declarators_visited_nil st : declarators_visited [] st st.
Proof. by exists [], []. Qed.

Lemma declarators_visited_snoc pre d st0 st st1 :
  declarators_visited pre st0 st →
  visitDeclarator d st = Ok st1 →
  declarators_visited (pre ++ [d]) st0 st1.
Proof.
  intros (acc & nodes & H) Hs. exists acc. rewrite visit_each_app.
  unfold mbind, outcome_bind. rewrite H. cbn [obind visit_each].
  unfold mbind, outcome_bind. rewrite Hs. cbn [obind]. by eexists.
Qed.

Lemma consequent_visited_nil st : consequent_visited [] st st.
Proof. by exists [], []. Qed.

Lemma consequent_visited_snoc pre s st0 st st1 :
  consequent_visited pre st0 st →
  is_BreakStatement s = false →
  visitStatement s st = Ok st1 →
  consequent_visited (pre ++ [s]) st0 st1.
Proof.
  intros (acc & nodes & H) Hb Hs. exists acc. rewrite visit_consequent_app.
  unfold mbind, outcome_bind. rewrite H. cbn [obind visit_consequent]. rewrite Hb.
  unfold mbind, outcome_bind. rewrite Hs. cbn [obind]. by eexists.
Qed.

Lemma cases_visited_nil st : cases_visited [] st st.
Proof. by exists {| matched := Null; fallthrough := Null; discriminant := Null |}, [], []. Qed.

Lemma cases_visited_snoc pre c refs st0 st directive st1 :
  cases_visited pre st0 st →
  visit_case visitStatement refs c st = Ok (directive, st1) →
  cases_visited (pre ++ [c]) st0 st1.
Proof.
  intros (refs0 & acc & nodes & H) Hc. exists refs0, acc. rewrite visit_cases_app.
  unfold mbind, outcome_bind. rewrite H. cbn [obind visit_cases].
  destruct (visit_case_acc _ _ _ _ _ _ refs0 Hc) as [directive' ->]. cbn [obind].
  by eexists.
Qed.

Section statements.
Context (P : statement → Prop).
Hypothesis HP : ∀ s, P s ↔
  ∀ st m, visitStatement s st = Throw (Error m) → explained (AStatement s) st m.

Lemma visit_block_explained loc st0 rest :
  Forall P rest →
  ∀ pre acc st m,
    statements_visited pre (enterScope st0) st →
    visit_each visitStatement rest acc st = Throw (Error m) →
    explained (AStatement (BlockStatement loc (pre ++ rest))) st0 m.
Proof using All.
  induction 1 as [|s rest Hs _ IH]; intros pre acc st m Hpre; cbn [visit_each]; [done|].
  unfold mbind, outcome_bind.
  destruct (visitStatement s st) as [st1|x] eqn:E1; cbn [obind].
  - intros H. rewrite <- app_snoc. eapply IH; [|done].
    by eapply statements_visited_snoc.
  - intros [= ->]. eapply explained_inside; [by eapply in_block|].
    by apply (proj1 (HP s) Hs).
Qed.

Lemma visit_program_explained loc st0 sta rest :
  registerEnvGlobals (enterScope st0) = Ok sta →
  Forall P rest →
  ∀ pre acc st m,
    statements_visited pre sta st →
    visit_each visitStatement rest acc st = Throw (Error m) →
    explained (AProgram (Program loc (pre ++ rest))) st0 m.
Proof using All.
  intros Hreg. induction 1 as [|s rest Hs _ IH]; intros pre acc st m Hpre;
    cbn [visit_each]; [done|].
  unfold mbind, outcome_bind.
  destruct (visitStatement s st) as [st1|x] eqn:E1; cbn [obind].
  - intros H. rewrite <- app_snoc. eapply IH; [|done].
    by eapply statements_visited_snoc.
  - intros [= ->]. eapply explained_inside; [by eapply in_program|].
    by apply (proj1 (HP s) Hs).
Qed.

Lemma visit_consequent_explained loc d pre cloc test post st0 st4 st5 st6 rest :
  switch_entered d st0 st4 →
  cases_visited pre st4 st5 →
  test_visited test st5 st6 →
  Forall P rest →
  ∀ cpre acc st m,
    consequent_visited cpre st6 st →
    visit_consequent visitStatement rest acc st = Throw (Error m) →
    explained (AStatement (SwitchStatement loc d
                             (pre ++ SwitchCase cloc test (cpre ++ rest) :: post)))
              st0 m.
Proof using All.
  intros Hd Hpre Ht. induction 1 as [|s rest Hs _ IH]; intros cpre acc st m Hcpre;
    cbn [visit_consequent]; [done|].
  destruct (is_BreakStatement s) eqn:Hb; [done|].
  unfold mbind, outcome_bind.
  destruct (visitStatement s st) as [st1|x] eqn:E1; cbn [obind].
  - intros H. rewrite <- (app_snoc cpre s rest). eapply IH; [|done].
    by eapply consequent_visited_snoc.
  - intros [= ->]. eapply explained_inside; [by eapply in_case_consequent|].
    by apply (proj1 (HP s) Hs).
Qed.

Lemma visit_cases_explained loc d st0 st4 refs rest :
  switch_entered d st0 st4 →
  Forall (λ c, match c with SwitchCase _ _ consequent => Forall P consequent end) rest →
  ∀ pre acc st m,
    cases_visited pre st4 st →
    visit_cases visitStatement refs rest acc st = Throw (Error m) →
    explained (AStatement (SwitchStatement loc d (pre ++ rest))) st0 m.
Proof using All.
  intros Hd. induction 1 as [|[cloc test consequent] rest Hc _ IH];
    intros pre acc st m Hpre; cbn [visit_cases]; [done|].
  unfold mbind at 1, outcome_bind.
  destruct (visit_case _ _ _ _) as [[directive st1]|x] eqn:Ec; cbn [obind].
  - intros H. rewrite <- app_snoc. eapply IH; [|done].
    by eapply cases_visited_snoc.
  - intros [= ->]. cbn [visit_case] in Ec. unfold mbind, outcome_bind in Ec.
    destruct test as [t|].
    + destruct (visitExpression t st) as [st2|x] eqn:E2; cbn [obind] in Ec.
      * destruct (visit_consequent _ _ _ _) as [[[nodes cf] st3]|x] eqn:E3;
          cbn [obind] in Ec; [by destruct cf|].
        injection Ec as ->.
        apply (visit_consequent_explained loc d pre cloc (Some t) rest st0 st4 st st2
                 consequent Hd Hpre E2 Hc [] [] st2 m (consequent_visited_nil st2) E3).
      * injection Ec as ->. eapply explained_inside; [by eapply in_case_test|].
        by apply visitExpression_explained.
    + cbn [obind] in Ec.
      destruct (visit_consequent _ _ _ _) as [[[nodes cf] st3]|x] eqn:E3;
        cbn [obind] in Ec; [by destruct cf|].
      injection Ec as ->.
      apply (visit_consequent_explained loc d pre cloc None rest st0 st4 st st
               consequent Hd Hpre eq_refl Hc [] [] st m (consequent_visited_nil st) E3).
Qed.

End statements.

Lemma visit_declarators_explained loc st0 rest :
  ∀ pre acc st m,
    declarators_visited pre st0 st →
    visit_each visitDeclarator rest acc st = Throw (Error m) →
    explained (AStatement (VariableDeclaration loc (pre ++ rest))) st0 m.
Proof.
  induction rest as [|d rest IH]; intros pre acc st m Hpre; cbn [visit_each]; [done|].
  unfold mbind, outcome_bind.
  destruct (visitDeclarator d st) as [st1|x] eqn:E1; cbn [obind].
  - intros H. rewrite <- app_snoc. eapply IH; [|done].
    by eapply declarators_visited_snoc.
  - intros [= ->]. eapply explained_inside; [by eapply in_declaration|].
    by apply visitDeclarator_explained.
Qed.

(** An [Error] of the visit of a statement is the message of an offending
    node that the visit reaches. *)
Lemma visitStatement_explained s :
  ∀ st m, visitStatement s st = Throw (Error m) → explained (AStatement s) st m.
Proof.
  induction s as [loc body IH|loc e|loc l r body IHl IHb|loc test consequent alternate IHc IHa
                  |loc d cases IH|loc declarations|loc kind]
    using statement_nested_ind; intros st m; cbn [visitStatement];
    unfold mbind, outcome_bind.
  - destruct (visit_each _ _ _ _) as [[stmts st1]|x] eqn:E; [done|]. cbn [obind].
    intros [= ->].
    apply (visit_block_explained
             (λ s, ∀ st m, visitStatement s st = Throw (Error m) →
                           explained (AStatement s) st m)
             (λ s, iff_refl _) loc st body IH [] [] (enterScope st) m
             (statements_visited_nil _) E).
  - destruct (visitExpression e st) as [st1|x] eqn:E1; cbn [obind].
    + destruct (is_AssignmentExpression e) eqn:Ha.
      * destruct (nonDeclVarRef _ _ _) as [reference|x] eqn:Er; [done|]. cbn [obind].
        intros [= ->].
        apply nonDeclVarRef_Error in Er as (name & tbl & Hl & Hs & Hlook & ->).
        destruct e; try done. cbn [visitExpression] in E1.
        unfold mbind, outcome_bind in E1.
        destruct (visitExpression e1 st) as [sa|] eqn:Ea; [cbn [obind] in E1|done].
        destruct (visitExpression e2 sa) as [sb|] eqn:Eb; [cbn [obind] in E1|done].
        injection E1 as <-. cbn [lastChild set_lastChild get_left] in Hl.
        destruct (identifier_visited _ _ _ _ Ea Hl) as (idloc & -> & ->).
        apply explained_here.
        eapply rejected_identifier; [by eapply site_assignment_target|done..].
      * destruct (nonDeclVarRef _ _ _) as [reference|x] eqn:Er; [done|]. cbn [obind].
        intros [= ->].
        apply nonDeclVarRef_Error in Er as (name & tbl & [= <-] & Hs & Hlook & ->).
        apply explained_here. by eapply rejected_discard.
    + intros [= ->]. eapply explained_inside; [by eapply in_expression_statement|].
      by apply visitExpression_explained.
  - destruct (visitStatement l st) as [st1|x] eqn:E1; cbn [obind].
    + destruct (first_statement _) as [iterator|x] eqn:Ef; cbn [obind];
        [|intros [= ->]; by apply first_statement_no_Error in Ef].
      destruct (nonDeclVarRef iterator _ _) as [iteratorRef|x] eqn:Ei; cbn [obind].
      * destruct (visitExpression r st1) as [st2|x] eqn:E2; cbn [obind].
        -- destruct (nonDeclVarRef (lastChild st2) _ _) as [iterableRef|x] eqn:Eb;
             cbn [obind].
           ++ destruct (visitStatement body st2) as [st3|x] eqn:E3; [done|].
              cbn [obind]. intros [= ->].
              eapply explained_inside; [by eapply in_for_of_body|]. by apply IHb.
           ++ intros [= ->].
              apply nonDeclVarRef_Error in Eb as (name & tbl & Hl & Hs & Hlook & ->).
              destruct (identifier_visited _ _ _ _ E2 Hl) as (idloc & -> & ->).
              apply explained_here.
              eapply rejected_identifier; [by eapply site_iterable|done..].
        -- intros [= ->]. eapply explained_inside; [by eapply in_for_of_right|].
           by apply visitExpression_explained.
      * intros [= ->].
        apply nonDeclVarRef_Error in Ei as (name & tbl & -> & Hs & Hlook & ->).
        apply explained_here.
        eapply rejected_identifier; [by eapply site_iterator|done..].
    + intros [= ->]. eapply explained_inside; [by eapply in_for_of_left|].
      by apply IHl.
  - destruct (visitExpression test st) as [st1|x] eqn:E1; cbn [obind].
    + destruct (visitStatement consequent st1) as [st2|x] eqn:E2; cbn [obind].
      * destruct alternate as [a|]; [|done].
        destruct (visitStatement a st2) as [st3|x] eqn:E3; [done|]. cbn [obind].
        intros [= ->]. eapply explained_inside; [by eapply in_if_alternate|].
        by apply (IHa a eq_refl).
      * intros [= ->]. eapply explained_inside; [by eapply in_if_consequent|].
        by apply IHc.
    + intros [= ->]. eapply explained_inside; [by eapply in_if_test|].
      by apply visitExpression_explained.
  - destruct (visitExpression d st) as [st1|x] eqn:E1; cbn [obind].
    + destruct (declVarRef _ st1) as [[mm st2]|x] eqn:Em; cbn [obind];
        [|intros [= ->]; by apply declVarRef_no_Error in Em].
      destruct (declVarRef _ st2) as [[ff st3]|x] eqn:Ef; cbn [obind];
        [|intros [= ->]; by apply declVarRef_no_Error in Ef].
      destruct (declVarRef _ st3) as [[dd st4]|x] eqn:Ed; cbn [obind];
        [|intros [= ->]; by apply declVarRef_no_Error in Ed].
      destruct (visit_cases _ _ _ _ _) as [[stmts st5]|x] eqn:Ec; [done|]. cbn [obind].
      intros [= ->].
      assert (switch_entered d st st4) as Hentered by (by eexists _, _, _, _, _, _).
      apply (visit_cases_explained
               (λ s, ∀ st m, visitStatement s st = Throw (Error m) →
                             explained (AStatement s) st m)
               (λ s, iff_refl _) loc d st st4 _ cases Hentered IH [] _ st4 m
               (cases_visited_nil st4) Ec).
    + intros [= ->]. eapply explained_inside; [by eapply in_switch_discriminant|].
      by apply visitExpression_explained.
  - destruct (visit_each _ _ _ _) as [[stmts st1]|x] eqn:E; [done|]. cbn [obind].
    intros [= ->].
    apply (visit_declarators_explained loc st declarations [] [] st m
             (declarators_visited_nil st) E).
  - unfold unsupported. rewrite reportError_message. intros [= <-].
    apply explained_here. apply rejected_statement.
Qed.

(** An [Error] of the walk is the message of an offending node that the
    walk reaches. *)
Lemma walk_explained subj st m :
  walk subj st = Throw (Error m) → explained subj st m.
Proof.
  destruct subj as [[loc body]|s|d|e]; cbn [walk].
  - unfold visitProgram. cbn [program_body].
    destruct (registerEnvGlobals_declared (enterScope st)) as (sta & Hreg & _);
      [apply (enterScope_declared st "")|].
    unfold mbind, outcome_bind. rewrite Hreg. cbn [obind].
    destruct (visit_each _ _ _ _) as [[stmts st1]|x] eqn:E; [done|]. cbn [obind].
    intros [= ->].
    apply (visit_program_explained
             (λ s, ∀ st m, visitStatement s st = Throw (Error m) →
                           explained (AStatement s) st m)
             (λ s, iff_refl _) loc st sta body Hreg
             (proj2 (Forall_forall _ _) (λ s _, visitStatement_explained s))
             [] [] sta m (statements_visited_nil sta) E).
  - apply visitStatement_explained.
  - apply visitDeclarator_explained.
  - apply visitExpression_explained.
Qed.

End walk_diagnostics_statements.

(** * Indentation of the block directives *)

Section block_indentation.
Import Vtl.

(** C10, amended.  A [serialize] call that returns leaves the context as it
    found it.  A [ForEachDirectiveNode] serializes its body, and an
    [IfDirectiveNode] its consequent and its else branch, in the context
    one level deeper, and when that returns the output of the body stands
    between the header and [#end] and the level is the one at entry.  When
    the body throws, the directive throws the same exception and the level
    stays above its value at entry: it is not restored. *)
Theorem block_directive_indent_restored_on_return context :
  (0 ≤ indentLevel context)%Z →
  (∀ n out context', serialize n context = (Ok out, context') → context' = context) ∧
  (∀ iterator iterable body i a,
      template toString iterator = Ok i →
      template toString iterable = Ok a →
      let header := "#foreach( " +:+ i +:+ " in " +:+ a +:+ " )" +:+ eol context in
      match serialize body (indent 1 context) with
      | (Ok b, context1) =>
          context1 = indent 1 context ∧
          indentLevel context1 = (indentLevel context + 1)%Z ∧
          serialize (ForEachDirectiveNode iterator iterable body) context
            = (Ok (header +:+ b +:+ "#end"), context)
      | (Throw e, context1) =>
          serialize (ForEachDirectiveNode iterator iterable body) context
            = (Throw e, context1) ∧
          (indentLevel context < indentLevel context1)%Z
      end) ∧
  (∀ test consequent alternate isElseIf t,
      serialize test context = (Ok t, context) →
      let header := "#" +:+ (if isElseIf : bool then "elseif" else "if") +:+
                    "( " +:+ t +:+ " )" +:+ eol context in
      match serialize consequent (indent 1 context) with
      | (Ok c, context1) =>
          context1 = indent 1 context ∧
          indentLevel context1 = (indentLevel context + 1)%Z ∧
          (truthy alternate = false →
           serialize (IfDirectiveNode test consequent alternate isElseIf) context
             = (Ok (header +:+ c +:+ "#end" +:+ eol context), context)) ∧
          (truthy alternate = true → read_isElseIf alternate = false →
           match serialize alternate (indent 1 context) with
           | (Ok a, context2) =>
               context2 = indent 1 context ∧
               serialize (IfDirectiveNode test consequent alternate isElseIf) context
                 = (Ok (header +:+ c +:+ "#else" +:+ eol context +:+ a +:+
                        "#end" +:+ eol context), context)
           | (Throw e, context2) =>
               serialize (IfDirectiveNode test consequent alternate isElseIf) context
                 = (Throw e, context2) ∧
               (indentLevel context < indentLevel context2)%Z
           end)
      | (Throw e, context1) =>
          serialize (IfDirectiveNode test consequent alternate isElseIf) context
            = (Throw e, context1) ∧
          (indentLevel context < indentLevel context1)%Z
      end).
Proof.
  intros Hlevel.
  assert (∀ n e context1,
            serialize n (indent 1 context) = (Throw e, context1) →
            (indentLevel context < indentLevel context1)%Z) as Hthrow.
  { intros n e context1 H.
    destruct (serialize_throws_safely n (indent 1 context) e context1) as (_ & Hle & _);
      [cbn; lia|done|]. cbn in Hle. lia. }
  split; [intros n out context'; apply serialize_ok_context|]. split.
  - intros iterator iterable body i a Hi Ha. cbn zeta.
    destruct (serialize body (indent 1 context)) as [[b|e] context1] eqn:E.
    + pose proof (serialize_ok_context _ _ _ _ E) as ->.
      split; [done|]. split; [done|]. cbn [serialize].
      unfold mbind, Ser_bind, ask, lift, modify, mret, Ser_ret.
      by rewrite Hi, Ha, E, dedent_indent.
    + split; [|by eapply Hthrow]. cbn [serialize].
      unfold mbind, Ser_bind, ask, lift, modify, mret, Ser_ret.
      by rewrite Hi, Ha, E.
  - intros test consequent alternate isElseIf t Ht. cbn zeta.
    destruct (serialize consequent (indent 1 context)) as [[c|e] context1] eqn:E.
    + pose proof (serialize_ok_context _ _ _ _ E) as ->.
      split; [done|]. split; [done|]. split.
      * intros Halt. cbn [serialize].
        unfold mbind, Ser_bind, ask, lift, modify, mret, Ser_ret.
        rewrite Ht, E, dedent_indent, Halt. by rewrite !string_app_assoc.
      * intros Halt Helse.
        destruct (serialize alternate (indent 1 context)) as [[a|e] context2] eqn:E2.
        -- pose proof (serialize_ok_context _ _ _ _ E2) as ->. split; [done|].
           cbn [serialize]. unfold mbind, Ser_bind, ask, lift, modify, mret, Ser_ret.
           rewrite Ht, E, dedent_indent, Halt, Helse, E2, dedent_indent.
           by rewrite !string_app_assoc.
        -- split; [|by eapply Hthrow]. cbn [serialize].
           unfold mbind, Ser_bind, ask, lift, modify, mret, Ser_ret.
           by rewrite Ht, E, dedent_indent, Halt, Helse, E2.
    + split; [|by eapply Hthrow]. cbn [serialize].
      unfold mbind, Ser_bind, ask, lift, modify, mret, Ser_ret.
      by rewrite Ht, E.
Qed.

Lemma block_directive_indent_restored_witness :
  serialize
    (ForEachDirectiveNode
       (VariableReferenceNode (IdentifierNode "item") (Some "item"))
       (VariableReferenceNode (IdentifierNode "array") (Some "array"))
       (StatementListNode
          [SetDirectiveNode (VariableReferenceNode (IdentifierNode "foo") (Some "foo"))
                            (LiteralNode (LNumber 15))]))
    (new_SerializationContext LF)
  = (Ok "#foreach( $item in $array )
  #set( $foo = 15 )
#end", new_SerializationContext LF).
Proof.
  assert (0 ≤ indentLevel (new_SerializationContext LF))%Z as Hlevel by (simpl; lia).
  pose proof (proj1 (proj2 (block_directive_indent_restored_on_return
                              (new_SerializationContext LF) Hlevel))
                (VariableReferenceNode (IdentifierNode "item") (Some "item"))
                (VariableReferenceNode (IdentifierNode "array") (Some "array"))
                (StatementListNode
                   [SetDirectiveNode
                      (VariableReferenceNode (IdentifierNode "foo") (Some "foo"))
                      (LiteralNode (LNumber 15))])
                "$item" "$array" eq_refl eq_refl) as H.
  vm_compute in H. destruct H as (_ & _ & H). vm_compute. exact H.
Defined.

End block_indentation.

(** * Reference chains *)

Section reference_chain_text.
Import Vtl Js Walker.

Lemma template_unprefixed_unflagged v :
  (sigils v = 0 → unprefixed v = toString v) →
  sigils v = 0 → template unprefixed v = template toString v.
Proof. intros H H0. destruct v; try done; by apply H. Qed.

(** A chain without a root flag is printed without sigil: its text is its
    sigil-free text. *)
Lemma unprefixed_unflagged v : sigils v = 0 → unprefixed v = toString v.
Proof.
  induction v as [| | | | | | | | |p params IHp _| |r p f IHr _| | | | | | |]
    using node_nested_ind; try done; cbn [sigils unprefixed toString].
  - intros H0. by rewrite (template_unprefixed_unflagged p IHp H0).
  - destruct f; [done|]. cbn. intros H0.
    by rewrite (template_unprefixed_unflagged r IHr H0).
Qed.

(** A chain whose root is its outermost link is printed as one sigil
    followed by its sigil-free text. *)
Lemma rooted_text v :
  rooted v → toString v = s ← unprefixed v; Ok ("$" +:+ s).
Proof.
  intros [(r & p & -> & Hr)|(r & p & params & -> & Hr)];
    cbn [toString unprefixed template]; unfold mbind, outcome_bind.
  - rewrite (template_unprefixed_unflagged r (unprefixed_unflagged r) Hr).
    destruct (template toString r); [cbn [obind]|done].
    by destruct (template toString p).
  - destruct (mapM _ params); [cbn [obind]|done].
    rewrite (template_unprefixed_unflagged r (unprefixed_unflagged r) Hr).
    destruct (template toString r); [cbn [obind]|done].
    by destruct (template toString p).
Qed.

(** C5, as stated, fails for the MethodReference: its constructor writes no
    flag.  In [foo.bar()] the receiver of the call is the chain [foo.bar],
    and after the MethodReference is constructed over it the chain still
    carries its root flag (which is where the one sigil of [$foo.bar()]
    comes from). *)
Lemma method_reference_keeps_the_root_flag :
  let chain := PropertyReferenceNode (IdentifierNode "foo") (IdentifierNode "bar") true in
  let st := {| lastChild := Null; scope := Some SymbolTable.new; env := None |} in
  visitExpression (MemberExpression None (Identifier None "foo") (Identifier None "bar")) st
    = Ok (set_lastChild chain st) ∧
  new_MethodReferenceNode chain [[]] = MethodReferenceNode chain [[]] ∧
  visitExpression
    (CallExpression None
       (MemberExpression None (Identifier None "foo") (Identifier None "bar")) []) st
    = Ok (set_lastChild (MethodReferenceNode chain [[]]) st) ∧
  toString (MethodReferenceNode chain [[]]) = Ok "$foo.bar()".
Proof. cbn zeta. repeat split; vm_compute; reflexivity. Qed.

(** C5, amended.  The node built for a property-access or method-call chain
    has exactly one link that prints the sigil, the outermost
    PropertyReference on its receiver spine (the node itself, or the
    property chain of the outermost MethodReference); no link below it
    carries the root flag, and the rendered chain is the sigil followed by
    the sigil-free text of the links.  The PropertyReference constructor
    clears the flag of a PropertyReference receiver and of the property
    chain of a MethodReference receiver; the MethodReference constructor
    clears nothing. *)
Theorem chain_has_one_reference_root e st st' :
  visitExpression e st = Ok st' →
  is_chain e = true →
  rooted (lastChild st') ∧
  sigils (lastChild st') = 1 ∧
  toString (lastChild st') = (s ← unprefixed (lastChild st'); Ok ("$" +:+ s)) ∧
  (∀ v, sigils v = 0 → toString v = unprefixed v) ∧
  (∀ r p f property,
      new_PropertyReferenceNode (PropertyReferenceNode r p f) property
        = Ok (PropertyReferenceNode (PropertyReferenceNode r p false) property true)) ∧
  (∀ r p f params property,
      new_PropertyReferenceNode
        (MethodReferenceNode (PropertyReferenceNode r p f) params) property
        = Ok (PropertyReferenceNode
                (MethodReferenceNode (PropertyReferenceNode r p false) params)
                property true)) ∧
  (∀ property params,
      new_MethodReferenceNode property params = MethodReferenceNode property params).
Proof.
  intros Hvisit Hchain.
  assert (rooted (lastChild st')) as Hrooted.
  { apply visitExpression_chain_shape in Hvisit. destruct e; try done.
    - right. destruct Hvisit as (r & p & params & -> & Hr). by eexists _, _, _.
    - left. destruct Hvisit as (r & p & -> & Hr). by eexists _, _. }
  split; [done|]. split; [by apply rooted_sigils|].
  split; [by apply rooted_text|].
  split; [intros v Hv; symmetry; by apply unprefixed_unflagged|]. done.
Qed.

(** [foo.bar().baz] *)
Lemma chain_has_one_reference_root_witness :
  let v := PropertyReferenceNode
             (MethodReferenceNode
                (PropertyReferenceNode (IdentifierNode "foo") (IdentifierNode "bar") false)
                [[]])
             (IdentifierNode "baz") true in
  rooted v ∧ sigils v = 1 ∧ unprefixed v = Ok "foo.bar().baz" ∧
  toString v = Ok "$foo.bar().baz".
Proof.
  cbn zeta.
  pose proof (chain_has_one_reference_root
    (MemberExpression None
       (CallExpression None
          (MemberExpression None (Identifier None "foo") (Identifier None "bar")) [])
       (Identifier None "baz"))
    {| lastChild := Null; scope := Some SymbolTable.new; env := None |}
    {| lastChild :=
         PropertyReferenceNode
           (MethodReferenceNode
              (PropertyReferenceNode (IdentifierNode "foo") (IdentifierNode "bar") false)
              [[]])
           (IdentifierNode "baz") true;
       scope := Some SymbolTable.new; env := None |}
    eq_refl eq_refl) as (H1 & H2 & H3 & _).
  split; [exact H1|]. split; [exact H2|]. split; [reflexivity|].
  vm_compute in H3. vm_compute. exact H3.
Defined.

End reference_chain_text.

(** * The failure contract, identifier resolution and declaration numbering *)

Section walk_claims.
Import Vtl Js Walker.

Lemma transpile_Error EOL p env m :
  transpile EOL p env = Throw (Error m) →
  walk (AProgram p) (initial env) = Throw (Error m).
Proof.
  cbn [walk]. unfold transpile, initial. unfold mbind, outcome_bind.
  destruct (visitProgram p _) as [st'|e]; cbn [obind]; [|by intros [= ->]].
  destruct (serialize _ _) as [[text|e] context'] eqn:Es; [done|]. cbn [fst].
  intros [= ->]. apply serialize_throws_safely in Es as [[m' [=]] _]. cbn. lia.
Qed.

(** C9. Whenever the walk of a program comes upon an unsupported construct
    or an unresolved identifier, [transpile] throws, and so returns no
    text, an [Error] whose message is exactly [Line <L>, column <C>:
    <reason>] when the offending node carries a location (L its 1-based
    line, C its 0-based column plus one) and exactly [<reason>] when it
    carries none; and every [Error] that [transpile] throws is the message
    of such an offending node. *)
Theorem failure_message_format EOL p env :
  (∀ names subj st loc reason,
      reaches (AProgram p) (initial env) names subj st →
      rejected subj st loc reason →
      transpile EOL p env = Throw (Error (error_message loc reason))) ∧
  (∀ m, transpile EOL p env = Throw (Error m) →
      ∃ names subj st loc reason,
        reaches (AProgram p) (initial env) names subj st ∧
        rejected subj st loc reason ∧
        m = error_message loc reason) ∧
  (∀ position reason,
      error_message (Some {| start := Some position |}) reason
      = "Line " +:+ pretty (line position) +:+ ", column " +:+
        pretty (column position + 1)%N +:+ ": " +:+ reason) ∧
  (∀ reason, error_message None reason = reason ∧
             error_message (Some {| start := None |}) reason = reason).
Proof.
  split; [|split; [|done]].
  - intros names subj st loc reason Hreach Hrej. apply transpile_throw.
    eapply reaches_throw; [done|]. by apply rejected_throw.
  - intros m H%transpile_Error. by apply walk_explained in H.
Qed.

(** [const o = { get foo() {} };] from the repository's tests, the property
    on line 2, column 17 (0-based). *)
Lemma failure_message_format_witness :
  transpile LF
    (Program None
       [VariableDeclaration None
          [VariableDeclarator None (Identifier None "o")
             (Some (ObjectExpression None
                      [Property (Some {| start := Some {| line := 2; column := 17 |} |})
                                false (Identifier None "foo") false KindGet
                                (FunctionExpression None)]))]]) None
  = Throw (Error "Line 2, column 18: getters ('foo') are not supported").
Proof.
  eapply eq_trans.
  - eapply (proj1 (failure_message_format LF _ None)).
    + eapply reaches_inside.
      { eapply (in_program None [] _ []); [vm_compute; reflexivity|].
        exists [], []. vm_compute. reflexivity. }
      eapply reaches_inside.
      { eapply (in_declaration None [] _ []). exists [], []. vm_compute. reflexivity. }
      eapply reaches_inside.
      { eapply in_declarator_init; vm_compute; reflexivity. }
      apply reaches_here.
    + eapply (rejected_getter None [] _ (Identifier None "foo") _ []).
      * exists [], []. vm_compute. reflexivity.
      * vm_compute. reflexivity.
  - vm_compute. reflexivity.
Defined.









End walk_claims.
